(** * Oral-reading-fluency scoring: alignment, classification and metrics

    A shallow embedding of [backend/app/services/orf_assessment.py]
    (class [ORFAssessment]) and of parts of [backend/app/api/routes.py]:
    the gate of an assessment on input validation, [create_student] and
    [get_leaderboard].

    [ORFAssessment.align_sequences] delegates the alignment to Python's
    [difflib.SequenceMatcher(None, reference_words, transcript_words)];
    the matcher is embedded from CPython's [Lib/difflib.py] with the
    arguments the call site fixes: [isjunk = None], [autojunk = True].

    Conventions.
    - Python [int] indices are [nat]; every subtraction of the source is
      written so that it agrees with Python wherever Python's result is
      non-negative, and the places where Python would go below zero are
      written out.
    - A Python [str] is a [string]; its characters are the code points
      0..255.
    - A Python [dict] is a [gmap]; a list is a [list].
    - Code that may raise ([IndexError], [ZeroDivisionError]) or loop returns
      an [option]; [None] stands for "did not return a value".
    - Python [float]s are idealised as the rationals [Q], except in
      [Binary64], which has the lines that compute the WCPM in the
      arithmetic of the code: binary64 with its rounding, infinities and
      NaN, as specified by [SpecFloat]. *)

From Stdlib Require Import QArith Qabs Ascii String.
From Stdlib Require Import Floats.SpecFloat.
From stdpp Require Import base list gmap strings sorting.

Close Scope Q_scope.
Local Open Scope nat_scope.

(** A token is a normalised word. *)
Abbreviation token := string.

(** ** [difflib.SequenceMatcher] *)

Module Difflib.

(** [Match(a, b, size)]. *)
Definition Match : Type := nat * nat * nat.

(** A pending sub-problem [(alo, ahi, blo, bhi)] of [get_matching_blocks]. *)
Definition range : Type := nat * nat * nat * nat.

Inductive tag := OpEqual | OpReplace | OpDelete | OpInsert.

Global Instance tag_eq_dec : EqDecision tag.
Proof. solve_decision. Defined.

(** [(tag, i1, i2, j1, j2)]. *)
Definition opcode : Type := tag * nat * nat * nat * nat.

(** *** [__chain_b] *)

(** [for i, elt in enumerate(b): b2j.setdefault(elt, []).append(i)],
    started at index [i]. *)
Fixpoint chain_from (i : nat) (b : list token)
    (b2j : gmap token (list nat)) : gmap token (list nat) :=
  match b with
  | [] => b2j
  | elt :: b' =>
      chain_from (S i) b' (<[elt := default [] (b2j !! elt) ++ [i]]> b2j)
  end.

(** An element is popular when it has more than [n // 100 + 1] occurrences. *)
Definition popular (n : nat) (idxs : list nat) : Prop :=
  n / 100 + 1 < length idxs.

Global Instance popular_dec n idxs : Decision (popular n idxs).
Proof. unfold popular. apply _. Defined.

(** [isjunk] is [None]: nothing is purged as junk and [bjunk] stays empty.
    With [autojunk] and [len(b) >= 200] the popular elements are deleted. *)
Definition chain_b (b : list token) : gmap token (list nat) :=
  let b2j := chain_from 0 b ∅ in
  let n := length b in
  if bool_decide (200 ≤ n)
  then filter (λ kv : token * list nat, ¬ popular n kv.2) b2j
  else b2j.

Definition bjunk : gset token := ∅.

Definition isbjunk (elt : token) : bool := bool_decide (elt ∈ bjunk).

(** *** [find_longest_match] *)

Section find_longest_match.
Context (a b : list token) (b2j : gmap token (list nat)).
Context (alo ahi blo bhi : nat).

(** [a[i] == b[j]]; both reads are in range at every use. *)
Definition same_at (i j : nat) : bool :=
  match a !! i, b !! j with
  | Some x, Some y => bool_decide (x = y)
  | _, _ => false
  end.

(** [isbjunk(b[j])]. *)
Definition isbjunk_at (j : nat) : bool :=
  match b !! j with
  | Some y => isbjunk y
  | None => false
  end.

(** [j2lenget(j-1, 0)]: for [j = 0] the key is [-1], never present. *)
Definition j2lenget_pred (j2len : gmap nat nat) (j : nat) : nat :=
  match j with
  | 0 => 0
  | S j' => default 0 (j2len !! j')
  end.

(** The inner loop [for j in b2j.get(a[i], nothing)], with its
    [continue] and [break]. *)
Fixpoint scan_row (i : nat) (js : list nat) (j2len newj2len : gmap nat nat)
    (best : Match) : gmap nat nat * Match :=
  match js with
  | [] => (newj2len, best)
  | j :: js' =>
      if bool_decide (j < blo) then scan_row i js' j2len newj2len best
      else if bool_decide (bhi ≤ j) then (newj2len, best)
      else
        let k := j2lenget_pred j2len j + 1 in
        let best' :=
          if bool_decide (best.2 < k) then (i + 1 - k, j + 1 - k, k)
          else best in
        scan_row i js' j2len (<[j := k]> newj2len) best'
  end.

(** The outer loop [for i in range(alo, ahi)]. *)
Fixpoint scan_rows (rows : list nat) (j2len : gmap nat nat)
    (best : Match) : Match :=
  match rows with
  | [] => best
  | i :: rows' =>
      let js :=
        match a !! i with
        | Some x => default [] (b2j !! x)
        | None => []
        end in
      let '(newj2len, best') := scan_row i js j2len ∅ best in
      scan_rows rows' newj2len best'
  end.

(** [while besti > alo and bestj > blo and <junk test>(b[bestj-1]) and
    a[besti-1] == b[bestj-1]]; [junk = false] is the loop guarded by
    [not isbjunk], [junk = true] the one guarded by [isbjunk]. *)
Fixpoint extend_back (junk : bool) (besti bestj bestsize : nat)
    {struct besti} : Match :=
  match besti, bestj with
  | S i', S j' =>
      if bool_decide (alo < besti) && bool_decide (blo < bestj)
         && bool_decide (isbjunk_at j' = junk) && same_at i' j'
      then extend_back junk i' j' (S bestsize)
      else (besti, bestj, bestsize)
  | _, _ => (besti, bestj, bestsize)
  end.

(** [while besti+bestsize < ahi and bestj+bestsize < bhi and <junk test>
    and a[besti+bestsize] == b[bestj+bestsize]: bestsize += 1]. Each turn
    brings [besti+bestsize] one closer to [ahi], which bounds the turns. *)
Fixpoint extend_fwd (turns : nat) (junk : bool) (besti bestj bestsize : nat)
    : nat :=
  match turns with
  | 0 => bestsize
  | S turns' =>
      if bool_decide (besti + bestsize < ahi)
         && bool_decide (bestj + bestsize < bhi)
         && bool_decide (isbjunk_at (bestj + bestsize) = junk)
         && same_at (besti + bestsize) (bestj + bestsize)
      then extend_fwd turns' junk besti bestj (S bestsize)
      else bestsize
  end.

Definition extend (junk : bool) (best : Match) : Match :=
  let '(besti, bestj, bestsize) := best in
  let '(besti, bestj, bestsize) := extend_back junk besti bestj bestsize in
  (besti, bestj,
   extend_fwd (ahi - (besti + bestsize)) junk besti bestj bestsize).

Definition longest_junk_free : Match :=
  scan_rows (seq alo (ahi - alo)) ∅ (alo, blo, 0).

Definition find_longest_match : Match :=
  extend true (extend false longest_junk_free).
End find_longest_match.

(** *** [get_matching_blocks] *)

(** Tuples compare lexicographically in [matching_blocks.sort()]. *)
Definition match_le (x y : Match) : Prop :=
  let '(i1, j1, k1) := x in
  let '(i2, j2, k2) := y in
  i1 < i2 ∨ (i1 = i2 ∧ (j1 < j2 ∨ (j1 = j2 ∧ k1 ≤ k2))).

Global Instance match_le_dec x y : Decision (match_le x y).
Proof. destruct x as [[??]?], y as [[??]?]. unfold match_le. apply _. Defined.

Section get_matching_blocks.
Context (a b : list token).

(** The [while queue:] loop. The Python list [queue] is used as a stack
    ([pop] takes the last element); here its top is the head. [None] when
    the turns run out. *)
Fixpoint match_loop (turns : nat) (queue : list range)
    (matching_blocks : list Match) : option (list Match) :=
  match queue with
  | [] => Some matching_blocks
  | (alo, ahi, blo, bhi) :: queue =>
      match turns with
      | 0 => None
      | S turns' =>
          let '(i, j, k) :=
            find_longest_match a b (chain_b b) alo ahi blo bhi in
          if bool_decide (k ≠ 0) then
            let queue :=
              if bool_decide (alo < i) && bool_decide (blo < j)
              then (alo, i, blo, j) :: queue else queue in
            let queue :=
              if bool_decide (i + k < ahi) && bool_decide (j + k < bhi)
              then (i + k, ahi, j + k, bhi) :: queue else queue in
            match_loop turns' queue (matching_blocks ++ [(i, j, k)])
          else match_loop turns' queue matching_blocks
      end
  end.

(** The loop that collapses adjacent equal blocks, then the sentinel. *)
Fixpoint collapse (matching_blocks : list Match) (i1 j1 k1 : nat)
    (non_adjacent : list Match) : list Match :=
  match matching_blocks with
  | [] =>
      (if bool_decide (k1 ≠ 0) then non_adjacent ++ [(i1, j1, k1)]
       else non_adjacent) ++ [(length a, length b, 0)]
  | (i2, j2, k2) :: rest =>
      if bool_decide (i1 + k1 = i2) && bool_decide (j1 + k1 = j2)
      then collapse rest i1 j1 (k1 + k2) non_adjacent
      else
        collapse rest i2 j2 k2
          (if bool_decide (k1 ≠ 0) then non_adjacent ++ [(i1, j1, k1)]
           else non_adjacent)
  end.

(** Every turn of the loop but the first takes a sub-problem that is
    non-empty on the [a] side, and the matches it finds are disjoint:
    [2 * len(a) + 1] turns are enough (lemmas [match_loop_tree] and
    [get_matching_blocks_tree]). *)
Definition get_matching_blocks : option (list Match) :=
  matching_blocks ← match_loop (2 * length a + 1) [(0, length a, 0, length b)] [];
  Some (collapse (merge_sort match_le matching_blocks) 0 0 0 []).

(** *** [get_opcodes] *)

Definition gap_tag (i ai j bj : nat) : option tag :=
  if bool_decide (i < ai) && bool_decide (j < bj) then Some OpReplace
  else if bool_decide (i < ai) then Some OpDelete
  else if bool_decide (j < bj) then Some OpInsert
  else None.

Fixpoint opcodes_loop (blocks : list Match) (i j : nat)
    (answer : list opcode) : list opcode :=
  match blocks with
  | [] => answer
  | (ai, bj, size) :: rest =>
      let answer :=
        match gap_tag i ai j bj with
        | Some tag => answer ++ [(tag, i, ai, j, bj)]
        | None => answer
        end in
      let i' := ai + size in
      let j' := bj + size in
      let answer :=
        if bool_decide (size ≠ 0) then answer ++ [(OpEqual, ai, i', bj, j')]
        else answer in
      opcodes_loop rest i' j' answer
  end.

Definition get_opcodes : option (list opcode) :=
  blocks ← get_matching_blocks;
  Some (opcodes_loop blocks 0 0 []).
End get_matching_blocks.

End Difflib.

(** ** [ORFAssessment.align_sequences] *)

(** [(hits, substitutions, insertions, deletions)]. *)
Definition alignment : Type :=
  list (token * token) * list (token * token) * list token * list token.

(** Truth value of [ref_word] / [trans_word]: [None] and the empty string
    are false. *)
Definition truthy (w : option token) : bool :=
  match w with
  | Some s => bool_decide (s ≠ "")
  | None => false
  end.

(** One turn of [for k in range(max_len)] in the [replace] branch: the
    three-way [if ref_word and trans_word / elif ref_word and not trans_word
    / elif not ref_word and trans_word]. *)
Definition replace_step (st : alignment) (ref_word trans_word : option token)
    : alignment :=
  let '(hits, substitutions, insertions, deletions) := st in
  match truthy ref_word, truthy trans_word, ref_word, trans_word with
  | true, true, Some r, Some t =>
      (hits, substitutions ++ [(r, t)], insertions, deletions)
  | true, false, Some r, _ =>
      (hits, substitutions, insertions, deletions ++ [r])
  | false, true, _, Some t =>
      (hits, substitutions, insertions ++ [t], deletions)
  | _, _, _, _ => st
  end.

(** [l[i1:i2]] for non-negative bounds. *)
Definition slice {A} (l : list A) (i1 i2 : nat) : list A :=
  take (i2 - i1) (drop i1 l).

Section align_sequences.
Context (reference_words transcript_words : list token).

Definition classify_replace (st : alignment) (i1 i2 j1 j2 : nat)
    : alignment :=
  let ref_slice := slice reference_words i1 i2 in
  let trans_slice := slice transcript_words j1 j2 in
  let max_len := length ref_slice `max` length trans_slice in
  foldl (λ st k, replace_step st (ref_slice !! k) (trans_slice !! k))
    st (seq 0 max_len).

(** The body of [for tag, i1, i2, j1, j2 in matcher.get_opcodes()];
    [None] is an [IndexError]. *)
Definition classify_op (st : alignment) (op : Difflib.opcode)
    : option alignment :=
  let '(tag, i1, i2, j1, j2) := op in
  let '(hits, substitutions, insertions, deletions) := st in
  match tag with
  | Difflib.OpEqual =>
      pairs ← mapM (λ ij : nat * nat,
                      r ← reference_words !! ij.1;
                      t ← transcript_words !! ij.2;
                      Some (r, t))
                   (zip (seq i1 (i2 - i1)) (seq j1 (j2 - j1)));
      Some (hits ++ pairs, substitutions, insertions, deletions)
  | Difflib.OpReplace => Some (classify_replace st i1 i2 j1 j2)
  | Difflib.OpDelete =>
      ws ← mapM (λ i, reference_words !! i) (seq i1 (i2 - i1));
      Some (hits, substitutions, insertions, deletions ++ ws)
  | Difflib.OpInsert =>
      ws ← mapM (λ j, transcript_words !! j) (seq j1 (j2 - j1));
      Some (hits, substitutions, insertions ++ ws, deletions)
  end.

Fixpoint classify_all (ops : list Difflib.opcode) (st : alignment)
    : option alignment :=
  match ops with
  | [] => Some st
  | op :: ops' => st' ← classify_op st op; classify_all ops' st'
  end.

Definition align_sequences : option alignment :=
  ops ← Difflib.get_opcodes reference_words transcript_words;
  classify_all ops ([], [], [], []).
End align_sequences.

(** ** Text: [re.sub], [str.strip], [str.lower], [str.split] *)

Module Text.

Definition code (c : ascii) : N := N_of_ascii c.

(** [c.isspace()], which is also what [\s] matches in a [str] pattern. *)
Definition is_space (c : ascii) : bool :=
  let n := code c in
  ((9 <=? n) && (n <=? 13) || (28 <=? n) && (n <=? 32)
   || (n =? 133) || (n =? 160))%N.

(** What [\w] matches in a [str] pattern: alphanumerics and the underscore. *)
Definition is_word (c : ascii) : bool :=
  let n := code c in
  ((48 <=? n) && (n <=? 57) || (65 <=? n) && (n <=? 90) || (n =? 95)
   || (97 <=? n) && (n <=? 122)
   || (n =? 170) || (n =? 178) || (n =? 179) || (n =? 181) || (n =? 185)
   || (n =? 186) || (188 <=? n) && (n <=? 190)
   || (192 <=? n) && (n <=? 214) || (216 <=? n) && (n <=? 246)
   || (248 <=? n))%N.

(** [c.lower()]. *)
Definition lower_char (c : ascii) : ascii :=
  let n := code c in
  if ((65 <=? n) && (n <=? 90) || (192 <=? n) && (n <=? 214)
      || (216 <=? n) && (n <=? 222))%N
  then ascii_of_N (n + 32) else c.

(** [re.sub(r'[^\w\s]', '', text)]. *)
Definition sub_non_word (text : list ascii) : list ascii :=
  filter (λ c, is_word c || is_space c) text.

(** [re.sub(r'\s+', ' ', text)]: [in_run] tells that the previous character
    belonged to the run of whitespace being replaced. *)
Fixpoint sub_spaces (in_run : bool) (text : list ascii) : list ascii :=
  match text with
  | [] => []
  | c :: text' =>
      if is_space c
      then (if in_run then [] else [" "%char]) ++ sub_spaces true text'
      else c :: sub_spaces false text'
  end.

Fixpoint lstrip (text : list ascii) : list ascii :=
  match text with
  | [] => []
  | c :: text' => if is_space c then lstrip text' else text
  end.

(** [text.strip()]. *)
Definition strip (text : list ascii) : list ascii :=
  reverse (lstrip (reverse (lstrip text))).

(** [text.lower()]. *)
Definition lower (text : list ascii) : list ascii := lower_char <$> text.

(** [text.split()]: words separated by runs of whitespace, no empty word;
    [word] is the word being read. *)
Fixpoint split_from (word : list ascii) (text : list ascii)
    : list (list ascii) :=
  match text with
  | [] => match word with [] => [] | _ => [word] end
  | c :: text' =>
      if is_space c
      then match word with
           | [] => split_from [] text'
           | _ => word :: split_from [] text'
           end
      else split_from (word ++ [c]) text'
  end.

Definition split (text : string) : list token :=
  string_of_list_ascii <$> split_from [] (list_ascii_of_string text).

End Text.

(** ** [ORFAssessment] *)

(** [clean_text]. *)
Definition clean_text (text : string) : string :=
  string_of_list_ascii
    (Text.lower
       (Text.strip
          (Text.sub_spaces false
             (Text.sub_non_word (list_ascii_of_string text))))).

(** [detailed_errors]: the three lists under the keys ["substitutions"],
    ["insertions"] and ["deletions"]. *)
Record detailed_errors := DetailedErrors {
  err_substitutions : list (token * token);
  err_insertions : list token;
  err_deletions : list token
}.

Record ORFResults := mkORFResults {
  transcript : string;
  target_text : string;
  wcpm : Q;
  hits : nat;
  substitutions : nat;
  insertions : nat;
  deletions : nat;
  wer : Q;
  accuracy : Q;
  detailed : detailed_errors
}.

(** [x / y]; [None] is [ZeroDivisionError]. *)
Definition py_div (x y : Q) : option Q :=
  if Qeq_bool y 0 then None else Some (x / y)%Q.

Definition Q_of_nat (n : nat) : Q := inject_Z (Z.of_nat n).

(** [wer = (n_subs + n_dels + n_ins) / n_ref if n_ref > 0 else 0]. *)
Definition compute_wer (n_subs n_dels n_ins n_ref : nat) : option Q :=
  if bool_decide (0 < n_ref)
  then py_div (Q_of_nat (n_subs + n_dels + n_ins)) (Q_of_nat n_ref)
  else Some 0%Q.

(** Lines 126-129: [wcpm = 0.0], then under [if duration_seconds:] the
    division guarded by [duration_minutes > 0]. [None] for
    [duration_seconds] is Python's [None]. This is the rational
    idealisation, without overflow or underflow; [Binary64.compute_wcpm]
    has the same lines in binary64. *)
Definition compute_wcpm (n_hits : nat) (duration_seconds : option Q)
    : option Q :=
  match duration_seconds with
  | None => Some 0%Q
  | Some d =>
      if Qeq_bool d 0 then Some 0%Q
      else
        duration_minutes ← py_div d 60;
        if Qlt_le_dec 0 duration_minutes
        then py_div (Q_of_nat n_hits) duration_minutes
        else Some 0%Q
  end.

Section assessment.
(** The speech recogniser: [None] when it raises. *)
Context (generate_transcript : string → option string).
(** [librosa.load]: the text of the exception it raises, or the samples. *)
Context (load : string → string + list Q).
(** The text of the [ValueError] of [max] on an empty array. *)
Context (max_empty : string).

Definition assess_reading (audio_file_path target : string)
    (duration_seconds : option Q) : option ORFResults :=
  transcript ← generate_transcript audio_file_path;
  let target_clean := clean_text target in
  let transcript_clean := clean_text transcript in
  let target_words := Text.split target_clean in
  let transcript_words := Text.split transcript_clean in
  '(hits, substitutions, insertions, deletions) ←
    align_sequences target_words transcript_words;
  let n_hits := length hits in
  let n_subs := length substitutions in
  let n_ins := length insertions in
  let n_dels := length deletions in
  let n_ref := length target_words in
  wer ← compute_wer n_subs n_dels n_ins n_ref;
  let accuracy := (1 - wer)%Q in
  wcpm ← compute_wcpm n_hits duration_seconds;
  Some (mkORFResults transcript target wcpm n_hits n_subs n_ins n_dels
          wer accuracy (DetailedErrors substitutions insertions deletions)).

(** [max(abs(audio))] for a non-empty array. *)
Definition peak (audio : list Q) : Q :=
  foldr (λ x m, if Qlt_le_dec m (Qabs x) then Qabs x else m) 0%Q audio.

(** The [try] block of [validate_inputs]; [max] of an empty array raises
    inside it, after the length check has run. *)
Definition audio_errors (audio_path : string) : list string :=
  match load audio_path with
  | inl e => ["Cannot read audio file: " +:+ e]
  | inr audio =>
      let errors :=
        if bool_decide (length audio < 1) then ["Audio file too short"]
        else [] in
      match audio with
      | [] => errors ++ ["Cannot read audio file: " +:+ max_empty]
      | _ =>
          if Qlt_le_dec (peak audio) (1 # 100)
          then errors ++ ["Audio level too low"] else errors
      end
  end.

Definition validate_inputs (audio_path text : string) : list string :=
  let errors := audio_errors audio_path in
  if bool_decide (length (Text.split text) < 10)
  then errors ++ ["Text too short (minimum 10 words)"]
  else errors.

(** What [process_assessment] does with the request once the audio file
    is saved: [HTTPException(400)] with the validation details,
    [HTTPException(500)] when the assessment raises, or the results that
    go on to the database and the response. *)
Inductive outcome :=
| ValidationFailed (details : list string)
| ProcessingFailed
| Assessed (results : ORFResults).

Definition process_assessment (audio_path target : string)
    (duration_seconds : option Q) : outcome :=
  let errors := validate_inputs audio_path target in
  match errors with
  | _ :: _ => ValidationFailed errors
  | [] =>
      match assess_reading audio_path target duration_seconds with
      | Some results => Assessed results
      | None => ProcessingFailed
      end
  end.
End assessment.

(** ** Auxiliary definitions for the proofs *)

Import Difflib.

(** The indices at which [x] occurs in [b], in increasing order, when the
    first element of [b] has index [i]. *)
Fixpoint occ_from (i : nat) (x : token) (b : list token) : list nat :=
  match b with
  | [] => []
  | e :: b' => (if decide (e = x) then [i] else []) ++ occ_from (S i) x b'
  end.

Section blocks.
Context (a b : list token).

(** [a[i:i+k] == b[j:j+k]], with both slices inside the sequences. *)
Definition matches (i j k : nat) : Prop :=
  ∀ d, d < k → same_at a b (i + d) (j + d) = true.

(** [m] is a common block of [a[alo:ahi]] and [b[blo:bhi]]. *)
Definition block_ok (alo ahi blo bhi : nat) (m : Match) : Prop :=
  let '(i, j, k) := m in
  alo ≤ i ∧ i + k ≤ ahi ∧ blo ≤ j ∧ j + k ≤ bhi ∧ matches i j k.

(** A common block of length [k] whose last pair is [(a[i], b[j])] and
    which starts no earlier than [alo], [blo]. *)
Definition ends_ok (alo blo i j k : nat) : Prop :=
  1 ≤ k ∧ alo + k ≤ i + 1 ∧ blo + k ≤ j + 1 ∧ matches (i + 1 - k) (j + 1 - k) k.

(** Every entry of [b2j] lists positions of its key in [b]. *)
Definition b2j_sound (b2j : gmap token (list nat)) : Prop :=
  ∀ x js j, b2j !! x = Some js → j ∈ js → b !! j = Some x.
End blocks.

Section tree.
Context (a b : list token).

(** The recursion behind the work list of [get_matching_blocks]: the
    blocks found in [a[alo:ahi]], [b[blo:bhi]], those before the longest
    match first, then the match, then those after it. [depth] bounds the
    nesting; [S (ahi - alo)] is enough. *)
Fixpoint tree_blocks (depth : nat) (alo ahi blo bhi : nat) : list Match :=
  match depth with
  | 0 => []
  | S depth' =>
      let '(i, j, k) := find_longest_match a b (chain_b b) alo ahi blo bhi in
      if bool_decide (k ≠ 0) then
        (if bool_decide (alo < i) && bool_decide (blo < j)
         then tree_blocks depth' alo i blo j else [])
        ++ (i, j, k)
        :: (if bool_decide (i + k < ahi) && bool_decide (j + k < bhi)
            then tree_blocks depth' (i + k) ahi (j + k) bhi else [])
      else []
  end.

(** [l] is a list of non-empty common blocks that lie one after the other
    between [(i0, j0)] and [(i1, j1)]; [G alo ahi blo bhi] holds of every
    gap [a[alo:ahi]], [b[blo:bhi]] they leave. *)
Fixpoint chain (G : nat → nat → nat → nat → Prop) (i0 j0 : nat)
    (l : list Match) (i1 j1 : nat) : Prop :=
  match l with
  | [] => i0 ≤ i1 ∧ j0 ≤ j1 ∧ G i0 i1 j0 j1
  | (i, j, k) :: l' =>
      i0 ≤ i ∧ j0 ≤ j ∧ G i0 i j0 j ∧ 0 < k ∧ matches a b i j k
      ∧ chain G (i + k) (j + k) l' i1 j1
  end.

(** No token of [a[alo:ahi]] occurs in [b[blo:bhi]]. *)
Definition disjoint (alo ahi blo bhi : nat) : Prop :=
  ∀ p q, alo ≤ p < ahi → blo ≤ q < bhi → same_at a b p q = false.
End tree.

Section opcodes.
Context (a b : list token).

(** The opcode [get_opcodes] emits for the gap [a[i:ai]], [b[j:bj]]. *)
Definition gap_ops (i ai j bj : nat) : list opcode :=
  match gap_tag i ai j bj with
  | Some tag => [(tag, i, ai, j, bj)]
  | None => []
  end.

(** What the matcher's documentation promises of each opcode; [G] is what
    is known of the two ranges of a [replace]. *)
Definition op_ok (G : nat → nat → nat → nat → Prop) (op : opcode) : Prop :=
  let '(tag, i1, i2, j1, j2) := op in
  i1 ≤ i2 ∧ j1 ≤ j2 ∧
  match tag with
  | OpEqual => 0 < i2 - i1 ∧ i2 - i1 = j2 - j1 ∧ matches a b i1 j1 (i2 - i1)
  | OpReplace => i1 < i2 ∧ j1 < j2 ∧ G i1 i2 j1 j2
  | OpDelete => i1 < i2 ∧ j1 = j2
  | OpInsert => i1 = i2 ∧ j1 < j2
  end.

(** The opcodes tile [a[i:i']] and [b[j:j']]: each starts where the
    previous one stops. *)
Fixpoint ops_cover (G : nat → nat → nat → nat → Prop) (i j : nat)
    (ops : list opcode) (i' j' : nat) : Prop :=
  match ops with
  | [] => i = i' ∧ j = j'
  | (tag, i1, i2, j1, j2) :: ops' =>
      i1 = i ∧ j1 = j ∧ op_ok G (tag, i1, i2, j1, j2)
      ∧ ops_cover G i2 j2 ops' i' j'
  end.
End opcodes.

(** *** What one opcode adds to the four lists *)

Definition al_hits (st : alignment) : list (token * token) := st.1.1.1.
Definition al_substitutions (st : alignment) : list (token * token) := st.1.1.2.
Definition al_insertions (st : alignment) : list token := st.1.2.
Definition al_deletions (st : alignment) : list token := st.2.

Definition al_empty : alignment := ([], [], [], []).

Definition al_app (st d : alignment) : alignment :=
  (al_hits st ++ al_hits d, al_substitutions st ++ al_substitutions d,
   al_insertions st ++ al_insertions d, al_deletions st ++ al_deletions d).

Section deltas.
Context (a b : list token).

Definition op_delta (op : opcode) : alignment :=
  let '(tag, i1, i2, j1, j2) := op in
  match tag with
  | OpEqual => (zip (slice a i1 i2) (slice b j1 j2), [], [], [])
  | OpReplace => classify_replace a b al_empty i1 i2 j1 j2
  | OpDelete => ([], [], [], slice a i1 i2)
  | OpInsert => ([], [], slice b j1 j2, [])
  end.

Definition deltas (ops : list opcode) : alignment :=
  foldr (λ op d, al_app (op_delta op) d) al_empty ops.
End deltas.

(** A sequence of words: no token is the empty string. [str.split] returns
    such sequences only (lemma [split_all_words]). *)
Definition all_words (ws : list token) : Prop := Forall (λ w : token, w ≠ "") ws.

Definition ref_count (st : alignment) : nat :=
  length (al_hits st) + length (al_substitutions st) + length (al_deletions st).

Definition hyp_count (st : alignment) : nat :=
  length (al_hits st) + length (al_substitutions st) + length (al_insertions st).

(** *** The longest match and its tie-break *)

Section longest.
Context (a b : list token).
Context (alo ahi blo bhi : nat).

(** [(bi, bj)] comes first: smaller index into [a], then into [b]. *)
Definition starts_le (bi bj i j : nat) : Prop := bi < i ∨ (bi = i ∧ bj ≤ j).

(** What [find_longest_match] documents of its result when there is no
    junk: a common block of the two ranges, at least as long as any
    other, and first among the longest. *)
Definition leftmost_longest (m : Match) : Prop :=
  let '(i, j, k) := m in
  block_ok a b alo ahi blo bhi m
  ∧ ∀ i' j' k', 0 < k' → block_ok a b alo ahi blo bhi (i', j', k') →
      k' ≤ k ∧ (k' = k → starts_le i j i' j').

(** [best] is at least as long as, and not after, every common block
    whose last pair is at a position [(i, j)] already [seen]. *)
Definition best_over (seen : nat → nat → Prop) (best : Match) : Prop :=
  let '(bi, bj, bk) := best in
  ∀ i j k, seen i j → i < ahi → j < bhi → ends_ok a b alo blo i j k →
    k ≤ bk ∧ (k = bk → starts_le bi bj (i + 1 - k) (j + 1 - k)).

(** [best], if not empty, ends before row [i], or in row [i] before all of
    the columns [js] still to be visited. *)
Definition best_ends_before (i : nat) (js : list nat) (best : Match) : Prop :=
  let '(bi, bj, bk) := best in
  0 < bk → bi + bk ≤ i ∨ (bi + bk = i + 1 ∧ ∀ j, j ∈ js → bj + bk ≤ j).

(** The table of row [i] records every common block that ends in that
    row, but for the columns [js] still to be visited. *)
Definition row_covers (i : nat) (js : list nat) (newj2len : gmap nat nat)
    : Prop :=
  ∀ j k', j < bhi → ends_ok a b alo blo i j k' →
    (∃ k, newj2len !! j = Some k ∧ k' ≤ k) ∨ j ∈ js.
End longest.

(** ** The aligner as the specification words it

    "At each step, find the longest contiguous run of tokens that exists
    identically in both the current reference sub-range and the current
    hypothesis sub-range. Tie-break for equal-length maximal matches: prefer
    the match starting at the smallest reference index; among matches
    sharing that reference index, prefer the smallest hypothesis index. Emit
    an equal opcode for that matched block, then recurse independently on the
    sub-ranges strictly before the match and strictly after the match,
    emitting delete/insert/replace opcodes for the unmatched leftovers." *)

Section spec_aligner.
Context (R H : list token).

(** A run of [k] tokens at [i] in the reference sub-range [alo, ahi) that
    is found identically at [j] in the hypothesis sub-range [blo, bhi). *)
Definition common_run (alo ahi blo bhi i j k : nat) : Prop :=
  alo ≤ i ∧ i + k ≤ ahi ∧ blo ≤ j ∧ j + k ≤ bhi
  ∧ slice R i (i + k) = slice H j (j + k).

Definition spec_longest_run (alo ahi blo bhi i j k : nat) : Prop :=
  0 < k ∧ common_run alo ahi blo bhi i j k
  ∧ ∀ i' j' k', common_run alo ahi blo bhi i' j' k' →
      k' ≤ k ∧ (k' = k → i ≤ i' ∧ (i' = i → j ≤ j')).

(** Leftover on the reference side only: delete; on the hypothesis side
    only: insert; on both sides: replace. *)
Definition spec_leftover (alo ahi blo bhi : nat) : list opcode :=
  if bool_decide (alo < ahi) then
    if bool_decide (blo < bhi) then [(OpReplace, alo, ahi, blo, bhi)]
    else [(OpDelete, alo, ahi, blo, bhi)]
  else
    if bool_decide (blo < bhi) then [(OpInsert, alo, ahi, blo, bhi)]
    else [].

Inductive spec_partition : nat → nat → nat → nat → list opcode → Prop :=
| partition_leftover alo ahi blo bhi :
    (∀ i j k, 0 < k → ¬ common_run alo ahi blo bhi i j k) →
    spec_partition alo ahi blo bhi (spec_leftover alo ahi blo bhi)
| partition_block alo ahi blo bhi i j k before after :
    spec_longest_run alo ahi blo bhi i j k →
    spec_partition alo i blo j before →
    spec_partition (i + k) ahi (j + k) bhi after →
    spec_partition alo ahi blo bhi
      (before ++ (OpEqual, i, i + k, j, j + k) :: after).
End spec_aligner.

(** Two blocks that touch in both sequences. *)
Definition adjacent (x y : Match) : Prop :=
  let '(i1, j1, k1) := x in
  let '(i2, j2, _) := y in
  i1 + k1 = i2 ∧ j1 + k1 = j2.

(** No block of the list touches the next one. *)
Fixpoint separated (l : list Match) : Prop :=
  match l with
  | [] => True
  | x :: l' =>
      match l' with [] => True | y :: _ => ¬ adjacent x y end ∧ separated l'
  end.

(** ** The normaliser and the replace walk as the specification words them *)

(** *** The normaliser of the specification

    "Strip all non-word, non-whitespace characters; collapse runs of
    whitespace to single separators; lowercase; split on whitespace."
    The four steps and the character classes are written here on their
    own, without the functions of [Text]. *)

(** The whitespace characters, the ranges of the word characters (letters,
    digits and the underscore) and the ranges of the upper-case letters,
    whose lower case is 32 above, among the code points 0 to 255. *)
Definition spec_whitespace : list N :=
  [9; 10; 11; 12; 13; 28; 29; 30; 31; 32; 133; 160]%N.

Definition spec_word_ranges : list (N * N) :=
  [(48, 57); (65, 90); (95, 95); (97, 122); (170, 170); (178, 179);
   (181, 181); (185, 186); (188, 190); (192, 214); (216, 246);
   (248, 255)]%N.

Definition spec_upper_ranges : list (N * N) :=
  [(65, 90); (192, 214); (216, 222)]%N.

Definition in_ranges (n : N) (ranges : list (N * N)) : bool :=
  existsb (λ r, (r.1 <=? n) && (n <=? r.2))%N ranges.

Definition spec_is_space (c : ascii) : bool :=
  existsb (N.eqb (N_of_ascii c)) spec_whitespace.

Definition spec_is_word (c : ascii) : bool :=
  in_ranges (N_of_ascii c) spec_word_ranges.

Definition spec_lower_char (c : ascii) : ascii :=
  if in_ranges (N_of_ascii c) spec_upper_ranges
  then ascii_of_N (N_of_ascii c + 32) else c.

(** "Strip all non-word, non-whitespace characters." *)
Fixpoint spec_strip_chars (text : list ascii) : list ascii :=
  match text with
  | [] => []
  | c :: text' =>
      if spec_is_word c then c :: spec_strip_chars text'
      else if spec_is_space c then c :: spec_strip_chars text'
      else spec_strip_chars text'
  end.

(** "Collapse runs of whitespace to single separators": a whitespace
    character followed by another one is dropped, the last of a run
    becomes the separator. *)
Fixpoint spec_collapse (text : list ascii) : list ascii :=
  match text with
  | [] => []
  | c :: text' =>
      if spec_is_space c
      then match text' with
           | d :: _ =>
               if spec_is_space d then spec_collapse text'
               else " "%char :: spec_collapse text'
           | [] => [" "%char]
           end
      else c :: spec_collapse text'
  end.

(** "Lowercase." *)
Definition spec_lowercase (text : list ascii) : list ascii :=
  spec_lower_char <$> text.

(** "Split on whitespace", from the right: a character joins the word that
    starts after it, a separator closes that word; a word without
    characters is no token. *)
Definition spec_close (word : list ascii) (words : list (list ascii))
    : list (list ascii) :=
  match word with [] => words | _ => word :: words end.

Definition spec_split_step (c : ascii)
    (st : list ascii * list (list ascii)) : list ascii * list (list ascii) :=
  if spec_is_space c then ([], spec_close st.1 st.2) else (c :: st.1, st.2).

Definition spec_split (text : list ascii) : list (list ascii) :=
  let st := foldr spec_split_step ([], []) text in spec_close st.1 st.2.

Definition spec_normalize (text : string) : list token :=
  string_of_list_ascii
  <$> spec_split
        (spec_lowercase
           (spec_collapse (spec_strip_chars (list_ascii_of_string text)))).

Section spec_replace.
Context (R H : list token) (i1 i2 j1 j2 : nat).

(** "If both a reference token and a hypothesis token exist at offset [k],
    emit a substitution pair; if only the reference token exists, emit a
    deletion; if only the hypothesis token exists, emit an insertion." *)
Definition spec_replace_at (st : alignment) (k : nat) : alignment :=
  let '(hits, substitutions, insertions, deletions) := st in
  let ref_token := if bool_decide (i1 + k < i2) then R !! (i1 + k) else None in
  let hyp_token := if bool_decide (j1 + k < j2) then H !! (j1 + k) else None in
  match ref_token, hyp_token with
  | Some r, Some t => (hits, substitutions ++ [(r, t)], insertions, deletions)
  | Some r, None => (hits, substitutions, insertions, deletions ++ [r])
  | None, Some t => (hits, substitutions, insertions ++ [t], deletions)
  | None, None => st
  end.

(** "Walk position [k] from 0 to [max(i2−i1, j2−j1)−1]." *)
Definition spec_replace (st : alignment) : alignment :=
  foldl spec_replace_at st (seq 0 ((i2 - i1) `max` (j2 - j1))).
End spec_replace.

(** A hypothesis of 201 tokens in which ["a"] is popular. *)
Definition popular_hypothesis : list token := "y" :: replicate 200 "a".

(** No token of [b] is popular, so that the matcher drops none: [b] has
    fewer than 200 tokens, or none of its tokens occurs in it more than
    [len(b) // 100 + 1] times. *)
Definition no_popular (b : list token) : Prop :=
  length b < 200 ∨ Forall (λ x, ¬ popular (length b) (occ_from 0 x b)) b.

(** A hypothesis of 240 different tokens. *)
Definition distinct_hypothesis : list token :=
  (λ n, String (ascii_of_nat n) "") <$> seq 0 240.

(** ** Further auxiliary definitions *)

(** The reference tokens and the hypothesis tokens an alignment accounts
    for. *)
Definition ref_tokens (st : alignment) : list token :=
  (al_hits st).*1 ++ (al_substitutions st).*1 ++ al_deletions st.

Definition hyp_tokens (st : alignment) : list token :=
  (al_hits st).*2 ++ (al_substitutions st).*2 ++ al_insertions st.

Section identical.
Context (a : list token).

(** The token at [i] still has an entry in [b2j] (it is not popular). *)
Definition present (i : nat) : Prop :=
  ∃ x js, a !! i = Some x ∧ chain_b a !! x = Some js.

(** The [k] positions that end at [i] exist and are all present. *)
Definition run (i k : nat) : Prop := ∀ d, d < k → d ≤ i ∧ present (i - d).
End identical.


(** ** Text *)

(** [" ".join(words)], on lists of characters. *)
Fixpoint unwords (ws : list (list ascii)) : list ascii :=
  match ws with
  | [] => []
  | w :: ws' =>
      match ws' with
      | [] => w
      | _ => w ++ " "%char :: unwords ws'
      end
  end.

(** [text.rstrip()], the second half of [strip]. *)
Definition rstrip (text : list ascii) : list ascii :=
  reverse (Text.lstrip (reverse text)).

(** The characters of [clean_text text]. *)
Definition clean_chars (text : list ascii) : list ascii :=
  Text.lower (Text.strip (Text.sub_spaces false (Text.sub_non_word text))).

(** The words of a cleaned text: not empty, without whitespace, made of
    word characters that lowercasing leaves alone. *)
Definition clean_word (w : list ascii) : Prop :=
  w ≠ [] ∧ Forall (λ c, Text.is_space c = false ∧ Text.is_word c = true
                        ∧ Text.lower_char c = c) w.

(** ** [preprocess_audio] *)

Section preprocess.
(** [librosa.load(path, sr=16000)]: [None] when it raises, or the samples. *)
Context (load16 : string → option (list Q)).

(** [max] of an empty array raises; [audio / max(abs(audio))] divides every
    sample. *)
Definition preprocess_audio (audio_file_path : string)
    : option (list Q * Z) :=
  audio ← load16 audio_file_path;
  match audio with
  | [] => None
  | _ =>
      if Qlt_le_dec 0 (peak audio)
      then Some ((λ x, x / peak audio)%Q <$> audio, 16000%Z)
      else Some (audio, 16000%Z)
  end.
End preprocess.

(** ** The routes *)

(** The rows of the two tables, with the columns the routes below read. *)
Record Student := mkStudent {
  student_id : nat;
  student_name : string;
}.

Record Assessment := mkAssessment {
  assessment_student_id : nat;
  assessment_wcpm : option Q;
}.

Section create_student.
(** The [id] the database gives to a new row of a table with these rows. *)
Context (next_id : list Student → nat).

(** [create_student]: the table after the request and the student
    returned. [first()] is the first row with the name. *)
Definition create_student (name : string) (students : list Student)
    : list Student * Student :=
  match list_find (λ s, student_name s = name) students with
  | Some (_, existing_student) => (students, existing_student)
  | None =>
      let db_student := mkStudent (next_id students) name in
      (students ++ [db_student], db_student)
  end.
End create_student.

(** An entry of the leaderboard. *)
Record LeaderboardEntry := mkEntry {
  rank : nat;
  entry_student_name : string;
  average_wcpm : Q;
  total_assessments : nat;
  trend : string;
}.

(** [a.wcpm for a in assessments if a.wcpm]: neither [None] nor 0. *)
Definition truthy_wcpms (assessments : list Assessment) : list Q :=
  omap (λ a, match assessment_wcpm a with
             | Some w => if Qeq_bool w 0 then None else Some w
             | None => None
             end) assessments.

(** [sum(...)]. *)
Definition total_wcpm (assessments : list Assessment) : Q :=
  foldl Qplus 0%Q (truthy_wcpms assessments).

(** The assessments of a student. *)
Definition assessments_of (table : list Assessment) (s : Student)
    : list Assessment :=
  filter (λ a, assessment_student_id a = student_id s) table.

(** The first loop of [get_leaderboard]. *)
Fixpoint leaderboard_loop (table : list Assessment) (students : list Student)
    (leaderboard_entries : list LeaderboardEntry)
    : option (list LeaderboardEntry) :=
  match students with
  | [] => Some leaderboard_entries
  | student :: students' =>
      let assessments := assessments_of table student in
      match assessments with
      | [] => leaderboard_loop table students' leaderboard_entries
      | _ =>
          average ← py_div (total_wcpm assessments)
                           (Q_of_nat (length assessments));
          leaderboard_loop table students'
            (leaderboard_entries
             ++ [mkEntry 0 (student_name student) average
                   (length assessments) "stable"])
      end
  end.

(** [list.sort(key=lambda x: x["average_wcpm"], reverse=True)]: the sort is
    stable, so an entry goes before the later entries that are not above
    it. *)
Fixpoint insert_entry (e : LeaderboardEntry) (sorted : list LeaderboardEntry)
    : list LeaderboardEntry :=
  match sorted with
  | [] => [e]
  | e' :: sorted' =>
      if Qlt_le_dec (average_wcpm e) (average_wcpm e')
      then e' :: insert_entry e sorted'
      else e :: sorted
  end.

Definition sort_entries (entries : list LeaderboardEntry)
    : list LeaderboardEntry :=
  foldr insert_entry [] entries.

Definition set_rank (i : nat) (e : LeaderboardEntry) : LeaderboardEntry :=
  mkEntry (i + 1) (entry_student_name e) (average_wcpm e)
    (total_assessments e) (trend e).

(** [get_leaderboard]: the entries and [total_students]. *)
Definition get_leaderboard (students : list Student)
    (table : list Assessment) : option (list LeaderboardEntry * nat) :=
  leaderboard_entries ← leaderboard_loop table students [];
  let ranked := imap set_rank (sort_entries leaderboard_entries) in
  Some (ranked, length ranked).

(** The entry of a student before the ranking, if the student has one. *)
Definition entry_of (table : list Assessment) (s : Student)
    : option LeaderboardEntry :=
  match assessments_of table s with
  | [] => None
  | assessments =>
      Some (mkEntry 0 (student_name s)
              (total_wcpm assessments / Q_of_nat (length assessments))
              (length assessments) "stable")
  end.

(** Every later entry has an average that is not above. *)
Definition descending : list LeaderboardEntry → Prop :=
  StronglySorted (λ e1 e2, (average_wcpm e2 <= average_wcpm e1)%Q).

(** ** The WCPM lines in binary64 *)

Module Binary64.

Abbreviation float := spec_float.

Definition prec : Z := 53.
Definition emax : Z := 1024.

(** A Python [float]: a binary64 number, an infinity or NaN. *)
Definition is_float (x : float) : Prop := valid_binary prec emax x = true.

Definition zero : float := S754_zero false.

(** [math.isfinite]. *)
Definition is_finite (x : float) : bool :=
  match x with
  | S754_zero _ | S754_finite _ _ _ => true
  | _ => false
  end.

(** Neither NaN nor negative, and not the negative zero. *)
Definition not_negative (x : float) : Prop :=
  match x with
  | S754_zero s | S754_infinity s | S754_finite s _ _ => s = false
  | S754_nan => False
  end.

(** [float(n)] for an [int] that meets a [float] in an operation:
    [OverflowError] when it is out of range. *)
Definition of_int (n : Z) : option float :=
  match binary_normalize prec emax n 0 false with
  | S754_infinity _ => None
  | x => Some x
  end.

(** The quotient of IEEE 754, rounded to nearest, ties to even. *)
Definition quotient (x y : float) : float := SFdiv prec emax x y.

(** [x / y]: [ZeroDivisionError] when [y] is a zero. *)
Definition div (x y : float) : option float :=
  if SFeqb y zero then None else Some (quotient x y).

(** [x > 0]. *)
Definition gt_zero (x : float) : bool := SFltb zero x.

(** 60.0 and 2 ** -950. *)
Definition sixty : float := S754_finite false 8444249301319680 (-47).
Definition tiny : float := S754_finite false 4503599627370496 (-1002).

(** Lines 126-129 of [assess_reading]:
    [wcpm = 0.0], then under [if duration_seconds:] the division by 60 and
    [n_hits / duration_minutes if duration_minutes > 0 else 0.0]. *)
Definition compute_wcpm (n_hits : nat) (duration_seconds : option float)
    : option float :=
  match duration_seconds with
  | None => Some zero
  | Some d =>
      if SFeqb d zero then Some zero
      else
        sixty ← of_int 60;
        duration_minutes ← div d sixty;
        if gt_zero duration_minutes
        then hits ← of_int (Z.of_nat n_hits); div hits duration_minutes
        else Some zero
  end.

(** The number of binary digits of the mantissa plus the exponent: the
    value is in [[2^(mag-1), 2^mag)]. *)
Definition mag (m : positive) (e : Z) : Z := Zdigits2 (Zpos m) + e.

End Binary64.

(** * Properties of the matcher *)

(** ** [__chain_b] *)

Lemma chain_from_lookup i b (m : gmap token (list nat)) x :
  chain_from i b m !! x =
    match m !! x, occ_from i x b with
    | None, [] => None
    | o, l => Some (default [] o ++ l)
    end.
Proof.
  revert i m. induction b as [|e b IH]; intros i m; simpl.
  - destruct (m !! x); simpl; by rewrite ?app_nil_r.
  - rewrite IH. destruct (decide (e = x)) as [->|Hne].
    + rewrite lookup_insert_eq. simpl.
      destruct (m !! x); simpl; by rewrite <- ?app_assoc.
    + rewrite lookup_insert_ne by done. done.
Qed.

Lemma elem_of_occ_from i x b j :
  j ∈ occ_from i x b ↔ ∃ d, j = i + d ∧ b !! d = Some x.
Proof.
  revert i. induction b as [|e b IH]; intros i; simpl.
  - split; [by intros ?%elem_of_nil | by intros (? & _ & ?)].
  - rewrite elem_of_app, IH. split.
    + intros [Hj | (d & -> & Hd)].
      * destruct (decide (e = x)) as [->|]; [|by apply elem_of_nil in Hj].
        apply list_elem_of_singleton in Hj as ->. exists 0. split; [lia | done].
      * exists (S d). split; [lia | done].
    + intros ([|d] & -> & Hd); simpl in Hd.
      * left. injection Hd as ->. rewrite decide_True by done.
        apply list_elem_of_singleton. lia.
      * right. exists d. split; [lia | done].
Qed.

Lemma occ_from_sorted i x b : StronglySorted lt (occ_from i x b).
Proof.
  revert i. induction b as [|e b IH]; intros i; simpl; [constructor|].
  assert (Forall (lt i) (occ_from (S i) x b)) as Hlt.
  { apply Forall_forall. intros j (d & -> & _)%elem_of_occ_from. lia. }
  destruct (decide (e = x)); simpl; [by constructor | apply IH].
Qed.

Lemma chain_b_sound b x js : chain_b b !! x = Some js → js = occ_from 0 x b.
Proof.
  unfold chain_b. intros Hlook.
  assert (chain_from 0 b ∅ !! x = Some js) as Hfull.
  { case_bool_decide; [|done].
    by apply map_lookup_filter_Some in Hlook as [? _]. }
  rewrite chain_from_lookup, lookup_empty in Hfull.
  destruct (occ_from 0 x b); simplify_eq/=; done.
Qed.

Lemma chain_b_complete b x j :
  no_popular b → b !! j = Some x → ∃ js, chain_b b !! x = Some js ∧ j ∈ js.
Proof.
  intros Hnone Hj.
  assert (j ∈ occ_from 0 x b) as Hin by (apply elem_of_occ_from; eauto).
  assert (chain_from 0 b ∅ !! x = Some (occ_from 0 x b)) as Hfull.
  { rewrite chain_from_lookup, lookup_empty.
    destruct (occ_from 0 x b); [by apply elem_of_nil in Hin | done]. }
  exists (occ_from 0 x b). split; [|done].
  unfold chain_b. case_bool_decide as Hlen; [|done].
  apply map_lookup_filter_Some. split; [done|]. simpl.
  destruct Hnone as [?|Hnone]; [lia|].
  rewrite Forall_forall in Hnone. apply Hnone.
  by eapply list_elem_of_lookup_2.
Qed.

Lemma chain_b_lookup_elem b x js j :
  chain_b b !! x = Some js → j ∈ js ↔ b !! j = Some x.
Proof.
  intros ->%chain_b_sound. rewrite elem_of_occ_from. split.
  - by intros (d & -> & ?).
  - intros ?. by exists j.
Qed.

Lemma isbjunk_false elt : isbjunk elt = false.
Proof. unfold isbjunk, bjunk. apply bool_decide_eq_false. set_solver. Qed.

Lemma chain_b_is_sound b : b2j_sound b (chain_b b).
Proof. intros x js j Hx Hj. by apply (chain_b_lookup_elem b x js j). Qed.

Lemma chain_b_sorted b x js : chain_b b !! x = Some js → StronglySorted lt js.
Proof. intros ->%chain_b_sound. apply occ_from_sorted. Qed.

(** ** [find_longest_match] returns a common block of its ranges *)

Section flm_valid.
Context (a b : list token) (b2j : gmap token (list nat)).
Context (alo ahi blo bhi : nat).
Hypothesis Hsound : b2j_sound b b2j.

Local Abbreviation matches := (matches a b).
Local Abbreviation block_ok := (block_ok a b alo ahi blo bhi).
Local Abbreviation ends_ok := (ends_ok a b alo blo).

Lemma same_at_Some i j :
  same_at a b i j = true ↔ ∃ x, a !! i = Some x ∧ b !! j = Some x.
Proof.
  unfold same_at. destruct (a !! i) as [x|], (b !! j) as [y|];
    try (split; [done | by intros (? & ? & ?)]).
  rewrite bool_decide_eq_true. split.
  - intros ->. eauto.
  - intros (? & ? & ?). congruence.
Qed.

Lemma matches_snoc i j k :
  matches i j k → same_at a b (i + k) (j + k) = true → matches i j (S k).
Proof.
  intros Hm Hs d Hd. destruct (decide (d = k)) as [->|]; [done|].
  apply Hm. lia.
Qed.

Lemma matches_cons i j k :
  same_at a b i j = true → matches (S i) (S j) k → matches i j (S k).
Proof.
  intros Hs Hm [|d] Hd.
  - by rewrite !Nat.add_0_r.
  - replace (i + S d) with (S i + d) by lia.
    replace (j + S d) with (S j + d) by lia. apply Hm. lia.
Qed.

Lemma matches_app i j k1 k2 :
  matches i j k1 → matches (i + k1) (j + k1) k2 → matches i j (k1 + k2).
Proof.
  intros H1 H2 d Hd. destruct (decide (d < k1)); [by apply H1|].
  replace d with (k1 + (d - k1)) by lia. rewrite !Nat.add_assoc.
  apply H2. lia.
Qed.

Lemma matches_le i j k k' : matches i j k → k' ≤ k → matches i j k'.
Proof. intros Hm Hle d Hd. apply Hm. lia. Qed.

Lemma ends_ok_block i j k :
  ends_ok i j k → i < ahi → j < bhi → block_ok (i + 1 - k, j + 1 - k, k).
Proof. unfold ends_ok, block_ok. intros (?&?&?&?) ??. repeat split; try lia; done. Qed.

(** The length recorded for [(i, j)] from the row above. *)
Lemma ends_ok_step i j (j2len : gmap nat nat) :
  (∀ j' k, j2len !! j' = Some k → ∃ i', i = S i' ∧ ends_ok i' j' k) →
  alo ≤ i → blo ≤ j → same_at a b i j = true →
  ends_ok i j (j2lenget_pred j2len j + 1).
Proof.
  intros Hprev Hi Hj Hs. unfold j2lenget_pred.
  assert (ends_ok i j 1) as H1.
  { repeat split; try lia. intros d Hd.
    replace (i + 1 - 1 + d) with i by lia. by replace (j + 1 - 1 + d) with j by lia. }
  destruct j as [|j']; [done|].
  destruct (j2len !! j') as [k0|] eqn:Hk0; simpl; [|done].
  destruct (Hprev _ _ Hk0) as (i' & -> & Hk1 & Ha & Hb & Hm).
  repeat split; try lia.
  replace (S i' + 1 - (k0 + 1)) with (i' + 1 - k0) by lia.
  replace (S j' + 1 - (k0 + 1)) with (j' + 1 - k0) by lia.
  replace (k0 + 1) with (S k0) by lia. apply matches_snoc; [done|].
  replace (i' + 1 - k0 + k0) with (S i') by lia.
  by replace (j' + 1 - k0 + k0) with (S j') by lia.
Qed.

Lemma scan_row_valid i js (j2len newj2len : gmap nat nat) best :
  (∀ j k, j2len !! j = Some k → ∃ i', i = S i' ∧ ends_ok i' j k) →
  (∀ j, j ∈ js → same_at a b i j = true) →
  alo ≤ i → i < ahi →
  (∀ j k, newj2len !! j = Some k → ends_ok i j k) →
  block_ok best →
  (∀ j k, (scan_row blo bhi i js j2len newj2len best).1 !! j = Some k →
          ends_ok i j k)
  ∧ block_ok (scan_row blo bhi i js j2len newj2len best).2.
Proof.
  intros Hprev Hjs Hlo Hhi. revert newj2len best.
  induction js as [|j js IH]; intros newj2len best Hnew Hbest; simpl; [done|].
  assert (∀ j', j' ∈ js → same_at a b i j' = true) as Hjs'.
  { intros j' ?. apply Hjs. by right. }
  case_bool_decide; [by apply IH|].
  case_bool_decide; [done|].
  assert (ends_ok i j (j2lenget_pred j2len j + 1)) as Hends.
  { apply ends_ok_step; [done | lia | lia |]. apply Hjs. by left. }
  apply IH; [done| |].
  - intros j' k. destruct (decide (j = j')) as [<-|].
    + rewrite lookup_insert_eq. by intros [= <-].
    + rewrite lookup_insert_ne by done. apply Hnew.
  - case_bool_decide; [|done]. apply ends_ok_block; [done | lia | lia].
Qed.

Lemma scan_rows_valid n i (j2len : gmap nat nat) best :
  (∀ j k, j2len !! j = Some k → ∃ i', i = S i' ∧ ends_ok i' j k) →
  alo ≤ i → i + n ≤ ahi → block_ok best →
  block_ok (scan_rows a b2j blo bhi (seq i n) j2len best).
Proof.
  revert i j2len best. induction n as [|n IH]; intros i j2len best Hprev Hlo Hhi Hbest;
    simpl; [done|].
  set (js := match a !! i with Some x => default [] (b2j !! x) | None => [] end).
  assert (∀ j, j ∈ js → same_at a b i j = true) as Hjs.
  { intros j Hj. subst js. destruct (a !! i) as [x|] eqn:Hx; [|by apply elem_of_nil in Hj].
    destruct (b2j !! x) as [l|] eqn:Hl; [|by apply elem_of_nil in Hj].
    apply same_at_Some. exists x. split; [done|]. by eapply Hsound. }
  destruct (scan_row_valid i js j2len ∅ best) as [Hrow Hbest']; try done; try lia.
  destruct (scan_row blo bhi i js j2len ∅ best) as [newj2len best'].
  apply IH; [|lia|lia|done].
  intros j k Hjk. exists i. split; [done|]. by apply Hrow.
Qed.

Lemma longest_junk_free_valid :
  alo ≤ ahi → blo ≤ bhi → block_ok (longest_junk_free a b2j alo ahi blo bhi).
Proof.
  intros ??. apply scan_rows_valid; try lia.
  - intros j k. by rewrite lookup_empty.
  - repeat split; try lia. intros d ?. lia.
Qed.

Lemma extend_back_valid junk besti bestj bestsize :
  block_ok (besti, bestj, bestsize) →
  block_ok (extend_back a b alo blo junk besti bestj bestsize).
Proof.
  revert bestj bestsize. induction besti as [|i' IH]; intros bestj bestsize Hok;
    simpl; [done|].
  destruct bestj as [|j']; [done|].
  destruct (_ && _) eqn:Hguard; [|done].
  repeat (apply andb_prop in Hguard as [Hguard ?]).
  apply IH. destruct Hok as (?&?&?&?&?).
  repeat case_bool_decide; try done.
  repeat split; try lia. by apply matches_cons.
Qed.

Lemma extend_fwd_valid turns junk besti bestj bestsize :
  block_ok (besti, bestj, bestsize) →
  block_ok (besti, bestj, extend_fwd a b ahi bhi turns junk besti bestj bestsize).
Proof.
  revert bestsize. induction turns as [|t IH]; intros bestsize Hok; simpl; [done|].
  destruct (_ && _) eqn:Hguard; [|done].
  repeat (apply andb_prop in Hguard as [Hguard ?]).
  apply IH. destruct Hok as (?&?&?&?&?).
  repeat case_bool_decide; try done.
  repeat split; try lia. by apply matches_snoc.
Qed.

(** The bound on the turns of the forward loop is never what stops it:
    it stops on a false guard. *)
Lemma extend_fwd_exit turns junk besti bestj bestsize :
ahi ≤ besti + bestsize + turns →
let k := extend_fwd a b ahi bhi turns junk besti bestj bestsize in
bool_decide (besti + k < ahi) && bool_decide (bestj + k < bhi)
&& bool_decide (isbjunk_at b (bestj + k) = junk)
&& same_at a b (besti + k) (bestj + k) = false.
Proof.
revert bestsize. induction turns as [|t IH]; intros bestsize Hturns; simpl.
- by rewrite bool_decide_eq_false_2 by lia.
- destruct (bool_decide (besti + bestsize < ahi)
            && bool_decide (bestj + bestsize < bhi)
            && bool_decide (isbjunk_at b (bestj + bestsize) = junk)
            && same_at a b (besti + bestsize) (bestj + bestsize)) eqn:Hguard;
    [|done].
  apply IH. lia.
Qed.

Lemma extend_valid junk best :
  block_ok best → block_ok (extend a b alo ahi blo bhi junk best).
Proof.
  destruct best as [[besti bestj] bestsize]. intros Hok. unfold extend.
  pose proof (extend_back_valid junk _ _ _ Hok) as Hback.
  destruct (extend_back _ _ _ _ _ _ _ _) as [[i j] k]. by apply extend_fwd_valid.
Qed.

Lemma find_longest_match_valid :
  alo ≤ ahi → blo ≤ bhi →
  block_ok (find_longest_match a b b2j alo ahi blo bhi).
Proof.
  intros ??. unfold find_longest_match.
  by do 2 apply extend_valid; apply longest_junk_free_valid.
Qed.
End flm_valid.

(** ** Without popular elements [find_longest_match] is leftmost-longest *)

Section flm_optimal.
Context (a b : list token) (b2j : gmap token (list nat)).
Context (alo ahi blo bhi : nat).
Hypothesis Hsound : b2j_sound b b2j.
Hypothesis Hcomplete :
  ∀ x j, b !! j = Some x → ∃ js, b2j !! x = Some js ∧ j ∈ js.
Hypothesis Hsorted : ∀ x js, b2j !! x = Some js → StronglySorted lt js.

Local Abbreviation matches := (matches a b).
Local Abbreviation block_ok := (block_ok a b alo ahi blo bhi).
Local Abbreviation ends_ok := (ends_ok a b alo blo).
Local Abbreviation best_over := (best_over a b alo ahi blo bhi).
Local Abbreviation row_covers := (row_covers a b alo blo bhi).

Lemma ends_ok_same i j k : ends_ok i j k → same_at a b i j = true.
Proof.
  intros (? & ? & ? & Hm). specialize (Hm (k - 1)).
  replace (i + 1 - k + (k - 1)) with i in Hm by lia.
  replace (j + 1 - k + (k - 1)) with j in Hm by lia. apply Hm. lia.
Qed.

Lemma ends_ok_pred i j k :
  ends_ok (S i) (S j) (S (S k)) → ends_ok i j (S k).
Proof.
  intros (? & ? & ? & Hm). split_and!; try lia.
  replace (i + 1 - S k) with (S i + 1 - S (S k)) by lia.
  replace (j + 1 - S k) with (S j + 1 - S (S k)) by lia.
  eapply matches_le; [done | lia].
Qed.

(** The length computed for [(i, j)] bounds every block ending there. *)
Lemma ends_ok_bound i j (j2len : gmap nat nat) k' :
  (∀ i' j' k', i = S i' → j' < bhi → ends_ok i' j' k' →
     ∃ k, j2len !! j' = Some k ∧ k' ≤ k) →
  j < bhi → ends_ok i j k' → k' ≤ j2lenget_pred j2len j + 1.
Proof.
  intros Hprev Hj Hends. unfold j2lenget_pred.
  destruct k' as [|[|k']]; [lia | lia |].
  destruct Hends as (? & ? & ? & Hm).
  destruct i as [|i]; [lia|]. destruct j as [|j]; [lia|].
  destruct (Hprev i j (S k')) as (k & -> & ?); [done | lia | | simpl; lia].
  apply ends_ok_pred. by split_and!.
Qed.

Lemma best_over_impl (seen seen' : nat → nat → Prop) best :
  (∀ i j, seen' i j → seen i j) → best_over seen best → best_over seen' best.
Proof.
  destruct best as [[bi bj] bk]. unfold best_over.
  intros Himpl Hbest i j k ?. apply Hbest. by apply Himpl.
Qed.

Lemma scan_row_optimal i js (j2len newj2len : gmap nat nat) best :
  alo ≤ i → i < ahi →
  StronglySorted lt js →
  (∀ j, j ∈ js → same_at a b i j = true) →
  (∀ j k, j2len !! j = Some k → ∃ i', i = S i' ∧ ends_ok i' j k) →
  (∀ i' j k', i = S i' → j < bhi → ends_ok i' j k' →
     ∃ k, j2len !! j = Some k ∧ k' ≤ k) →
  row_covers i js newj2len →
  best_over (λ i' j', i' < i ∨ (i' = i ∧ j' ∉ js)) best →
  best_ends_before i js best →
  row_covers i [] (scan_row blo bhi i js j2len newj2len best).1
  ∧ best_over (λ i' _, i' ≤ i) (scan_row blo bhi i js j2len newj2len best).2
  ∧ best_ends_before i [] (scan_row blo bhi i js j2len newj2len best).2.
Proof.
  intros Hlo Hhi Hjs Hsame Hprev Hprevc. revert newj2len best.
  induction js as [|j js IH]; intros newj2len best Hcov Hbest Hend; simpl.
  { split_and!; [done | | done].
    eapply best_over_impl; [|done]. intros i' j' ?. simpl.
    destruct (decide (i' = i)) as [->|]; [right | left; lia].
    split; [done|]. apply not_elem_of_nil. }
  apply StronglySorted_inv in Hjs as [Hjs Hlt].
  assert (∀ j', j' ∈ js → j < j') as Hlt' by (by apply Forall_forall).
  assert (∀ j', j' ∈ js → same_at a b i j' = true) as Hsame'.
  { intros j' ?. apply Hsame. by right. }
  case_bool_decide as Hblo.
  { (* [continue]: no block ends in a column before [blo] *)
    apply IH; try done.
    - intros j' k' Hj' Hends. destruct (Hcov j' k' Hj' Hends) as [?|Hin]; [by left|].
      apply elem_of_cons in Hin as [->|?]; [|by right].
      destruct Hends as (? & ? & ? & _). lia.
    - destruct best as [[bi bj] bk]. intros i' j' k' Hseen ?? Hends.
      apply Hbest; try done. destruct Hseen as [?|[-> Hnin]]; [by left | right].
      split; [done|]. intros [->|?]%elem_of_cons; [|done].
      destruct Hends as (? & ? & ? & _). lia.
    - destruct best as [[bi bj] bk]. intros Hbk.
      destruct (Hend Hbk) as [?|[? Hall]]; [by left | right].
      split; [done|]. intros j' ?. apply Hall. by right. }
  case_bool_decide as Hbhi.
  { (* [break]: the columns left are all beyond [bhi] *)
    assert (∀ j', j' < bhi → j' ∉ j :: js) as Hout.
    { intros j' ? [->|?%Hlt']%elem_of_cons; lia. }
    split_and!.
    - intros j' k' Hj' Hends. destruct (Hcov j' k' Hj' Hends) as [?|Hin]; [by left|].
      by apply Hout in Hin.
    - destruct best as [[bi bj] bk]. intros i' j' k' Hseen ?? Hends.
      apply Hbest; try done.
      destruct (decide (i' = i)) as [->|]; [right | left; simpl in Hseen; lia].
      split; [done|]. by apply Hout.
    - destruct best as [[bi bj] bk]. intros Hbk.
      destruct (Hend Hbk) as [?|[? Hall]]; [by left | right]. split; [done|].
      by intros j' ?%elem_of_nil. }
  (* the pair [(a[i], b[j])] *)
  set (k := j2lenget_pred j2len j + 1).
  assert (ends_ok i j k) as Hk.
  { apply (ends_ok_step a b alo blo); [done | lia | lia |]. apply Hsame. by left. }
  assert (∀ k', ends_ok i j k' → k' ≤ k) as Hmax.
  { intros k' ?. apply (ends_ok_bound i j j2len k'); [done | lia | done]. }
  apply IH; try done.
  - intros j' k' Hj' Hends. destruct (decide (j' = j)) as [->|Hne].
    + left. exists k. rewrite lookup_insert_eq. split; [done|]. by apply Hmax.
    + destruct (Hcov j' k' Hj' Hends) as [(k0 & ? & ?)|Hin].
      * left. exists k0. by rewrite lookup_insert_ne.
      * apply elem_of_cons in Hin as [->|?]; [done | by right].
  - destruct best as [[bi bj] bk]. simpl.
    assert (∀ i' j' k', (i' < i ∨ (i' = i ∧ j' ∉ j :: js)) → i' < ahi → j' < bhi →
              ends_ok i' j' k' →
              k' ≤ bk ∧ (k' = bk → starts_le bi bj (i' + 1 - k') (j' + 1 - k')))
      as Hold by apply Hbest.
    destruct Hk as (? & ? & ? & _).
    case_bool_decide as Hupd; intros i' j' k' Hseen ?? Hends.
    + destruct (decide (i' = i ∧ j' = j)) as [[-> ->]|Hne].
      * specialize (Hmax _ Hends). split; [done|]. intros ->. right. lia.
      * destruct (Hold i' j' k') as [??]; try done; [|lia].
        destruct Hseen as [?|[-> ?]]; [by left | right]. split; [done|].
        intros [->|?]%elem_of_cons; [lia | done].
    + destruct (decide (i' = i ∧ j' = j)) as [[-> ->]|Hne].
      * specialize (Hmax _ Hends). split; [lia|]. intros ->.
        destruct Hends as (? & ? & ? & _).
        destruct Hend as [?|[? Hall]]; [lia | left; lia |].
        specialize (Hall j). right. split; [lia|].
        assert (bj + bk ≤ j) by (apply Hall; by left). lia.
      * apply Hold; try done.
        destruct Hseen as [?|[-> ?]]; [by left | right]. split; [done|].
        intros [->|?]%elem_of_cons; [lia | done].
  - destruct best as [[bi bj] bk]. simpl. destruct Hk as (? & ? & ? & _).
    case_bool_decide as Hupd.
    + intros _. right. split; [lia|]. intros j' ?%Hlt'. lia.
    + intros Hbk. destruct (Hend Hbk) as [?|[? Hall]]; [by left | right].
      split; [done|]. intros j' ?. apply Hall. by right.
Qed.

Lemma scan_rows_optimal n i (j2len : gmap nat nat) best :
  alo ≤ i → i + n ≤ ahi →
  (∀ j k, j2len !! j = Some k → ∃ i', i = S i' ∧ ends_ok i' j k) →
  (∀ i' j k', i = S i' → j < bhi → ends_ok i' j k' →
     ∃ k, j2len !! j = Some k ∧ k' ≤ k) →
  block_ok best →
  best_over (λ i' _, i' < i) best →
  (let '(bi, _, bk) := best in 0 < bk → bi + bk ≤ i) →
  best_over (λ i' _, i' < i + n)
    (scan_rows a b2j blo bhi (seq i n) j2len best).
Proof.
  revert i j2len best.
  induction n as [|n IH]; intros i j2len best Hlo Hhi Hprev Hprevc Hok Hbest Hend;
    simpl.
  { eapply best_over_impl; [|done]. intros i' j' ?. simpl in *. lia. }
  set (js := match a !! i with Some x => default [] (b2j !! x) | None => [] end).
  assert (∀ j, j ∈ js → same_at a b i j = true) as Hjs.
  { intros j Hj. subst js. destruct (a !! i) as [x|] eqn:Hx; [|by apply elem_of_nil in Hj].
    destruct (b2j !! x) as [l|] eqn:Hl; [|by apply elem_of_nil in Hj].
    apply same_at_Some. exists x. split; [done|]. by eapply Hsound. }
  assert (StronglySorted lt js) as Hsort.
  { subst js. destruct (a !! i) as [x|]; [|constructor].
    destruct (b2j !! x) as [l|] eqn:Hl; [by eapply Hsorted | constructor]. }
  assert (∀ j k', ends_ok i j k' → j ∈ js) as Hin.
  { intros j k' (x & Hx & Hy)%ends_ok_same%same_at_Some.
    destruct (Hcomplete x j Hy) as (l & Hl & ?). subst js. by rewrite Hx, Hl. }
  destruct (scan_row_valid a b alo ahi blo bhi i js j2len ∅ best)
    as [Hrow Hok']; try done; try lia.
  destruct (scan_row_optimal i js j2len ∅ best) as (Hcov & Hbest' & Hend');
    try done; try lia.
  { intros j k' _ ?. right. by eapply Hin. }
  { destruct best as [[bi bj] bk]. intros i' j' k' Hseen ?? Hends.
    destruct Hseen as [?|[-> Hnin]]; [by apply Hbest|].
    destruct Hnin. by eapply Hin. }
  { destruct best as [[bi bj] bk]. intros Hbk. left. by apply Hend. }
  destruct (scan_row blo bhi i js j2len ∅ best) as [newj2len best'].
  simpl in *. replace (i + S n) with (S i + n) by lia.
  apply IH; try done; try lia.
  - intros j k Hjk. exists i. split; [done|]. by apply Hrow.
  - intros i' j k' [= <-] Hj Hends.
    destruct (Hcov j k' Hj Hends) as [?|?%elem_of_nil]; done.
  - eapply best_over_impl; [|done]. intros i' j' ?. simpl in *. lia.
  - destruct best' as [[bi bj] bk]. intros Hbk.
    destruct (Hend' Hbk) as [?|[? _]]; lia.
Qed.

Lemma longest_junk_free_optimal :
  alo ≤ ahi → blo ≤ bhi →
  leftmost_longest a b alo ahi blo bhi
    (longest_junk_free a b2j alo ahi blo bhi).
Proof.
  intros Ha Hb.
  pose proof (longest_junk_free_valid a b b2j alo ahi blo bhi Hsound Ha Hb) as Hok.
  assert (best_over (λ i' _, i' < alo + (ahi - alo))
            (longest_junk_free a b2j alo ahi blo bhi)) as Hbest.
  { apply scan_rows_optimal; try lia.
    - intros j k. by rewrite lookup_empty.
    - intros i' j k' -> _ (? & ? & _). lia.
    - split_and!; try lia. intros d ?. lia.
    - intros i' j' k' ? _ _ (? & ? & _). lia. }
  destruct (longest_junk_free a b2j alo ahi blo bhi) as [[bi bj] bk].
  split; [done|]. intros i' j' k' Hk' (? & ? & ? & ? & Hm).
  destruct (Hbest (i' + k' - 1) (j' + k' - 1) k') as [Hle Hfirst]; try lia.
  { split_and!; try lia.
    replace (i' + k' - 1 + 1 - k') with i' by lia.
    by replace (j' + k' - 1 + 1 - k') with j' by lia. }
  split; [done|]. intros Heq. specialize (Hfirst Heq).
  replace (i' + k' - 1 + 1 - k') with i' in Hfirst by lia.
  by replace (j' + k' - 1 + 1 - k') with j' in Hfirst by lia.
Qed.

Lemma extend_back_grow junk besti bestj bestsize :
  let '(i, j, k) := extend_back a b alo blo junk besti bestj bestsize in
  bestsize ≤ k ∧ (k = bestsize → i = besti ∧ j = bestj).
Proof.
  revert bestj bestsize. induction besti as [|i' IH]; intros bestj bestsize;
    simpl; [done|].
  destruct bestj as [|j']; [done|].
  destruct (_ && _); [|done].
  specialize (IH j' (S bestsize)).
  destruct (extend_back a b alo blo junk i' j' (S bestsize)) as [[i j] k]. lia.
Qed.

Lemma extend_fwd_grow turns junk besti bestj bestsize :
  bestsize ≤ extend_fwd a b ahi bhi turns junk besti bestj bestsize.
Proof.
  revert bestsize. induction turns as [|t IH]; intros bestsize; simpl; [done|].
  destruct (_ && _); [|done]. specialize (IH (S bestsize)). lia.
Qed.

(** A leftmost-longest block cannot be extended: both pairs of [while]
    loops leave it as it is. *)
Lemma extend_optimal junk best :
  leftmost_longest a b alo ahi blo bhi best →
  extend a b alo ahi blo bhi junk best = best.
Proof.
  destruct best as [[bi bj] bk]. intros [Hok Hbest].
  pose proof (extend_valid a b alo ahi blo bhi junk _ Hok) as Hok'.
  unfold extend in *.
  pose proof (extend_back_grow junk bi bj bk) as Hback.
  destruct (extend_back a b alo blo junk bi bj bk) as [[i j] k].
  pose proof (extend_fwd_grow (ahi - (i + k)) junk i j k) as Hfwd.
  set (k' := extend_fwd a b ahi bhi (ahi - (i + k)) junk i j k) in *.
  assert (k' ≤ bk) as Hle.
  { destruct (decide (k' = 0)) as [->|]; [lia|].
    by apply (Hbest i j k'); [lia|]. }
  assert (k = bk) as -> by lia. destruct Hback as [_ [-> ->]]; [done|].
  repeat f_equal. lia.
Qed.

Lemma find_longest_match_optimal :
  alo ≤ ahi → blo ≤ bhi →
  leftmost_longest a b alo ahi blo bhi
    (find_longest_match a b b2j alo ahi blo bhi).
Proof.
  intros Ha Hb. pose proof (longest_junk_free_optimal Ha Hb) as Hopt.
  unfold find_longest_match.
  by rewrite (extend_optimal false _ Hopt), (extend_optimal true _ Hopt).
Qed.
End flm_optimal.

(** Without a popular element [b2j] has every position of [b]. *)
Lemma flm_leftmost_longest a b alo ahi blo bhi :
  no_popular b → alo ≤ ahi → blo ≤ bhi →
  leftmost_longest a b alo ahi blo bhi
    (find_longest_match a b (chain_b b) alo ahi blo bhi).
Proof.
  intros Hlen. apply find_longest_match_optimal.
  - apply chain_b_is_sound.
  - intros x j. by apply chain_b_complete.
  - apply chain_b_sorted.
Qed.

Lemma flm_zero_disjoint a b alo ahi blo bhi i j :
  no_popular b → alo ≤ ahi → blo ≤ bhi →
  find_longest_match a b (chain_b b) alo ahi blo bhi = (i, j, 0) →
  disjoint a b alo ahi blo bhi.
Proof.
  intros Hlen Ha Hb Hflm p q Hp Hq.
  pose proof (flm_leftmost_longest a b alo ahi blo bhi Hlen Ha Hb) as Hopt.
  rewrite Hflm in Hopt. destruct Hopt as [_ Hbest].
  destruct (same_at a b p q) eqn:Hsame; [|done].
  destruct (Hbest p q 1) as [? _]; [lia | | lia].
  split_and!; try lia. intros d ?. replace d with 0 by lia.
  by rewrite !Nat.add_0_r.
Qed.

(** ** The work list of [get_matching_blocks] and its recursion tree *)

Global Instance match_le_trans : Transitive match_le.
Proof. intros [[??]?] [[??]?] [[??]?]. unfold match_le. lia. Qed.

Global Instance match_le_antisymm : AntiSymm (=) match_le.
Proof.
  intros [[i1 j1] k1] [[i2 j2] k2]. unfold match_le. intros ??.
  assert (i1 = i2 ∧ j1 = j2 ∧ k1 = k2) as (-> & -> & ->) by lia. done.
Qed.

Global Instance match_le_total : Total match_le.
Proof. intros [[??]?] [[??]?]. unfold match_le. lia. Qed.

Section tree_facts.
Context (a b : list token).

Local Abbreviation flm := (find_longest_match a b (chain_b b)).

Lemma flm_valid alo ahi blo bhi :
  alo ≤ ahi → blo ≤ bhi → block_ok a b alo ahi blo bhi (flm alo ahi blo bhi).
Proof. apply find_longest_match_valid, chain_b_is_sound. Qed.

Lemma match_loop_step t alo ahi blo bhi queue acc i j k :
  flm alo ahi blo bhi = (i, j, k) →
  match_loop a b (S t) ((alo, ahi, blo, bhi) :: queue) acc
  = if bool_decide (k ≠ 0) then
      match_loop a b t
        (let queue :=
           if bool_decide (alo < i) && bool_decide (blo < j)
           then (alo, i, blo, j) :: queue else queue in
         if bool_decide (i + k < ahi) && bool_decide (j + k < bhi)
         then (i + k, ahi, j + k, bhi) :: queue else queue)
        (acc ++ [(i, j, k)])
    else match_loop a b t queue acc.
Proof. intros Hflm. simpl. by rewrite Hflm. Qed.

(** One sub-problem on top of the stack is worked off in at most
    [2 * (ahi - alo) + 1] turns, and adds the blocks of its tree. *)
Lemma match_loop_tree depth alo ahi blo bhi :
  alo ≤ ahi → blo ≤ bhi → ahi - alo < depth →
  ∃ c l, c ≤ 2 * (ahi - alo) + 1
    ∧ l ≡ₚ tree_blocks a b depth alo ahi blo bhi
    ∧ ∀ t queue acc,
        match_loop a b (c + t) ((alo, ahi, blo, bhi) :: queue) acc
        = match_loop a b t queue (acc ++ l).
Proof.
  revert alo ahi blo bhi.
  induction depth as [|depth IH]; intros alo ahi blo bhi Ha Hb Hd; [lia|].
  pose proof (flm_valid alo ahi blo bhi Ha Hb) as Hok. simpl.
  destruct (flm alo ahi blo bhi) as [[i j] k] eqn:Hflm.
  destruct Hok as (Hi1 & Hi2 & Hj1 & Hj2 & _).
  case_bool_decide as Hk; cycle 1.
  { exists 1, []. split_and!; [lia | done |]. intros t queue acc.
    rewrite (match_loop_step _ _ _ _ _ _ _ _ _ _ Hflm).
    rewrite bool_decide_eq_false_2 by lia. by rewrite app_nil_r. }
  (* the pending sub-problem after the match, if any *)
  assert (∃ cR lR, cR ≤ 2 * (ahi - (i + k)) + 1
    ∧ lR ≡ₚ (if bool_decide (i + k < ahi) && bool_decide (j + k < bhi)
             then tree_blocks a b depth (i + k) ahi (j + k) bhi else [])
    ∧ ∀ t queue acc,
        match_loop a b (cR + t)
          (if bool_decide (i + k < ahi) && bool_decide (j + k < bhi)
           then (i + k, ahi, j + k, bhi) :: queue else queue) acc
        = match_loop a b t queue (acc ++ lR)) as (cR & lR & HcR & HlR & HR).
  { destruct (bool_decide (i + k < ahi) && bool_decide (j + k < bhi)).
    - apply IH; lia.
    - exists 0, []. split_and!; [lia | done |]. intros. by rewrite app_nil_r. }
  (* and the one before it *)
  assert (∃ cL lL, cL ≤ 2 * (i - alo) + 1
    ∧ lL ≡ₚ (if bool_decide (alo < i) && bool_decide (blo < j)
             then tree_blocks a b depth alo i blo j else [])
    ∧ ∀ t queue acc,
        match_loop a b (cL + t)
          (if bool_decide (alo < i) && bool_decide (blo < j)
           then (alo, i, blo, j) :: queue else queue) acc
        = match_loop a b t queue (acc ++ lL)) as (cL & lL & HcL & HlL & HL).
  { destruct (bool_decide (alo < i) && bool_decide (blo < j)).
    - apply IH; lia.
    - exists 0, []. split_and!; [lia | done |]. intros. by rewrite app_nil_r. }
  exists (S (cR + cL)), ((i, j, k) :: lR ++ lL). split_and!.
  - lia.
  - rewrite <- HlL, <- HlR, <- Permutation_middle.
    f_equiv. apply Permutation_app_comm.
  - intros t queue acc.
    replace (S (cR + cL) + t) with (S (cR + (cL + t))) by lia.
    rewrite (match_loop_step _ _ _ _ _ _ _ _ _ _ Hflm).
    rewrite bool_decide_eq_true_2 by done. cbv zeta.
    rewrite HR, HL. f_equal. by rewrite <- !app_assoc.
Qed.
End tree_facts.
(** ** The blocks are ordered, and sorting recovers the tree order *)

Section chain_facts.
Context (a b : list token).
Context (G : nat → nat → nat → nat → Prop).
Hypothesis G_empty_a : ∀ alo blo bhi, G alo alo blo bhi.
Hypothesis G_empty_b : ∀ alo ahi blo, G alo ahi blo blo.
Hypothesis G_leaf : ∀ alo ahi blo bhi i j,
  alo ≤ ahi → blo ≤ bhi →
  find_longest_match a b (chain_b b) alo ahi blo bhi = (i, j, 0) →
  G alo ahi blo bhi.

Local Abbreviation chain := (chain a b G).

Lemma chain_le i0 j0 l i1 j1 : chain i0 j0 l i1 j1 → i0 ≤ i1 ∧ j0 ≤ j1.
Proof.
  revert i0 j0. induction l as [|[[i j] k] l IH]; intros i0 j0; simpl.
  - lia.
  - intros (? & ? & _ & _ & _ & [??]%IH). lia.
Qed.

Lemma chain_snoc_block i0 j0 l1 i j k l2 i1 j1 :
  chain i0 j0 l1 i j → 0 < k → matches a b i j k →
  chain (i + k) (j + k) l2 i1 j1 →
  chain i0 j0 (l1 ++ (i, j, k) :: l2) i1 j1.
Proof.
  intros H1 Hk Hm H2. revert i0 j0 H1.
  induction l1 as [|[[i' j'] k'] l1 IH]; intros i0 j0; simpl.
  - intros (? & ? & ?). done.
  - intros (? & ? & ? & ? & ? & ?). split_and!; try done. by apply IH.
Qed.

Lemma chain_sorted i0 j0 l i1 j1 : chain i0 j0 l i1 j1 → Sorted match_le l.
Proof.
  revert i0 j0. induction l as [|[[i j] k] l IH]; intros i0 j0; simpl.
  - constructor.
  - intros (_ & _ & _ & Hk & _ & Hl). constructor; [by eapply IH|].
    destruct l as [|[[i' j'] k'] l]; constructor.
    simpl in Hl. unfold match_le. lia.
Qed.

Lemma chain_block_ok i0 j0 l i1 j1 :
  chain i0 j0 l i1 j1 → Forall (block_ok a b i0 i1 j0 j1) l.
Proof.
  revert i0 j0. induction l as [|[[i j] k] l IH]; intros i0 j0; simpl.
  - constructor.
  - intros (? & ? & _ & ? & ? & Hl). pose proof (chain_le _ _ _ _ _ Hl).
    constructor.
    + unfold block_ok. split_and!; try done; lia.
    + eapply Forall_impl; [by eapply IH|].
      intros [[i' j'] k']. unfold block_ok. intros (?&?&?&?&?).
      split_and!; try done; lia.
Qed.

Lemma chain_positive i0 j0 l i1 j1 :
  chain i0 j0 l i1 j1 → Forall (λ m : Match, 0 < m.2) l.
Proof.
  revert i0 j0. induction l as [|[[i j] k] l IH]; intros i0 j0; simpl.
  - constructor.
  - intros (_ & _ & _ & ? & _ & Hl). constructor; [done | by eapply IH].
Qed.

Lemma tree_chain depth alo ahi blo bhi :
  alo ≤ ahi → blo ≤ bhi → ahi - alo < depth →
  chain alo blo (tree_blocks a b depth alo ahi blo bhi) ahi bhi.
Proof.
  revert alo ahi blo bhi.
  induction depth as [|depth IH]; intros alo ahi blo bhi Ha Hb Hd; [lia|].
  pose proof (flm_valid a b alo ahi blo bhi Ha Hb) as Hok. simpl.
  destruct (find_longest_match a b (chain_b b) alo ahi blo bhi)
    as [[i j] k] eqn:Hflm.
  destruct Hok as (Hi1 & Hi2 & Hj1 & Hj2 & Hm).
  case_bool_decide as Hk; cycle 1.
  { simpl. split_and!; [done..|]. eapply G_leaf; [done..|].
    rewrite Hflm. repeat f_equal. lia. }
  apply chain_snoc_block; [|lia|done|].
  - destruct (bool_decide (alo < i) && bool_decide (blo < j)) eqn:Hp.
    + apply IH; lia.
    + simpl. split_and!; [done..|].
      apply andb_false_iff in Hp as [Hp|Hp]; apply bool_decide_eq_false in Hp.
      * replace i with alo by lia. apply G_empty_a.
      * replace j with blo by lia. apply G_empty_b.
  - destruct (bool_decide (i + k < ahi) && bool_decide (j + k < bhi)) eqn:Hp.
    + apply IH; lia.
    + simpl. split_and!; [done..|].
      apply andb_false_iff in Hp as [Hp|Hp]; apply bool_decide_eq_false in Hp.
      * replace ahi with (i + k) by lia. apply G_empty_a.
      * replace bhi with (j + k) by lia. apply G_empty_b.
Qed.

(** *** Collapsing adjacent blocks keeps the chain *)

Lemma collapse_chain rest i1 j1 k1 acc :
  matches a b i1 j1 k1 →
  chain (i1 + k1) (j1 + k1) rest (length a) (length b) →
  ∃ l, collapse a b rest i1 j1 k1 acc = acc ++ l ++ [(length a, length b, 0)]
    ∧ if decide (k1 = 0) then chain i1 j1 l (length a) (length b)
      else ∃ k1' l', l = (i1, j1, k1') :: l' ∧ k1 ≤ k1'
             ∧ matches a b i1 j1 k1'
             ∧ chain (i1 + k1') (j1 + k1') l' (length a) (length b).
Proof.
  revert i1 j1 k1 acc.
  induction rest as [|[[i2 j2] k2] rest IH]; intros i1 j1 k1 acc Hm Hc; simpl.
  - case_bool_decide; case_decide; try done.
    + exists [(i1, j1, k1)]. split; [by rewrite <- app_assoc|]. eauto 10.
    + exists []. split; [done|]. subst k1. by rewrite !Nat.add_0_r in Hc.
  - simpl in Hc. destruct Hc as (Hi & Hj & HG & Hk2 & Hm2 & Hc).
    destruct (bool_decide (i1 + k1 = i2) && bool_decide (j1 + k1 = j2)) eqn:Hadj.
    + apply andb_prop in Hadj as [<-%bool_decide_eq_true <-%bool_decide_eq_true].
      destruct (IH i1 j1 (k1 + k2) acc) as (l & -> & Hl).
      { by apply matches_app. }
      { by rewrite !Nat.add_assoc. }
      exists l. split; [done|].
      rewrite decide_False in Hl by lia.
      destruct Hl as (k1' & l' & -> & Hle & Hm' & Hc').
      case_decide as Hk1.
      * subst k1. simpl. split_and!; try done; try lia; apply G_empty_a.
      * exists k1', l'. split_and!; try done. lia.
    + destruct (decide (k1 = 0)) as [->|Hk1].
      * rewrite bool_decide_eq_false_2 by lia.
        destruct (IH i2 j2 k2 acc) as (l & -> & Hl); [done..|].
        rewrite decide_False in Hl by lia.
        destruct Hl as (k2' & l' & -> & Hle & Hm' & Hc').
        exists ((i2, j2, k2') :: l'). split; [done|].
        rewrite !Nat.add_0_r in *. simpl. split_and!; try done; lia.
      * rewrite bool_decide_eq_true_2 by done.
        destruct (IH i2 j2 k2 (acc ++ [(i1, j1, k1)])) as (l & -> & Hl);
          [done..|].
        rewrite decide_False in Hl by lia.
        destruct Hl as (k2' & l' & -> & Hle & Hm' & Hc').
        exists ((i1, j1, k1) :: (i2, j2, k2') :: l').
        split; [by rewrite <- !app_assoc|].
        exists k1, ((i2, j2, k2') :: l'). split_and!; try done.
        simpl. split_and!; try done; lia.
Qed.

(** *** The opcodes tile both sequences *)

Lemma opcodes_loop_acc blocks i j acc :
  opcodes_loop blocks i j acc = acc ++ opcodes_loop blocks i j [].
Proof.
  revert i j acc. induction blocks as [|[[ai bj] size] rest IH]; intros i j acc; simpl.
  - by rewrite app_nil_r.
  - rewrite IH. symmetry. rewrite IH. rewrite app_assoc. f_equal.
    destruct (gap_tag i ai j bj); case_bool_decide; simpl;
      by rewrite ?app_nil_r, <- ?app_assoc.
Qed.

Lemma opcodes_loop_cons ai bj size rest i j :
  opcodes_loop ((ai, bj, size) :: rest) i j []
  = gap_ops i ai j bj
    ++ (if bool_decide (size ≠ 0)
        then [(OpEqual, ai, ai + size, bj, bj + size)] else [])
    ++ opcodes_loop rest (ai + size) (bj + size) [].
Proof.
  simpl. rewrite opcodes_loop_acc. unfold gap_ops.
  destruct (gap_tag i ai j bj); case_bool_decide; simpl;
    by rewrite ?app_nil_r.
Qed.

Lemma gap_ops_cover i ai j bj ops i' j' :
  i ≤ ai → j ≤ bj → G i ai j bj →
  ops_cover a b G ai bj ops i' j' →
  ops_cover a b G i j (gap_ops i ai j bj ++ ops) i' j'.
Proof.
  intros Hi Hj HG Hops. unfold gap_ops, gap_tag.
  repeat case_bool_decide; simpl; split_and?; try done; try lia.
  by replace i with ai by lia; replace j with bj by lia.
Qed.

Lemma opcodes_loop_cover l i j :
  chain i j l (length a) (length b) →
  ops_cover a b G i j (opcodes_loop (l ++ [(length a, length b, 0)]) i j [])
    (length a) (length b).
Proof.
  revert i j. induction l as [|[[ai bj] k] l IH]; intros i j.
  - simpl app. rewrite opcodes_loop_cons. simpl. intros (? & ? & ?).
    rewrite app_nil_r.
    rewrite <- (app_nil_r (gap_ops _ _ _ _)). by apply gap_ops_cover.
  - simpl app. rewrite opcodes_loop_cons. intros (? & ? & ? & ? & ? & Hc).
    apply gap_ops_cover; [done..|].
    rewrite bool_decide_eq_true_2 by lia. simpl.
    replace (ai + k - ai) with k by lia.
    split_and!; try done; try lia. by apply IH.
Qed.

Lemma ops_cover_le i j ops i' j' :
  ops_cover a b G i j ops i' j' → i ≤ i' ∧ j ≤ j'.
Proof.
  revert i j. induction ops as [|[[[[t i1] i2] j1] j2] ops IH]; intros i j; simpl.
  - lia.
  - intros (-> & -> & (? & ? & _) & [??]%IH). lia.
Qed.

(** *** [get_matching_blocks] and [get_opcodes] return *)

Lemma match_loop_nil t acc : match_loop a b t [] acc = Some acc.
Proof. by destruct t. Qed.

Lemma get_matching_blocks_tree :
  get_matching_blocks a b
  = Some (collapse a b
            (tree_blocks a b (S (length a)) 0 (length a) 0 (length b))
            0 0 0 []).
Proof.
  unfold get_matching_blocks.
  destruct (match_loop_tree a b (S (length a)) 0 (length a) 0 (length b))
    as (c & l & Hc & Hl & Hloop); [lia..|].
  replace (2 * length a + 1) with (c + (2 * length a + 1 - c)) by lia.
  rewrite Hloop, match_loop_nil. cbv [mbind option_bind]. do 2 f_equal.
  rewrite app_nil_l. apply (Sorted_unique match_le).
  - apply Sorted_merge_sort, _.
  - eapply chain_sorted, tree_chain; lia.
  - by rewrite merge_sort_Permutation.
Qed.

Lemma get_matching_blocks_chain :
  ∃ l, get_matching_blocks a b = Some (l ++ [(length a, length b, 0)])
    ∧ chain 0 0 l (length a) (length b).
Proof.
  rewrite get_matching_blocks_tree.
  destruct (collapse_chain
              (tree_blocks a b (S (length a)) 0 (length a) 0 (length b))
              0 0 0 []) as (l & -> & Hl).
  - intros d ?. lia.
  - apply tree_chain; lia.
  - exists l. by split.
Qed.

Lemma get_opcodes_cover :
  ∃ ops, get_opcodes a b = Some ops
    ∧ ops_cover a b G 0 0 ops (length a) (length b).
Proof.
  unfold get_opcodes.
  destruct get_matching_blocks_chain as (l & -> & Hl).
  cbv [mbind option_bind].
  eexists. split; [done|]. by apply opcodes_loop_cover.
Qed.
End chain_facts.

(** * Properties of [align_sequences] *)

Ltac unfold_al :=
  unfold al_app, al_empty, al_hits, al_substitutions, al_insertions,
    al_deletions in *; simpl in *.

Lemma al_app_empty_r st : al_app st al_empty = st.
Proof. destruct st as [[[??]?]?]. unfold_al. by rewrite !app_nil_r. Qed.

Lemma al_app_empty_l st : al_app al_empty st = st.
Proof. by destruct st as [[[??]?]?]. Qed.

Lemma al_app_assoc x y z : al_app (al_app x y) z = al_app x (al_app y z).
Proof.
  destruct x as [[[??]?]?], y as [[[??]?]?], z as [[[??]?]?].
  unfold_al. by rewrite <- !app_assoc.
Qed.

Lemma replace_step_app st d r t :
  replace_step (al_app st d) r t = al_app st (replace_step d r t).
Proof.
  destruct st as [[[??]?]?], d as [[[??]?]?]. unfold replace_step. unfold_al.
  destruct (truthy r), (truthy t), r, t; simpl; by rewrite <- ?app_assoc.
Qed.

Section classify_facts.
Context (a b : list token).

Lemma replace_fold_app (rs ts : list token) st d ks :
  foldl (λ st k, replace_step st (rs !! k) (ts !! k)) (al_app st d) ks
  = al_app st (foldl (λ st k, replace_step st (rs !! k) (ts !! k)) d ks).
Proof.
  revert d. induction ks as [|k ks IH]; intros d; cbn [foldl]; [done|].
  by rewrite replace_step_app, IH.
Qed.

Lemma classify_replace_app st i1 i2 j1 j2 :
  classify_replace a b st i1 i2 j1 j2
  = al_app st (classify_replace a b al_empty i1 i2 j1 j2).
Proof.
  unfold classify_replace. rewrite <- replace_fold_app.
  by rewrite al_app_empty_r.
Qed.

Lemma mapM_lookup_seq (l : list token) i n :
  i + n ≤ length l →
  mapM (λ i, l !! i) (seq i n) = Some (take n (drop i l)).
Proof.
  revert i. induction n as [|n IH]; intros i Hlen; simpl; [done|].
  destruct (lookup_lt_is_Some_2 l i) as [x Hx]; [lia|].
  rewrite Hx. simpl. rewrite IH by lia. simpl.
  by rewrite (drop_S _ _ _ Hx).
Qed.

Lemma mapM_lookup_zip i n j m :
  i + n ≤ length a → j + m ≤ length b →
  mapM (λ ij : nat * nat, r ← a !! ij.1; t ← b !! ij.2; Some (r, t))
       (zip (seq i n) (seq j m))
  = Some (zip (take n (drop i a)) (take m (drop j b))).
Proof.
  revert i j m. induction n as [|n IH]; intros i j [|m] Ha Hb; simpl; try done.
  { by destruct (take (S n) (drop i a)). }
  destruct (lookup_lt_is_Some_2 a i) as [x Hx]; [lia|].
  destruct (lookup_lt_is_Some_2 b j) as [y Hy]; [lia|].
  rewrite Hx, Hy. simpl. rewrite IH by lia. simpl.
  by rewrite (drop_S _ _ _ Hx), (drop_S _ _ _ Hy).
Qed.

Lemma classify_op_delta st tag i1 i2 j1 j2 :
  i1 ≤ i2 → i2 ≤ length a → j1 ≤ j2 → j2 ≤ length b →
  classify_op a b st (tag, i1, i2, j1, j2)
  = Some (al_app st (op_delta a b (tag, i1, i2, j1, j2))).
Proof.
  intros ????. destruct st as [[[hits subs] ins] dels].
  unfold classify_op, op_delta, slice. destruct tag; unfold_al.
  - rewrite mapM_lookup_zip by lia. simpl. by rewrite !app_nil_r.
  - by rewrite classify_replace_app.
  - rewrite mapM_lookup_seq by lia. simpl. by rewrite !app_nil_r.
  - rewrite mapM_lookup_seq by lia. simpl. by rewrite !app_nil_r.
Qed.

Lemma classify_all_deltas G ops i j st :
  ops_cover a b G i j ops (length a) (length b) →
  classify_all a b ops st = Some (al_app st (deltas a b ops)).
Proof.
  revert i j st.
  induction ops as [|[[[[tag i1] i2] j1] j2] ops IH]; intros i j st;
    unfold deltas; cbn [classify_all ops_cover foldr].
  - intros _. by rewrite al_app_empty_r.
  - fold (deltas a b ops). intros (-> & -> & (? & ? & _) & Hops).
    pose proof (ops_cover_le _ _ _ _ _ _ _ _ Hops) as [??].
    rewrite classify_op_delta by done. cbv [mbind option_bind].
    rewrite (IH _ _ _ Hops). by rewrite al_app_assoc.
Qed.

(** [align_sequences] returns, whatever the input. *)
Lemma align_sequences_deltas G :
  (∀ alo blo bhi, G alo alo blo bhi) →
  (∀ alo ahi blo, G alo ahi blo blo) →
  (∀ alo ahi blo bhi i j, alo ≤ ahi → blo ≤ bhi →
     find_longest_match a b (chain_b b) alo ahi blo bhi = (i, j, 0) →
     G alo ahi blo bhi) →
  ∃ ops, ops_cover a b G 0 0 ops (length a) (length b)
    ∧ get_opcodes a b = Some ops
    ∧ align_sequences a b = Some (deltas a b ops).
Proof.
  intros G1 G2 G3.
  destruct (get_opcodes_cover a b G G1 G2 G3) as (ops & Hops & Hcover).
  exists ops. split_and!; [done..|].
  unfold align_sequences. rewrite Hops. cbv [mbind option_bind].
  rewrite (classify_all_deltas G ops 0 0) by done.
  by rewrite al_app_empty_l.
Qed.

Lemma align_sequences_total : is_Some (align_sequences a b).
Proof.
destruct (align_sequences_deltas (λ _ _ _ _, True)) as (ops & _ & _ & ->);
  done.
Qed.
End classify_facts.

(** ** The [replace] branch pairs by position *)

Lemma truthy_word (w : token) : w ≠ "" → truthy (Some w) = true.
Proof. intros ?. by apply bool_decide_eq_true. Qed.

Lemma replace_fold_closed n (rs ts : list token) st :
  all_words rs → all_words ts → n = length rs `max` length ts →
  foldl (λ st k, replace_step st (rs !! k) (ts !! k)) st (seq 0 n)
  = al_app st ([], zip rs ts, drop (length rs) ts, drop (length ts) rs).
Proof.
  revert rs ts st. induction n as [|n IH]; intros rs ts st Hrs Hts Hn.
  - destruct rs, ts; try (simpl in Hn; lia). simpl. by rewrite al_app_empty_r.
  - cbn [seq foldl]. rewrite <- fmap_S_seq, foldl_fmap.
    destruct rs as [|r rs], ts as [|t ts]; try (simpl in Hn; lia).
    + apply Forall_cons in Hts as [Ht Hts].
      etrans; [apply (IH [] ts); [done | done | simpl in *; lia]|].
      destruct st as [[[??]?]?]. unfold replace_step. simpl.
      rewrite bool_decide_eq_true_2 by done. unfold_al.
      by rewrite ?drop_0, ?drop_nil, <- ?app_assoc.
    + apply Forall_cons in Hrs as [Hr Hrs].
      etrans; [apply (IH rs []); [done | done | simpl in *; lia]|].
      destruct st as [[[??]?]?]. unfold replace_step. simpl.
      rewrite bool_decide_eq_true_2 by done. unfold_al.
      by rewrite ?drop_0, ?drop_nil, ?zip_with_nil_r, <- ?app_assoc.
    + apply Forall_cons in Hrs as [Hr Hrs]. apply Forall_cons in Hts as [Ht Hts].
      etrans; [apply (IH rs ts); [done | done | simpl in *; lia]|].
      destruct st as [[[??]?]?]. unfold replace_step. simpl.
      rewrite !bool_decide_eq_true_2 by done. unfold_al.
      by rewrite <- !app_assoc.
Qed.

Section counts.
Context (a b : list token).
Hypothesis Ha : all_words a.
Hypothesis Hb : all_words b.

Lemma slice_all_words (l : list token) i1 i2 :
  all_words l → all_words (slice l i1 i2).
Proof. intros ?. by apply Forall_take, Forall_drop. Qed.

Lemma length_slice (l : list token) i1 i2 :
  i1 ≤ i2 → i2 ≤ length l → length (slice l i1 i2) = i2 - i1.
Proof. intros ??. unfold slice. rewrite length_take, length_drop. lia. Qed.

Lemma classify_replace_closed st i1 i2 j1 j2 :
  classify_replace a b st i1 i2 j1 j2
  = al_app st
      ([], zip (slice a i1 i2) (slice b j1 j2),
       drop (length (slice a i1 i2)) (slice b j1 j2),
       drop (length (slice b j1 j2)) (slice a i1 i2)).
Proof.
  unfold classify_replace. by apply replace_fold_closed; try apply slice_all_words.
Qed.

Lemma op_delta_counts G tag i1 i2 j1 j2 :
  op_ok a b G (tag, i1, i2, j1, j2) → i2 ≤ length a → j2 ≤ length b →
  ref_count (op_delta a b (tag, i1, i2, j1, j2)) = i2 - i1
  ∧ hyp_count (op_delta a b (tag, i1, i2, j1, j2)) = j2 - j1.
Proof.
  intros (Hi & Hj & Htag) Hla Hlb. unfold op_delta.
  pose proof (length_slice a i1 i2 Hi Hla) as Hra.
  pose proof (length_slice b j1 j2 Hj Hlb) as Hrb.
  destruct tag; [|rewrite classify_replace_closed|..];
    unfold ref_count, hyp_count; unfold_al;
    rewrite ?length_zip, ?length_drop, ?Hra, ?Hrb; lia.
Qed.

Lemma al_app_counts x y :
  ref_count (al_app x y) = ref_count x + ref_count y
  ∧ hyp_count (al_app x y) = hyp_count x + hyp_count y.
Proof.
  destruct x as [[[??]?]?], y as [[[??]?]?]. unfold ref_count, hyp_count.
  unfold_al. rewrite !length_app. lia.
Qed.

Lemma deltas_counts G ops i j :
  ops_cover a b G i j ops (length a) (length b) →
  ref_count (deltas a b ops) = length a - i
  ∧ hyp_count (deltas a b ops) = length b - j.
Proof.
  revert i j. induction ops as [|[[[[tag i1] i2] j1] j2] ops IH]; intros i j;
    unfold deltas; cbn [ops_cover foldr].
  - intros [-> ->]. unfold ref_count, hyp_count. unfold_al. lia.
  - fold (deltas a b ops). intros (-> & -> & Hop & Hops).
    pose proof (ops_cover_le _ _ _ _ _ _ _ _ Hops) as [??].
    destruct (IH _ _ Hops) as [IH1 IH2].
    destruct (op_delta_counts G _ _ _ _ _ Hop) as [H1 H2]; [done..|].
    destruct (al_app_counts (op_delta a b (tag, i, i2, j, j2)) (deltas a b ops))
      as [-> ->].
    destruct Hop as (? & ? & _). lia.
Qed.
End counts.

(** ** What the lists of hits and of substitutions hold *)

Section pairs.
Context (a b : list token).

Lemma lookup_slice (l : list token) i1 i2 k x :
  slice l i1 i2 !! k = Some x → l !! (i1 + k) = Some x ∧ k < i2 - i1.
Proof.
  unfold slice. intros [Hx ?]%lookup_take_Some. by rewrite lookup_drop in Hx.
Qed.

Lemma replace_fold_pairs (P : token * token → Prop) (rs ts : list token) ks st :
  (∀ k r t, rs !! k = Some r → ts !! k = Some t → P (r, t)) →
  Forall P (al_substitutions st) →
  al_hits (foldl (λ st k, replace_step st (rs !! k) (ts !! k)) st ks)
  = al_hits st
  ∧ Forall P (al_substitutions
                (foldl (λ st k, replace_step st (rs !! k) (ts !! k)) st ks)).
Proof.
  intros HP. revert st. induction ks as [|k ks IH]; intros st Hst; cbn [foldl];
    [done|].
  assert (al_hits (replace_step st (rs !! k) (ts !! k)) = al_hits st
          ∧ Forall P (al_substitutions (replace_step st (rs !! k) (ts !! k))))
    as [Hh Hs].
  { destruct st as [[[hits subs] ins] dels]. unfold replace_step.
    destruct (rs !! k) as [r|] eqn:Hr, (ts !! k) as [t|] eqn:Ht; simpl;
      repeat case_bool_decide; unfold_al; try done.
    split; [done|]. apply Forall_app. split; [done|].
    apply Forall_singleton. by eapply HP. }
  destruct (IH _ Hs) as [-> ?]. by rewrite Hh.
Qed.

Lemma zip_slices_equal i1 i2 j1 j2 :
  i2 - i1 = j2 - j1 → matches a b i1 j1 (i2 - i1) →
  Forall (λ p, p.1 = p.2) (zip (slice a i1 i2) (slice b j1 j2)).
Proof.
  intros Hlen Hm. apply Forall_lookup. intros k [r t] Hk.
  apply lookup_zip_with_Some in Hk as (r' & t' & [= -> ->] & Hr & Ht).
  apply lookup_slice in Hr as [Hr Hlt]. apply lookup_slice in Ht as [Ht _].
  specialize (Hm k Hlt). apply same_at_Some in Hm as (x & Hx & Hy).
  simpl. congruence.
Qed.

Lemma op_delta_pairs G tag i1 i2 j1 j2 :
  op_ok a b G (tag, i1, i2, j1, j2) →
  Forall (λ p, p.1 = p.2) (al_hits (op_delta a b (tag, i1, i2, j1, j2)))
  ∧ ((∀ alo ahi blo bhi, G alo ahi blo bhi → disjoint a b alo ahi blo bhi) →
     Forall (λ p, p.1 ≠ p.2)
       (al_substitutions (op_delta a b (tag, i1, i2, j1, j2)))).
Proof.
  intros (Hi & Hj & Htag). unfold op_delta. destruct tag; try by unfold_al.
  - destruct Htag as (_ & ? & ?). split; [|by unfold_al].
    by apply zip_slices_equal.
  - destruct Htag as (_ & _ & HG). unfold classify_replace.
    split.
    + destruct (replace_fold_pairs (λ _, True) (slice a i1 i2) (slice b j1 j2)
                  (seq 0 (length (slice a i1 i2) `max` length (slice b j1 j2)))
                  al_empty) as [-> _]; by unfold_al.
    + intros Hdisj. apply replace_fold_pairs; [|by unfold_al].
      intros k r t [Hr ?]%lookup_slice [Ht ?]%lookup_slice. simpl. intros <-.
      assert (same_at a b (i1 + k) (j1 + k) = true) as Hsame.
      { apply same_at_Some. eauto. }
      rewrite (Hdisj _ _ _ _ HG (i1 + k) (j1 + k)) in Hsame by lia. done.
Qed.

Lemma deltas_pairs G ops i j i' j' :
  ops_cover a b G i j ops i' j' →
  Forall (λ p, p.1 = p.2) (al_hits (deltas a b ops))
  ∧ ((∀ alo ahi blo bhi, G alo ahi blo bhi → disjoint a b alo ahi blo bhi) →
     Forall (λ p, p.1 ≠ p.2) (al_substitutions (deltas a b ops))).
Proof.
  revert i j. induction ops as [|[[[[tag i1] i2] j1] j2] ops IH]; intros i j;
    unfold deltas; cbn [ops_cover foldr].
  - intros _. by unfold_al.
  - fold (deltas a b ops). intros (-> & -> & Hop & Hops).
    destruct (IH _ _ Hops) as [IH1 IH2].
    destruct (op_delta_pairs G _ _ _ _ _ Hop) as [H1 H2].
    split; [|intros HG; specialize (IH2 HG); specialize (H2 HG)];
      unfold al_app, al_hits, al_substitutions in *; cbn [fst snd];
      by apply Forall_app.
Qed.
End pairs.

(** ** The [replace] branch against the walk of the specification *)

Lemma foldl_ext_all {A B} (f g : A → B → A) (l : list B) (x : A) :
  (∀ x y, f x y = g x y) → foldl f x l = foldl g x l.
Proof.
  intros Hfg. revert x. induction l as [|y l IH]; intros x; simpl; [done|].
  by rewrite Hfg, IH.
Qed.

Lemma replace_step_words st (ref_word trans_word : option token) :
  (∀ w, ref_word = Some w → w ≠ "") → (∀ w, trans_word = Some w → w ≠ "") →
  replace_step st ref_word trans_word
  = let '(hits, substitutions, insertions, deletions) := st in
    match ref_word, trans_word with
    | Some r, Some t => (hits, substitutions ++ [(r, t)], insertions, deletions)
    | Some r, None => (hits, substitutions, insertions, deletions ++ [r])
    | None, Some t => (hits, substitutions, insertions ++ [t], deletions)
    | None, None => st
    end.
Proof.
  intros Hr Ht. destruct st as [[[hits subs] ins] dels]. unfold replace_step.
  destruct ref_word as [r|], trans_word as [t|]; simpl;
    rewrite ?bool_decide_eq_true_2 by eauto; done.
Qed.

Lemma lookup_slice_range (l : list token) i1 i2 k :
  slice l i1 i2 !! k = if bool_decide (i1 + k < i2) then l !! (i1 + k) else None.
Proof.
  unfold slice. rewrite lookup_take, lookup_drop.
  case_decide; case_bool_decide; (done || lia).
Qed.

Lemma classify_replace_spec (R H : list token) st i1 i2 j1 j2 :
  all_words R → all_words H →
  i1 ≤ i2 → i2 ≤ length R → j1 ≤ j2 → j2 ≤ length H →
  classify_replace R H st i1 i2 j1 j2 = spec_replace R H i1 i2 j1 j2 st.
Proof.
  intros HR HH ????. unfold classify_replace, spec_replace.
  rewrite !length_slice by done. apply foldl_ext_all. intros [[[hits subs] ins] dels] k.
  rewrite replace_step_words.
  - unfold spec_replace_at. by rewrite !lookup_slice_range.
  - intros w [Hw _]%lookup_slice. apply (Forall_lookup_1 _ _ _ _ HR Hw).
  - intros w [Hw _]%lookup_slice. apply (Forall_lookup_1 _ _ _ _ HH Hw).
Qed.

(** ** Without popular elements the opcodes are the specified partition *)

Section partition.
Context (a b : list token).
Hypothesis Hlen : no_popular b.

Lemma matches_slices i j k :
  i + k ≤ length a → j + k ≤ length b →
  matches a b i j k ↔ slice a i (i + k) = slice b j (j + k).
Proof.
  intros Hi Hj. unfold slice.
  replace (i + k - i) with k by lia. replace (j + k - j) with k by lia. split.
  - intros Hm. apply list_eq. intros d. rewrite !lookup_take, !lookup_drop.
    case_decide as Hd; [|done].
    specialize (Hm d Hd). apply same_at_Some in Hm as (x & -> & ->); done.
  - intros Heq d Hd. apply same_at_Some.
    destruct (lookup_lt_is_Some_2 a (i + d)) as [x Hx]; [lia|].
    exists x. split; [done|].
    assert (take k (drop i a) !! d = Some x) as Hd'.
    { by rewrite lookup_take, lookup_drop, decide_True. }
    rewrite Heq, lookup_take, lookup_drop, decide_True in Hd'; done.
Qed.

Lemma block_ok_common_run alo ahi blo bhi i j k :
  ahi ≤ length a → bhi ≤ length b →
  block_ok a b alo ahi blo bhi (i, j, k) ↔ common_run a b alo ahi blo bhi i j k.
Proof.
  intros ??. unfold block_ok, common_run. split.
  - intros (? & ? & ? & ? & ?). split_and!; try done.
    apply matches_slices; [lia | lia | done].
  - intros (? & ? & ? & ? & ?). split_and!; try done.
    apply matches_slices; [lia | lia | done].
Qed.

Lemma leftmost_longest_spec alo ahi blo bhi i j k :
  ahi ≤ length a → bhi ≤ length b → 0 < k →
  leftmost_longest a b alo ahi blo bhi (i, j, k) →
  spec_longest_run a b alo ahi blo bhi i j k.
Proof.
  intros ?? Hk [Hok Hbest]. split_and!; [done | by apply block_ok_common_run |].
  intros i' j' k' Hrun%block_ok_common_run; [|done..].
  destruct (decide (k' = 0)) as [->|]; [lia|].
  destruct (Hbest i' j' k') as [? Hfirst]; [lia | done |].
  split; [done|]. intros ?%Hfirst. unfold starts_le in *. lia.
Qed.

Lemma gap_ops_leftover alo ahi blo bhi :
  gap_ops alo ahi blo bhi = spec_leftover alo ahi blo bhi.
Proof.
  unfold gap_ops, gap_tag, spec_leftover. by repeat case_bool_decide.
Qed.

(** *** The blocks of the tree never touch *)

Lemma separated_app_cons l1 m l2 :
  separated l1 → separated l2 →
  Forall (λ x, ¬ adjacent x m) l1 → Forall (λ y, ¬ adjacent m y) l2 →
  separated (l1 ++ m :: l2).
Proof.
  intros H1 H2 Hl1 Hl2. induction l1 as [|x l1 IH]; simpl.
  - split; [|done]. destruct l2 as [|y l2]; [done|].
    by apply Forall_cons in Hl2 as [? _].
  - apply Forall_cons in Hl1 as [Hx Hl1]. destruct H1 as [Hxy H1].
    split; [|by apply IH]. by destruct l1.
Qed.

Lemma tree_separated depth alo ahi blo bhi :
  alo ≤ ahi → blo ≤ bhi → ahi - alo < depth →
  separated (tree_blocks a b depth alo ahi blo bhi).
Proof.
  revert alo ahi blo bhi.
  induction depth as [|depth IH]; intros alo ahi blo bhi Ha Hb Hd; [lia|].
  pose proof (flm_leftmost_longest a b alo ahi blo bhi Hlen Ha Hb) as Hopt.
  simpl.
  destruct (find_longest_match a b (chain_b b) alo ahi blo bhi)
    as [[i j] k] eqn:Hflm.
  destruct Hopt as [(Hi1 & Hi2 & Hj1 & Hj2 & Hm) Hbest].
  case_bool_decide as Hk; [|done].
  apply separated_app_cons.
  - destruct (_ && _); [apply IH; lia | done].
  - destruct (_ && _); [apply IH; lia | done].
  - destruct (bool_decide (alo < i) && bool_decide (blo < j)); [|done].
    assert (chain a b (λ _ _ _ _, True) alo blo
              (tree_blocks a b depth alo i blo j) i j) as Hchain
      by (apply tree_chain; try done; lia).
    pose proof (chain_block_ok _ _ _ _ _ _ _ _ Hchain) as Hok.
    apply Forall_forall. intros [[xi xj] xk] Hx [Hadj1 Hadj2].
    rewrite Forall_forall in Hok. destruct (Hok _ Hx) as (? & ? & ? & ? & Hxm).
    destruct (Hbest xi xj (xk + k)) as [? _]; [lia | | ].
    + split_and!; try lia. apply matches_app; [done|]. by rewrite Hadj1, Hadj2.
    + pose proof (chain_positive _ _ _ _ _ _ _ _ Hchain) as Hpos.
      rewrite Forall_forall in Hpos. specialize (Hpos _ Hx). simpl in Hpos. lia.
  - destruct (bool_decide (i + k < ahi) && bool_decide (j + k < bhi)); [|done].
    assert (chain a b (λ _ _ _ _, True) (i + k) (j + k)
              (tree_blocks a b depth (i + k) ahi (j + k) bhi) ahi bhi) as Hchain
      by (apply tree_chain; try done; lia).
    pose proof (chain_block_ok _ _ _ _ _ _ _ _ Hchain) as Hok.
    apply Forall_forall. intros [[yi yj] yk] Hy [<- <-].
    rewrite Forall_forall in Hok. destruct (Hok _ Hy) as (? & ? & ? & ? & Hym).
    destruct (Hbest i j (k + yk)) as [? _]; [lia | | ].
    + split_and!; try lia. by apply matches_app.
    + pose proof (chain_positive _ _ _ _ _ _ _ _ Hchain) as Hpos.
      rewrite Forall_forall in Hpos. specialize (Hpos _ Hy). simpl in Hpos. lia.
Qed.

(** *** Nothing is collapsed *)

Lemma collapse_separated l i1 j1 k1 acc :
  Forall (λ m : Match, 0 < m.2) l →
  separated (if decide (k1 = 0) then l else (i1, j1, k1) :: l) →
  collapse a b l i1 j1 k1 acc
  = acc ++ (if decide (k1 = 0) then [] else [(i1, j1, k1)]) ++ l
    ++ [(length a, length b, 0)].
Proof.
  revert i1 j1 k1 acc.
  induction l as [|[[i2 j2] k2] l IH]; intros i1 j1 k1 acc Hpos Hsep; simpl.
  - case_bool_decide; case_decide; try done; by rewrite <- ?app_assoc.
  - apply Forall_cons in Hpos as [Hk2 Hpos]. simpl in Hk2.
    destruct (decide (k1 = 0)) as [->|Hk1].
    + (* the dummy block the loop starts with *)
      rewrite (bool_decide_eq_false_2 (0 ≠ 0)) by lia. rewrite !Nat.add_0_r.
      destruct (bool_decide (i1 = i2) && bool_decide (j1 = j2)) eqn:Hadj.
      * apply andb_prop in Hadj as [->%bool_decide_eq_true ->%bool_decide_eq_true].
        rewrite IH; [|done|by rewrite decide_False by lia].
        rewrite decide_False by lia. done.
      * rewrite IH; [|done|by rewrite decide_False by lia].
        rewrite decide_False by lia. done.
    + destruct Hsep as [Hadj Hsep]. unfold adjacent in Hadj.
      destruct (bool_decide (i1 + k1 = i2) && bool_decide (j1 + k1 = j2)) eqn:Htest.
      { apply andb_prop in Htest as [?%bool_decide_eq_true ?%bool_decide_eq_true].
        by destruct Hadj. }
      rewrite (bool_decide_eq_true_2 (k1 ≠ 0)) by done.
      rewrite IH; [|done|by rewrite decide_False by lia].
      rewrite decide_False by lia. by rewrite <- !app_assoc.
Qed.

(** *** The opcodes follow the recursion of the specification *)

Lemma gap_ops_empty i j : gap_ops i i j j = [].
Proof. unfold gap_ops, gap_tag. repeat case_bool_decide; (done || lia). Qed.

Lemma opcodes_loop_gap alo ahi blo bhi k rest :
  opcodes_loop ((ahi, bhi, k) :: rest) alo blo []
  = spec_leftover alo ahi blo bhi
    ++ opcodes_loop ((ahi, bhi, k) :: rest) ahi bhi [].
Proof.
  rewrite !opcodes_loop_cons, gap_ops_leftover. f_equal.
  by rewrite gap_ops_empty.
Qed.

Lemma tree_opcodes depth alo ahi blo bhi :
  alo ≤ ahi → ahi ≤ length a → blo ≤ bhi → bhi ≤ length b → ahi - alo < depth →
  ∃ ops, spec_partition a b alo ahi blo bhi ops
    ∧ ∀ k rest,
        opcodes_loop (tree_blocks a b depth alo ahi blo bhi
                        ++ (ahi, bhi, k) :: rest) alo blo []
        = ops ++ opcodes_loop ((ahi, bhi, k) :: rest) ahi bhi [].
Proof.
  revert alo ahi blo bhi.
  induction depth as [|depth IH]; intros alo ahi blo bhi Ha Hla Hb Hlb Hd; [lia|].
  pose proof (flm_leftmost_longest a b alo ahi blo bhi Hlen Ha Hb) as Hopt.
  simpl.
  destruct (find_longest_match a b (chain_b b) alo ahi blo bhi)
    as [[i j] k] eqn:Hflm.
  pose proof Hopt as [(Hi1 & Hi2 & Hj1 & Hj2 & Hm) Hbest].
  case_bool_decide as Hk; cycle 1.
  { exists (spec_leftover alo ahi blo bhi). split.
    - constructor. intros i' j' k' Hk' Hrun%block_ok_common_run; [|done..].
      destruct (Hbest i' j' k') as [? _]; [done..|]. lia.
    - intros k' rest. apply opcodes_loop_gap. }
  (* before the match *)
  assert (∃ opsL, spec_partition a b alo i blo j opsL
    ∧ ∀ k' rest,
        opcodes_loop ((if bool_decide (alo < i) && bool_decide (blo < j)
                       then tree_blocks a b depth alo i blo j else [])
                      ++ (i, j, k') :: rest) alo blo []
        = opsL ++ opcodes_loop ((i, j, k') :: rest) i j [])
    as (opsL & HspecL & HloopL).
  { destruct (bool_decide (alo < i) && bool_decide (blo < j)) eqn:Hp.
    - apply IH; lia.
    - exists (spec_leftover alo i blo j). split; [|intros; apply opcodes_loop_gap].
      constructor. intros i' j' k' Hk' (? & ? & ? & ? & _).
      apply andb_false_iff in Hp as [Hp|Hp]; apply bool_decide_eq_false in Hp; lia. }
  (* after the match *)
  assert (∃ opsR, spec_partition a b (i + k) ahi (j + k) bhi opsR
    ∧ ∀ k' rest,
        opcodes_loop ((if bool_decide (i + k < ahi) && bool_decide (j + k < bhi)
                       then tree_blocks a b depth (i + k) ahi (j + k) bhi else [])
                      ++ (ahi, bhi, k') :: rest) (i + k) (j + k) []
        = opsR ++ opcodes_loop ((ahi, bhi, k') :: rest) ahi bhi [])
    as (opsR & HspecR & HloopR).
  { destruct (bool_decide (i + k < ahi) && bool_decide (j + k < bhi)) eqn:Hp.
    - apply IH; lia.
    - exists (spec_leftover (i + k) ahi (j + k) bhi).
      split; [|intros; apply opcodes_loop_gap].
      constructor. intros i' j' k' Hk' (? & ? & ? & ? & _).
      apply andb_false_iff in Hp as [Hp|Hp]; apply bool_decide_eq_false in Hp; lia. }
  exists (opsL ++ (OpEqual, i, i + k, j, j + k) :: opsR). split.
  - constructor; [|done..]. apply leftmost_longest_spec; [done | done | lia | done].
  - intros k' rest. rewrite <- app_assoc. cbn [app]. rewrite HloopL.
    rewrite opcodes_loop_cons. rewrite bool_decide_eq_true_2 by done.
    rewrite HloopR, gap_ops_empty. simpl. by rewrite <- app_assoc.
Qed.

Lemma get_opcodes_partition :
  ∃ ops, get_opcodes a b = Some ops
    ∧ spec_partition a b 0 (length a) 0 (length b) ops.
Proof.
  destruct (tree_opcodes (S (length a)) 0 (length a) 0 (length b))
    as (ops & Hspec & Hloop); [lia..|].
  exists ops. split; [|done]. unfold get_opcodes.
  rewrite (get_matching_blocks_tree a b (λ _ _ _ _, True)) by done.
  cbv [mbind option_bind]. f_equal.
  rewrite collapse_separated.
  - rewrite decide_True, !app_nil_l by done.
    rewrite Hloop, opcodes_loop_cons, gap_ops_empty.
    rewrite bool_decide_eq_false_2 by lia. by rewrite !app_nil_r.
  - eapply (chain_positive a b (λ _ _ _ _, True)), tree_chain; try done; lia.
  - rewrite decide_True by done. apply tree_separated; lia.
Qed.
End partition.

(** The specification determines the opcodes. *)
Lemma spec_longest_run_unique R H alo ahi blo bhi i j k i' j' k' :
  spec_longest_run R H alo ahi blo bhi i j k →
  spec_longest_run R H alo ahi blo bhi i' j' k' →
  i = i' ∧ j = j' ∧ k = k'.
Proof.
  intros (_ & Hrun & Hmax) (_ & Hrun' & Hmax').
  destruct (Hmax _ _ _ Hrun') as [? Hfirst].
  destruct (Hmax' _ _ _ Hrun) as [? Hfirst']. lia.
Qed.

Lemma spec_partition_unique R H alo ahi blo bhi ops ops' :
  spec_partition R H alo ahi blo bhi ops →
  spec_partition R H alo ahi blo bhi ops' → ops = ops'.
Proof.
  intros Hspec. revert ops'.
  induction Hspec as [alo ahi blo bhi Hnone
                     |alo ahi blo bhi i j k before after Hrun _ IHb _ IHa];
    intros ops' Hspec'; inversion Hspec' as [? ? ? ? Hnone'|? ? ? ? i' j' k' ? ? Hrun' Hb' Ha'];
    subst.
  - done.
  - destruct Hrun' as (? & ? & _). by destruct (Hnone i' j' k').
  - destruct Hrun as (? & ? & _). by destruct (Hnone' i j k).
  - destruct (spec_longest_run_unique _ _ _ _ _ _ _ _ _ _ _ _ Hrun Hrun')
      as (<- & <- & <-).
    by rewrite (IHb _ Hb'), (IHa _ Ha').
Qed.

(** * Properties of the text functions *)

Section text_facts.
Import Text.

Lemma is_space_lower c : is_space (lower_char c) = is_space c.
Proof. by destruct c as [[] [] [] [] [] [] [] []]. Qed.

Lemma is_word_lower c : is_word (lower_char c) = is_word c.
Proof. by destruct c as [[] [] [] [] [] [] [] []]. Qed.

Lemma lower_lower c : lower_char (lower_char c) = lower_char c.
Proof. by destruct c as [[] [] [] [] [] [] [] []]. Qed.

Lemma is_space_not_word c : is_space c = true → is_word c = false.
Proof. by destruct c as [[] [] [] [] [] [] [] []]. Qed.

(** *** [split] ignores whitespace at both ends *)

Lemma split_from_spaces word (ws : list ascii) :
  Forall (λ c, is_space c = true) ws →
  split_from word ws = match word with [] => [] | _ => [word] end.
Proof.
  intros Hws. revert word. induction Hws as [|c ws Hc _ IH]; intros word; simpl.
  - done.
  - rewrite Hc. destruct word; by rewrite IH.
Qed.

Lemma split_from_app_spaces word (s ws : list ascii) :
  Forall (λ c, is_space c = true) ws →
  split_from word (s ++ ws) = split_from word s.
Proof.
  intros Hws. revert word. induction s as [|c s IH]; intros word; simpl.
  - by apply split_from_spaces.
  - destruct (is_space c); [|by rewrite IH]. by destruct word; rewrite IH.
Qed.

Lemma split_from_lstrip (s : list ascii) :
  split_from [] (lstrip s) = split_from [] s.
Proof.
  induction s as [|c s IH]; simpl; [done|].
  destruct (is_space c) eqn:Hc; simpl; by rewrite ?Hc.
Qed.

Lemma lstrip_spaces (s : list ascii) :
  ∃ ws, s = ws ++ lstrip s ∧ Forall (λ c, is_space c = true) ws.
Proof.
  induction s as [|c s (ws & Hs & Hws)]; simpl.
  - by exists [].
  - destruct (is_space c) eqn:Hc.
    + exists (c :: ws). split; [by rewrite Hs at 1 | by constructor].
    + by exists [].
Qed.

Lemma lower_lstrip (s : list ascii) : lower (lstrip s) = lstrip (lower s).
Proof.
  unfold lower. induction s as [|c s IH]; simpl; [done|].
  rewrite is_space_lower. by destruct (is_space c).
Qed.

Lemma split_lower_strip (s : list ascii) :
  split_from [] (lower (strip s)) = split_from [] (lower s).
Proof.
  unfold strip. destruct (lstrip_spaces (reverse (lstrip s))) as (ws & Hs & Hws).
  assert (lstrip s = reverse (lstrip (reverse (lstrip s))) ++ reverse ws) as Hsplit.
  { rewrite <- reverse_app, <- Hs. by rewrite reverse_involutive. }
  set (kept := reverse (lstrip (reverse (lstrip s)))) in *. symmetry.
  rewrite <- split_from_lstrip, <- lower_lstrip, Hsplit.
  unfold lower. rewrite fmap_app. rewrite split_from_app_spaces; [done|].
  apply Forall_fmap, Forall_reverse. eapply Forall_impl; [done|].
  intros c ?. simpl. by rewrite is_space_lower.
Qed.

(** *** The words [split] returns *)

Lemma split_from_words word (s : list ascii) :
  Forall (λ w : list ascii,
            w ≠ [] ∧ ∀ c, c ∈ w → c ∈ word ++ s ∧ (c ∈ word ∨ is_space c = false))
         (split_from word s).
Proof.
  revert word. induction s as [|c s IH]; intros word; simpl.
  - destruct word as [|c0 word]; constructor; [|constructor].
    split; [done|]. intros c ?. rewrite app_nil_r. by split; [|left].
  - destruct (is_space c) eqn:Hc.
    + assert (Forall (λ w : list ascii,
                w ≠ [] ∧ ∀ c', c' ∈ w → c' ∈ word ++ c :: s
                               ∧ (c' ∈ word ∨ is_space c' = false))
                (split_from [] s)) as Htail.
      { eapply Forall_impl; [apply IH|]. intros w [? Hw]. split; [done|].
        intros c' [Hin Hsp]%Hw. simpl in Hin. split.
        - apply elem_of_app. right. by right.
        - right. destruct Hsp as [?%elem_of_nil|?]; done. }
      destruct word as [|c0 word]; [done|]. constructor; [|done].
      split; [done|]. intros c' ?. split; [|by left].
      apply elem_of_app. by left.
    + eapply Forall_impl; [apply IH|]. intros w [? Hw]. split; [done|].
      intros c' [Hin Hsp]%Hw. rewrite <- app_assoc in Hin. split; [done|].
      destruct Hsp as [[?| ->%list_elem_of_singleton]%elem_of_app|?];
        [by left | by right | by right].
Qed.

Lemma string_of_list_ascii_nonempty (w : list ascii) :
  w ≠ [] → string_of_list_ascii w ≠ "".
Proof. by destruct w. Qed.

(** [str.split] never returns an empty word. *)
Lemma split_all_words (text : string) : all_words (split text).
Proof.
  unfold split, all_words. apply Forall_fmap.
  eapply Forall_impl; [apply split_from_words|].
  intros w [? _]. by apply string_of_list_ascii_nonempty.
Qed.

Lemma sub_spaces_all_spaces in_run (s : list ascii) :
  Forall (λ c, is_space c = true) s →
  Forall (λ c, is_space c = true) (sub_spaces in_run s).
Proof.
  intros Hs. revert in_run. induction Hs as [|c s Hc _ IH]; intros in_run; simpl.
  - done.
  - rewrite Hc. apply Forall_app. split; [|apply IH].
    destruct in_run; by repeat constructor.
Qed.

Lemma sub_spaces_chars in_run (s : list ascii) c :
  c ∈ sub_spaces in_run s → c ∈ s ∨ is_space c = true.
Proof.
  revert in_run. induction s as [|c0 s IH]; intros in_run; simpl.
  - by intros ?%elem_of_nil.
  - destruct (is_space c0) eqn:Hc0.
    + intros [Hin|Hin]%elem_of_app.
      * right. destruct in_run; [by apply elem_of_nil in Hin|].
        by apply list_elem_of_singleton in Hin as ->.
      * destruct (IH _ Hin); [left; by right | by right].
    + intros [->|Hin]%elem_of_cons; [left; by left|].
      destruct (IH _ Hin); [left; by right | by right].
Qed.

(** *** Normalising never adds a word *)

Lemma split_from_sub_spaces word in_run (s : list ascii) :
(in_run = true → word = []) →
split_from word (sub_spaces in_run s) = split_from word s.
Proof.
revert word in_run. induction s as [|c s IH]; intros word in_run Hrun; simpl.
- done.
- destruct (is_space c) eqn:Hc; simpl.
  + destruct in_run; simpl.
    * rewrite (Hrun eq_refl). by apply IH.
    * destruct word; by rewrite IH.
  + rewrite Hc. by apply IH.
Qed.

Lemma length_split_from_lower word (s : list ascii) :
length (split_from (lower word) (lower s)) = length (split_from word s).
Proof.
unfold lower. revert word. induction s as [|c s IH]; intros word; simpl.
- by destruct word.
- rewrite is_space_lower. destruct (is_space c).
  + destruct word; simpl; by rewrite <- (IH []).
  + rewrite <- IH. by rewrite fmap_app.
Qed.

Lemma length_split_from_filter word' word (s : list ascii) :
(word = [] → word' = []) →
length (split_from word' (sub_non_word s)) ≤ length (split_from word s).
Proof.
unfold sub_non_word. revert word' word.
induction s as [|c s IH]; intros word' word Hword; simpl.
- destruct word', word; simpl; try lia. by specialize (Hword eq_refl).
- destruct (is_space c) eqn:Hc.
  + rewrite filter_cons_True by (rewrite Hc, orb_true_r; done). simpl.
    rewrite Hc. specialize (IH [] [] (λ _, eq_refl)).
    destruct word', word; simpl; try lia. by specialize (Hword eq_refl).
  + destruct (is_word c) eqn:Hw.
    * rewrite filter_cons_True by (by rewrite Hw). simpl. rewrite Hc.
      apply IH. by intros [_ [=]]%app_eq_nil.
    * rewrite filter_cons_False by (rewrite Hw, Hc; simpl; tauto). apply IH.
      by intros [_ [=]]%app_eq_nil.
Qed.

(** The text has at least as many whitespace-separated words as tokens. *)
Lemma tokens_le_raw_words (text : string) :
length (split (clean_text text)) ≤ length (split text).
Proof.
unfold clean_text, split. rewrite !length_fmap.
rewrite list_ascii_of_string_of_list_ascii, split_lower_strip.
rewrite (length_split_from_lower []).
rewrite split_from_sub_spaces by done.
by apply length_split_from_filter.
Qed.
End text_facts.

(** ** The cleaned text and its tokens *)

Section clean_text_facts.
Import Text.

Local Abbreviation no_space := (Forall (λ c, is_space c = false)).

Lemma lstrip_app (m k : list ascii) :
  lstrip (m ++ k) = match lstrip m with [] => lstrip k | r => r ++ k end.
Proof.
  induction m as [|c m IH]; simpl; [done|].
  by destruct (is_space c).
Qed.

Lemma rstrip_cons c (l : list ascii) :
  rstrip (c :: l)
  = match rstrip l with
    | [] => if is_space c then [] else [c]
    | r => c :: r
    end.
Proof.
  unfold rstrip. rewrite reverse_cons, lstrip_app.
  destruct (lstrip (reverse l)) as [|d r]; [simpl; by destruct (is_space c)|].
  rewrite reverse_app. change (reverse [c]) with [c]. simpl.
  destruct (reverse (d :: r)) eqn:Hr; [|done].
  apply (f_equal length) in Hr. by rewrite length_reverse in Hr.
Qed.

Lemma rstrip_word (word l : list ascii) :
  no_space word → rstrip (word ++ l) = word ++ rstrip l.
Proof.
  induction 1 as [|c word Hc _ IH]; simpl; [done|].
  rewrite rstrip_cons, IH, Hc. by destruct (word ++ rstrip l).
Qed.

Lemma rstrip_spaces (l : list ascii) :
  ∃ ws, l = rstrip l ++ ws ∧ Forall (λ c, is_space c = true) ws.
Proof.
  destruct (lstrip_spaces (reverse l)) as (ws & Hl & Hws).
  exists (reverse ws). split; [|by apply Forall_reverse].
  unfold rstrip. rewrite <- reverse_app, <- Hl. by rewrite reverse_involutive.
Qed.

Lemma lstrip_sub_spaces in_run (s : list ascii) :
  lstrip (sub_spaces in_run s) = sub_spaces true s.
Proof.
  revert in_run. induction s as [|c s IH]; intros in_run; simpl; [done|].
  destruct (is_space c) eqn:Hc.
  - destruct in_run; simpl; [apply IH|]. apply IH.
  - simpl. by rewrite Hc.
Qed.

Lemma unwords_cons (w : list ascii) ws :
  Forall (λ w : list ascii, w ≠ []) ws →
  unwords (w :: ws)
  = w ++ match unwords ws with [] => [] | r => " "%char :: r end.
Proof.
  intros Hws. simpl. destruct ws as [|w' ws]; [by rewrite app_nil_r|].
  apply Forall_cons in Hws as [Hw' _].
  destruct (unwords (w' :: ws)) eqn:Hu; [|done].
  simpl in Hu. destruct w'; [done|]. by destruct ws.
Qed.

Lemma split_from_nonempty word (s : list ascii) :
  Forall (λ w : list ascii, w ≠ []) (split_from word s).
Proof.
  eapply Forall_impl; [apply split_from_words|]. by intros w [? _].
Qed.

(** Collapsing the runs of whitespace and stripping leaves the words,
    separated by single spaces. *)
Lemma rstrip_sub_spaces (s : list ascii) :
  rstrip (sub_spaces true s) = unwords (split_from [] s)
  ∧ ∀ word, word ≠ [] → no_space word →
      rstrip (word ++ sub_spaces false s) = unwords (split_from word s).
Proof.
  induction s as [|c s [IHs IHw]].
  - split; [done|]. intros word Hne Hword. simpl.
    rewrite rstrip_word by done. change (rstrip []) with (@nil ascii).
    rewrite app_nil_r. by destruct word.
  - split.
    + simpl. destruct (is_space c) eqn:Hc; [done|].
      apply (IHw [c]); [done|]. by constructor.
    + intros word Hne Hword. simpl. destruct (is_space c) eqn:Hc.
      * simpl. rewrite rstrip_word, rstrip_cons, IHs by done. simpl.
        destruct word as [|c' word]; [done|].
        rewrite unwords_cons by apply split_from_nonempty.
        by destruct (unwords (split_from [] s)).
      * rewrite (cons_middle c), app_assoc. apply IHw.
        -- by destruct word.
        -- apply Forall_app. split; [done|]. by constructor.
Qed.

Lemma strip_sub_spaces (s : list ascii) :
  strip (sub_spaces false s) = unwords (split_from [] s).
Proof.
  unfold strip. rewrite lstrip_sub_spaces. apply rstrip_sub_spaces.
Qed.

Lemma lower_unwords ws : lower (unwords ws) = unwords (lower <$> ws).
Proof.
  induction ws as [|w ws IH]; [done|].
  simpl. destruct ws as [|w' ws]; [done|].
  unfold lower in *. rewrite fmap_app, fmap_cons, IH. done.
Qed.

Lemma split_from_lower word (s : list ascii) :
  split_from (lower word) (lower s) = lower <$> split_from word s.
Proof.
  revert word. induction s as [|c s IH]; intros word; simpl.
  - by destruct word.
  - rewrite is_space_lower. destruct (is_space c).
    + destruct word as [|c' word]; [apply (IH [])|].
      change (lower (c' :: word)) with (lower_char c' :: lower word).
      rewrite fmap_cons. f_equal. apply (IH []).
    + rewrite <- IH. unfold lower. by rewrite fmap_app.
Qed.

(** The cleaned text is the lowercased words, joined by single spaces. *)
Lemma clean_chars_unwords (s : list ascii) :
  clean_chars s = unwords (lower <$> split_from [] (sub_non_word s)).
Proof.
  unfold clean_chars. by rewrite strip_sub_spaces, lower_unwords.
Qed.

Lemma split_clean_chars (s : list ascii) :
  split_from [] (clean_chars s) = lower <$> split_from [] (sub_non_word s).
Proof.
  unfold clean_chars.
  rewrite split_lower_strip, (split_from_lower []).
  by rewrite split_from_sub_spaces.
Qed.

Lemma string_of_list_ascii_app (l k : list ascii) :
  string_of_list_ascii (l ++ k)
  = (string_of_list_ascii l ++ string_of_list_ascii k)%string.
Proof. induction l as [|c l IH]; simpl; [done|]. by rewrite IH. Qed.

Lemma concat_unwords (ws : list (list ascii)) :
  String.concat " " (string_of_list_ascii <$> ws)
  = string_of_list_ascii (unwords ws).
Proof.
  induction ws as [|w ws IH]; [done|].
  destruct ws as [|w' ws]; [done|].
  change (String.concat " " (string_of_list_ascii <$> w :: w' :: ws))
    with (string_of_list_ascii w ++ " "
          ++ String.concat " " (string_of_list_ascii <$> w' :: ws))%string.
  rewrite IH. change (unwords (w :: w' :: ws))
    with (w ++ " "%char :: unwords (w' :: ws)).
  by rewrite string_of_list_ascii_app.
Qed.

Lemma clean_words (s : list ascii) :
  Forall clean_word (lower <$> split_from [] (sub_non_word s)).
Proof.
  apply Forall_fmap. eapply Forall_impl; [apply split_from_words|].
  intros w [Hne Hw]. split; [by destruct w|].
  apply Forall_fmap, Forall_forall. intros c Hc. simpl.
  destruct (Hw c Hc) as [Hin [Hnil|Hsp]]; [by apply elem_of_nil in Hnil|].
  simpl in Hin. apply list_elem_of_filter in Hin as [Hkeep _].
  apply Is_true_true in Hkeep. rewrite Hsp, orb_false_r in Hkeep.
  by rewrite is_space_lower, is_word_lower, lower_lower.
Qed.

Lemma split_from_word word (w s : list ascii) :
  no_space w → split_from word (w ++ s) = split_from (word ++ w) s.
Proof.
  intros Hw. revert word. induction Hw as [|c w Hc _ IH]; intros word; simpl.
  - by rewrite app_nil_r.
  - rewrite Hc, IH. by rewrite <- app_assoc.
Qed.

Lemma split_from_unwords ws :
  Forall clean_word ws → split_from [] (unwords ws) = ws.
Proof.
  induction 1 as [|w ws [Hne Hw] Hws IH]; [done|].
  assert (no_space w) as Hsp by (eapply Forall_impl; [done|]; by intros ? [? _]).
  simpl. destruct ws as [|w' ws].
  - transitivity (split_from [] (w ++ [])); [by rewrite app_nil_r|].
    rewrite split_from_word by done. simpl. by destruct w.
  - rewrite split_from_word by done. cbn [app split_from].
    change (is_space " ") with true. cbv iota. rewrite IH. by destruct w.
Qed.

Lemma sub_non_word_unwords ws :
  Forall clean_word ws → sub_non_word (unwords ws) = unwords ws.
Proof.
  assert (∀ w, clean_word w → sub_non_word w = w) as Hword.
  { intros w [_ Hw]. unfold sub_non_word.
    induction Hw as [|c w (_ & Hc & _) _ IH]; [done|].
    rewrite filter_cons_True by (rewrite Hc; done). by rewrite IH. }
  induction 1 as [|w ws Hw Hws IH]; [done|].
  simpl. destruct ws as [|w' ws]; [by apply Hword|].
  unfold sub_non_word in *. rewrite filter_app, filter_cons_True by done.
  by rewrite IH, (Hword w).
Qed.

Lemma lower_clean_words ws : Forall clean_word ws → lower <$> ws = ws.
Proof.
  induction 1 as [|w ws [_ Hw] _ IH]; [done|].
  rewrite fmap_cons, IH. f_equal.
  induction Hw as [|c w (_ & _ & Hc) _ IHw]; [done|].
  unfold lower in *. by rewrite fmap_cons, Hc, IHw.
Qed.

Lemma clean_chars_idempotent (s : list ascii) :
  clean_chars (clean_chars s) = clean_chars s.
Proof.
  rewrite (clean_chars_unwords (clean_chars s)), (clean_chars_unwords s).
  pose proof (clean_words s) as Hws.
  rewrite sub_non_word_unwords, split_from_unwords by done.
  by rewrite lower_clean_words.
Qed.

Lemma split_from_leading_spaces (ws s : list ascii) :
  Forall (λ c, is_space c = true) ws →
  split_from [] (ws ++ s) = split_from [] s.
Proof. induction 1 as [|c ws Hc _ IH]; simpl; [done|]. by rewrite Hc. Qed.

Lemma sub_non_word_spaces (ws : list ascii) :
  Forall (λ c, is_space c = true) ws →
  Forall (λ c, is_space c = true) (sub_non_word ws).
Proof.
  intros Hws. apply Forall_forall. intros c [_ Hc]%list_elem_of_filter.
  rewrite Forall_forall in Hws. by apply Hws.
Qed.

Lemma split_sub_non_word_strip (s : list ascii) :
  split_from [] (sub_non_word (strip s)) = split_from [] (sub_non_word s).
Proof.
  unfold strip. fold (rstrip (lstrip s)).
  destruct (lstrip_spaces s) as (ws1 & Hs & Hws1).
  destruct (rstrip_spaces (lstrip s)) as (ws2 & Hl & Hws2).
  rewrite Hs at 2. rewrite Hl at 2. unfold sub_non_word.
  rewrite !filter_app.
  rewrite split_from_leading_spaces by by apply sub_non_word_spaces.
  by rewrite split_from_app_spaces by by apply sub_non_word_spaces.
Qed.

Lemma sub_non_word_lower (s : list ascii) :
  sub_non_word (lower s) = lower (sub_non_word s).
Proof.
  unfold sub_non_word, lower. induction s as [|c s IH]; [done|].
  rewrite fmap_cons.
  destruct (is_word c || is_space c) eqn:Hc.
  - rewrite (filter_cons_True _ (lower_char c))
      by (rewrite is_word_lower, is_space_lower, Hc; done).
    rewrite (filter_cons_True _ c) by (rewrite Hc; done).
    by rewrite fmap_cons, IH.
  - rewrite (filter_cons_False _ (lower_char c))
      by (rewrite is_word_lower, is_space_lower, Hc; simpl; tauto).
    by rewrite (filter_cons_False _ c) by (rewrite Hc; simpl; tauto).
Qed.

Lemma clean_chars_strip_lower (s : list ascii) :
  clean_chars (lower (strip s)) = clean_chars s.
Proof.
  rewrite !clean_chars_unwords. f_equal.
  rewrite sub_non_word_lower, (split_from_lower []), split_sub_non_word_strip.
  rewrite <- list_fmap_compose. apply list_fmap_ext. intros _ w _. simpl.
  unfold lower. rewrite <- list_fmap_compose. apply list_fmap_ext.
  intros _ c _. simpl. apply lower_lower.
Qed.

End clean_text_facts.

(** ** The steps of the specification and the code *)

Section spec_text_facts.
Import Text.

Lemma spec_is_space_code c : spec_is_space c = is_space c.
Proof. by destruct c as [[] [] [] [] [] [] [] []]. Qed.

Lemma spec_is_word_code c : spec_is_word c = is_word c.
Proof. by destruct c as [[] [] [] [] [] [] [] []]. Qed.

Lemma spec_lower_char_code c : spec_lower_char c = lower_char c.
Proof. by destruct c as [[] [] [] [] [] [] [] []]. Qed.

Lemma spec_strip_chars_code (text : list ascii) :
  spec_strip_chars text = sub_non_word text.
Proof.
  unfold sub_non_word. induction text as [|c text IH]; [done|].
  cbn [spec_strip_chars]. rewrite spec_is_word_code, spec_is_space_code, IH.
  destruct (is_word c) eqn:Hw; [by rewrite filter_cons_True by by rewrite Hw|].
  destruct (is_space c) eqn:Hs.
  - by rewrite filter_cons_True by by rewrite Hw, Hs.
  - by rewrite filter_cons_False by (rewrite Hw, Hs; simpl; tauto).
Qed.

Lemma spec_collapse_code (text : list ascii) :
  spec_collapse text = sub_spaces false text.
Proof.
  induction text as [|c text IH]; [done|].
  cbn [spec_collapse sub_spaces]. rewrite spec_is_space_code.
  destruct (is_space c); [|by rewrite IH].
  destruct text as [|d text]; [done|].
  rewrite spec_is_space_code, IH. cbn [sub_spaces].
  by destruct (is_space d).
Qed.

Lemma spec_lowercase_code (text : list ascii) :
  spec_lowercase text = lower text.
Proof.
  unfold spec_lowercase, lower. apply list_fmap_ext.
  intros _ c _. apply spec_lower_char_code.
Qed.

Lemma spec_split_from word (text : list ascii) :
  split_from word text
  = spec_close (word ++ (foldr spec_split_step ([], []) text).1)
      (foldr spec_split_step ([], []) text).2.
Proof.
  revert word. induction text as [|c text IH]; intros word.
  - simpl. rewrite app_nil_r. by destruct word.
  - cbn [split_from foldr]. unfold spec_split_step at 1 3.
    rewrite spec_is_space_code. destruct (is_space c).
    + cbn [fst snd]. rewrite app_nil_r, (IH []). by destruct word.
    + cbn [fst snd]. by rewrite IH, <- app_assoc.
Qed.

Lemma spec_split_code (text : list ascii) :
  spec_split text = split_from [] text.
Proof. unfold spec_split. by rewrite spec_split_from. Qed.

End spec_text_facts.

(** * Properties of the metrics *)

Lemma Q_of_nat_nonneg n : (0 <= Q_of_nat n)%Q.
Proof. unfold Q_of_nat, Qle. simpl. lia. Qed.

Lemma Q_of_nat_pos n : 0 < n → (0 < Q_of_nat n)%Q.
Proof. intros ?. unfold Q_of_nat, Qlt. simpl. lia. Qed.

Lemma py_div_pos x y : (0 < y)%Q → py_div x y = Some (x / y)%Q.
Proof.
  intros Hy. unfold py_div. destruct (Qeq_bool y 0) eqn:Heq; [|done].
  apply Qeq_bool_iff in Heq. rewrite Heq in Hy. by apply Qlt_irrefl in Hy.
Qed.

Lemma Qdiv_nonneg x y : (0 <= x)%Q → (0 < y)%Q → (0 <= x / y)%Q.
Proof. intros ??. apply Qle_shift_div_l; [done|]. by rewrite Qmult_0_l. Qed.

Lemma compute_wer_spec n_subs n_dels n_ins n_ref :
  ∃ w, compute_wer n_subs n_dels n_ins n_ref = Some w
    ∧ (0 < n_ref → w = (Q_of_nat (n_subs + n_dels + n_ins) / Q_of_nat n_ref)%Q)
    ∧ (n_ref = 0 → w = 0%Q)
    ∧ (0 <= w)%Q.
Proof.
  unfold compute_wer. case_bool_decide as Hn.
  - rewrite py_div_pos by by apply Q_of_nat_pos.
    eexists. split_and!; [done | done | lia |].
    apply Qdiv_nonneg; [apply Q_of_nat_nonneg | by apply Q_of_nat_pos].
  - exists 0%Q. split_and!; [done | lia | done | done].
Qed.

Lemma compute_wcpm_spec n_hits duration_seconds :
  ∃ w, compute_wcpm n_hits duration_seconds = Some w
    ∧ (0 <= w)%Q
    ∧ match duration_seconds with
      | Some d =>
          ((0 < d)%Q → w = (Q_of_nat n_hits / (d / 60))%Q)
          ∧ ((d <= 0)%Q → w = 0%Q)
      | None => w = 0%Q
      end.
Proof.
  unfold compute_wcpm. destruct duration_seconds as [d|]; [|by exists 0%Q].
  destruct (Qeq_bool d 0) eqn:Hd0.
  { apply Qeq_bool_iff in Hd0. exists 0%Q. split_and!; try done.
    intros Hd. rewrite Hd0 in Hd. by apply Qlt_irrefl in Hd. }
  assert (¬ (d == 0)%Q) as Hne.
  { intros Heq%Qeq_bool_iff. congruence. }
  rewrite (py_div_pos d 60) by done. cbv [mbind option_bind].
  destruct (Qlt_le_dec 0 (d / 60)) as [Hpos|Hneg].
  - rewrite py_div_pos by done. eexists. split_and!; [done | | done |].
    + apply Qdiv_nonneg; [apply Q_of_nat_nonneg | done].
    + intros Hd. exfalso. apply (Qlt_irrefl 0).
      eapply Qlt_le_trans; [apply Hpos|].
      apply Qle_shift_div_r; [done|]. by rewrite Qmult_0_l.
  - exists 0%Q. split_and!; try done. intros Hd. exfalso.
    apply (Qlt_irrefl 0). eapply Qlt_le_trans; [|apply Hneg].
    apply Qlt_shift_div_l; [done|]. by rewrite Qmult_0_l.
Qed.

(** [assess_reading] returns whenever the recogniser does. *)
Lemma assess_reading_returns generate_transcript audio target duration t :
  generate_transcript audio = Some t →
  ∃ hs ss ns ds w c,
    align_sequences (Text.split (clean_text target)) (Text.split (clean_text t))
    = Some (hs, ss, ns, ds)
    ∧ compute_wer (length ss) (length ds) (length ns)
        (length (Text.split (clean_text target))) = Some w
    ∧ compute_wcpm (length hs) duration = Some c
    ∧ assess_reading generate_transcript audio target duration
      = Some (mkORFResults t target c (length hs) (length ss) (length ns)
                (length ds) w (1 - w)%Q (DetailedErrors ss ns ds)).
Proof.
  intros Ht. unfold assess_reading. rewrite Ht. cbv [mbind option_bind].
  destruct (align_sequences_deltas (Text.split (clean_text target))
              (Text.split (clean_text t)) (λ _ _ _ _, True))
    as (ops & _ & _ & Halign); [done..|].
  rewrite Halign.
  destruct (deltas _ _ ops) as [[[hs ss] ns] ds].
  destruct (compute_wer_spec (length ss) (length ds) (length ns)
              (length (Text.split (clean_text target)))) as (w & Hw & _).
  destruct (compute_wcpm_spec (length hs) duration) as (c & Hc & _).
  exists hs, ss, ns, ds, w, c. by rewrite Hw, Hc.
Qed.

(** The counting invariants hold of every assessment: both token
    sequences come from [str.split]. *)
Lemma assessment_counts generate_transcript audio target duration t :
  generate_transcript audio = Some t →
  ∃ r, assess_reading generate_transcript audio target duration = Some r
    ∧ hits r + substitutions r + deletions r
      = length (Text.split (clean_text target))
    ∧ hits r + substitutions r + insertions r
      = length (Text.split (clean_text t)).
Proof.
  intros Ht.
  destruct (assess_reading_returns _ audio target duration t Ht)
    as (hs & ss & ns & ds & w & c & Halign & _ & _ & ->).
  eexists. split; [done|]. simpl.
  destruct (align_sequences_deltas (Text.split (clean_text target))
              (Text.split (clean_text t)) (λ _ _ _ _, True))
    as (ops & Hcover & _ & Halign'); [done..|].
  destruct (deltas_counts _ _ (split_all_words (clean_text target))
              (split_all_words (clean_text t)) _ ops 0 0 Hcover) as [Hr Hh].
  rewrite Halign in Halign'. injection Halign' as Heq.
  rewrite <- Heq in Hr, Hh. unfold ref_count, hyp_count in *. unfold_al. lia.
Qed.

(** ** Binary64: rounding and division *)

Section binary64_facts.
Import Binary64.
Local Open Scope Z_scope.

Lemma digits2_pos_size p : digits2_pos p = Pos.size p.
Proof. induction p as [p IH|p IH|]; simpl; by rewrite ?IH. Qed.

Lemma Zdigits2_log2 p : Zdigits2 (Zpos p) = Z.log2 (Zpos p) + 1.
Proof.
  unfold Zdigits2. rewrite digits2_pos_size.
  destruct p as [p|p|]; simpl; [lia| lia | done].
Qed.

Lemma Zdigits2_bounds p :
  2 ^ (Zdigits2 (Zpos p) - 1) ≤ Zpos p < 2 ^ Zdigits2 (Zpos p).
Proof.
  rewrite Zdigits2_log2. replace (Z.log2 (Z.pos p) + 1 - 1) with (Z.log2 (Z.pos p)) by lia.
  apply Z.log2_spec. lia.
Qed.

Lemma Zdigits2_unique p k :
  2 ^ (k - 1) ≤ Zpos p < 2 ^ k → Zdigits2 (Zpos p) = k.
Proof.
  intros Hp. rewrite Zdigits2_log2.
  assert (0 < k).
  { destruct (Z_lt_le_dec 0 k) as [|Hk]; [done|].
    assert (2 ^ k ≤ 2 ^ 0) by (apply Z.pow_le_mono_r; lia). simpl in *. lia. }
  rewrite (Z.log2_unique (Zpos p) (k - 1)); [lia | lia |].
  by replace (Z.succ (k - 1)) with k by lia.
Qed.

Lemma Zdigits2_pos p : 0 < Zdigits2 (Zpos p).
Proof. unfold Zdigits2. lia. Qed.

(** *** Rounding *)

Lemma shr_m_of_loc m l : shr_m (shr_record_of_loc m l) = m.
Proof. by destruct l as [|[]]. Qed.

Lemma loc_of_shr_record_of_loc m l :
  loc_of_shr_record (shr_record_of_loc m l) = l.
Proof. by destruct l as [|[]]. Qed.

Lemma shr_1_div2 mrs : 0 ≤ shr_m mrs → shr_m (shr_1 mrs) = shr_m mrs / 2.
Proof.
  destruct mrs as [m r s]. simpl. intros Hm.
  destruct m as [|[p|p|]|p]; simpl; try done.
  - apply (Z.div_unique _ 2 _ 1); lia.
  - apply (Z.div_unique _ 2 _ 0); lia.
Qed.

Lemma iter_pos_invariant {A} (f : A → A) (P : A → Prop) p x :
  (∀ y, P y → P (f y)) → P x → P (SpecFloat.iter_pos f p x).
Proof.
  intros Hf. revert x. induction p as [p IH|p IH|]; intros x Hx; simpl.
  - by apply IH, IH, Hf.
  - by apply IH, IH.
  - by apply Hf.
Qed.

Lemma shr_nonneg mrs e n : 0 ≤ shr_m mrs → 0 ≤ shr_m (shr mrs e n).1.
Proof.
  intros Hm. unfold shr. destruct n as [|p|p]; simpl; try done.
  apply (iter_pos_invariant shr_1 (λ y, 0 ≤ shr_m y)); [|done].
  intros y Hy. rewrite shr_1_div2 by done. by apply Z.div_pos.
Qed.

Lemma iter_shr_1 p mrs :
  0 ≤ shr_m mrs →
  shr_m (SpecFloat.iter_pos shr_1 p mrs) = shr_m mrs / 2 ^ Zpos p.
Proof.
  revert mrs. induction p as [p IH|p IH|]; intros mrs Hm; simpl.
  - assert (0 ≤ shr_m (shr_1 mrs))
      by (rewrite shr_1_div2 by done; by apply Z.div_pos).
    assert (0 ≤ shr_m (SpecFloat.iter_pos shr_1 p (shr_1 mrs)))
      by (rewrite IH by done; apply Z.div_pos; [done|]; by apply Z.pow_pos_nonneg).
    rewrite !IH, shr_1_div2 by done.
    assert (0 < 2 ^ Zpos p) by by apply Z.pow_pos_nonneg.
    rewrite !Z.div_div by lia. f_equal.
    replace (Zpos p~1) with (1 + Zpos p + Zpos p) by lia.
    rewrite !Z.pow_add_r by lia. change (2 ^ 1) with 2. ring.
  - assert (0 ≤ shr_m (SpecFloat.iter_pos shr_1 p mrs))
      by (rewrite IH by done; apply Z.div_pos; [done|]; by apply Z.pow_pos_nonneg).
    rewrite !IH by done.
    assert (0 < 2 ^ Zpos p) by by apply Z.pow_pos_nonneg.
    rewrite Z.div_div by lia. f_equal.
    replace (Zpos p~0) with (Zpos p + Zpos p) by lia.
    by rewrite Z.pow_add_r by lia.
  - by rewrite shr_1_div2.
Qed.

Lemma round_nearest_even_bounds m l :
  m ≤ round_nearest_even m l ≤ m + 1.
Proof.
  unfold round_nearest_even.
  destruct l as [|[]]; try destruct (Z.even m); lia.
Qed.

(** Rounding a mantissa that is not negative gives a number with the sign
    asked for, never NaN. *)
Lemma binary_round_aux_sign sx mx ex lx :
  0 ≤ mx →
  match binary_round_aux prec emax sx mx ex lx with
  | S754_zero s | S754_infinity s | S754_finite s _ _ => s = sx
  | S754_nan => False
  end.
Proof.
  intros Hmx. unfold binary_round_aux, shr_fexp.
  pose proof (shr_nonneg (shr_record_of_loc mx lx) ex
                (fexp prec emax (Zdigits2 mx + ex) - ex)) as H1.
  rewrite shr_m_of_loc in H1. specialize (H1 Hmx).
  destruct (shr (shr_record_of_loc mx lx) ex _) as [mrs' e'].
  simpl in H1.
  pose proof (round_nearest_even_bounds (shr_m mrs') (loc_of_shr_record mrs'))
    as Hr.
  set (m1 := round_nearest_even (shr_m mrs') (loc_of_shr_record mrs')) in *.
  pose proof (shr_nonneg (shr_record_of_loc m1 loc_Exact) e'
                (fexp prec emax (Zdigits2 m1 + e') - e')) as H2.
  rewrite shr_m_of_loc in H2.
  destruct (shr (shr_record_of_loc m1 loc_Exact) e' _) as [mrs'' e''].
  simpl in H2. destruct (shr_m mrs'') as [|m|m]; [done| |lia].
  by destruct (e'' <=? emax - prec).
Qed.

(** *** Division *)

Lemma SFdiv_core_binary_eq m1 e1 m2 e2 :
  SFdiv_core_binary prec emax m1 e1 m2 e2
  = (let e' := Z.min (fexp prec emax (Zdigits2 m1 + e1 - (Zdigits2 m2 + e2)))
                     (e1 - e2) in
     let s := e1 - e2 - e' in
     let m' := match s with
               | Zpos _ => Z.shiftl m1 s
               | Z0 => m1
               | Zneg _ => 0
               end in
     (m' / m2, e', new_location m2 (m' mod m2))).
Proof.
  unfold SFdiv_core_binary, Z.div, Z.modulo. cbv zeta.
  by destruct (Z.div_eucl _ m2).
Qed.

Lemma SFdiv_finite_sign sx mx ex sy my ey :
  match SFdiv prec emax (S754_finite sx mx ex) (S754_finite sy my ey) with
  | S754_zero s | S754_infinity s | S754_finite s _ _ => s = xorb sx sy
  | S754_nan => False
  end.
Proof.
  unfold SFdiv. rewrite SFdiv_core_binary_eq. cbv zeta.
  apply binary_round_aux_sign. apply Z.div_pos; [|lia].
  destruct (ex - ey - _) as [|s|s]; [lia| |lia].
  apply Z.shiftl_nonneg. lia.
Qed.

(** *** Numbers with a mantissa of 53 bits *)

Lemma fexp_normal z : -1021 ≤ z → fexp prec emax z = z - 53.
Proof. unfold fexp, emin, prec, emax. lia. Qed.

Lemma shr_fexp_keep m e l :
  Zdigits2 m = 53 → -1074 ≤ e →
  shr_fexp prec emax m e l = (shr_record_of_loc m l, e).
Proof.
  intros Hd He. unfold shr_fexp. rewrite Hd, fexp_normal by lia.
  by replace (53 + e - 53 - e) with 0 by lia.
Qed.

Lemma shr_fexp_once m e l :
  Zdigits2 m = 54 → -1075 ≤ e →
  shr_fexp prec emax m e l = (shr_1 (shr_record_of_loc m l), e + 1).
Proof.
  intros Hd He. unfold shr_fexp. rewrite Hd, fexp_normal by lia.
  by replace (54 + e - 53 - e) with 1 by lia.
Qed.

Lemma Zdigits2_53 m : 2 ^ 52 ≤ m < 2 ^ 53 → Zdigits2 m = 53.
Proof.
  intros Hm. destruct m as [|p|p]; [lia| |lia]. by apply Zdigits2_unique.
Qed.

Lemma Zdigits2_54 m : 2 ^ 53 ≤ m < 2 ^ 54 → Zdigits2 m = 54.
Proof.
  intros Hm. destruct m as [|p|p]; [lia| |lia]. by apply Zdigits2_unique.
Qed.

Ltac solve_digits :=
  first [lia | apply Zdigits2_53; lia | apply Zdigits2_54; lia | done].

(** The second shift of [binary_round_aux], after the rounding. *)
Lemma shr_fexp_rounded m e :
  2 ^ 52 ≤ m ≤ 2 ^ 53 → -1074 ≤ e →
  ∃ m' e', shr_fexp prec emax m e loc_Exact = (m', e')
    ∧ 2 ^ 52 ≤ shr_m m' < 2 ^ 53 ∧ e ≤ e' ≤ e + 1.
Proof.
  intros Hm He. destruct (Z_lt_le_dec m (2 ^ 53)) as [Hlt|Hge].
  - rewrite shr_fexp_keep by solve_digits.
    eexists _, _. split; [done|]. simpl. lia.
  - assert (m = 2 ^ 53) as -> by lia.
    rewrite shr_fexp_once by solve_digits.
    eexists _, _. split; [done|]. simpl. lia.
Qed.

Lemma Zdigits2_ge_53 q : 2 ^ 52 ≤ q → 53 ≤ Zdigits2 q.
Proof.
  intros Hq. destruct q as [|p|p]; [lia| |lia].
  pose proof (Zdigits2_bounds p) as Hp.
  destruct (Z_lt_le_dec (Zdigits2 (Zpos p)) 53) as [Hlt|]; [|done].
  assert (2 ^ Zdigits2 (Zpos p) ≤ 2 ^ 52) by (apply Z.pow_le_mono_r; lia). lia.
Qed.

(** The first shift of [binary_round_aux]. *)
Lemma shr_fexp_quotient q e l :
  2 ^ 52 ≤ q → -1074 ≤ e →
  ∃ m', shr_fexp prec emax q e l = (m', e + (Zdigits2 q - 53))
    ∧ 2 ^ 52 ≤ shr_m m' < 2 ^ 53.
Proof.
  intros Hq He. pose proof (Zdigits2_ge_53 q Hq) as Hd.
  destruct q as [|p|p]; [lia| |lia].
  pose proof (Zdigits2_bounds p) as Hp.
  set (d := Zdigits2 (Zpos p)) in *.
  unfold shr_fexp. fold d. rewrite fexp_normal by lia.
  replace (d + e - 53 - e) with (d - 53) by lia.
  destruct (d - 53) as [|k|k] eqn:Hk; [|  |lia].
  - eexists. split; [by rewrite Z.add_0_r|]. rewrite shr_m_of_loc.
    replace d with 53 in Hp by lia. lia.
  - eexists. split; [done|].
    rewrite iter_shr_1, shr_m_of_loc by (rewrite shr_m_of_loc; lia).
    assert (0 < 2 ^ Zpos k) by by apply Z.pow_pos_nonneg.
    assert (2 ^ (d - 1) = 2 ^ Zpos k * 2 ^ 52) as Hlow
      by (rewrite <- Z.pow_add_r by lia; f_equal; lia).
    assert (2 ^ d = 2 ^ Zpos k * 2 ^ 53) as Hhigh
      by (rewrite <- Z.pow_add_r by lia; f_equal; lia).
    split.
    + apply Z.div_le_lower_bound; lia.
    + apply Z.div_lt_upper_bound; lia.
Qed.

(** Rounding a mantissa of at least 53 bits, away from the two ends of the
    exponent range, gives a normal number. *)
Lemma binary_round_aux_normal sx q e l :
  2 ^ 52 ≤ q → -1074 ≤ e → e + (Zdigits2 q - 53) ≤ 970 →
  ∃ m e', binary_round_aux prec emax sx q e l = S754_finite sx m e'
    ∧ 2 ^ 52 ≤ Zpos m < 2 ^ 53
    ∧ e + (Zdigits2 q - 53) ≤ e' ≤ e + (Zdigits2 q - 53) + 1.
Proof.
  intros Hq He Hmax. pose proof (Zdigits2_ge_53 q Hq) as Hd.
  unfold binary_round_aux.
  destruct (shr_fexp_quotient q e l) as (mrs' & -> & Hm'); [done|lia|].
  pose proof (round_nearest_even_bounds (shr_m mrs') (loc_of_shr_record mrs'))
    as Hr.
  destruct (shr_fexp_rounded
              (round_nearest_even (shr_m mrs') (loc_of_shr_record mrs'))
              (e + (Zdigits2 q - 53)))
    as (mrs'' & e'' & -> & Hm'' & He''); [lia|lia|].
  destruct (shr_m mrs'') as [|m|m]; [lia| |lia].
  rewrite (proj2 (Z.leb_le e'' (emax - prec))) by (unfold emax, prec; lia).
  exists m, e''. split; [done|]. lia.
Qed.

Lemma binary_round_aux_canonical sx m e :
  2 ^ 52 ≤ Zpos m < 2 ^ 53 → -1074 ≤ e ≤ 971 →
  binary_round_aux prec emax sx (Zpos m) e loc_Exact = S754_finite sx m e.
Proof.
  intros Hm He. unfold binary_round_aux.
  rewrite shr_fexp_keep by solve_digits. simpl.
  rewrite shr_fexp_keep by solve_digits. simpl.
  by rewrite (proj2 (Z.leb_le e (emax - prec))) by (unfold emax, prec; lia).
Qed.

(** The quotient of two positive numbers of comparable size is a normal
    number, at most four times and at least the ratio of the powers of two
    below them. *)
Lemma SFdiv_normal mx ex my ey :
  Zdigits2 (Zpos mx) ≤ 53 →
  -1021 ≤ mag mx ex - mag my ey ≤ 1022 →
  ∃ m e, SFdiv prec emax (S754_finite false mx ex) (S754_finite false my ey)
         = S754_finite false m e
    ∧ 2 ^ 52 ≤ Zpos m < 2 ^ 53
    ∧ mag mx ex - mag my ey ≤ mag m e ≤ mag mx ex - mag my ey + 2.
Proof.
  unfold mag. intros Hdx HD.
  pose proof (Zdigits2_bounds mx) as Hmx. pose proof (Zdigits2_bounds my) as Hmy.
  pose proof (Zdigits2_pos mx) as Hpx. pose proof (Zdigits2_pos my) as Hpy.
  set (d1 := Zdigits2 (Zpos mx)) in *. set (d2 := Zdigits2 (Zpos my)) in *.
  unfold SFdiv. rewrite SFdiv_core_binary_eq. cbv zeta. fold d1 d2.
  rewrite fexp_normal by lia.
  replace (Z.min (d1 + ex - (d2 + ey) - 53) (ex - ey))
    with (d1 + ex - (d2 + ey) - 53) by lia.
  replace (ex - ey - (d1 + ex - (d2 + ey) - 53)) with (53 - d1 + d2) by lia.
  destruct (53 - d1 + d2) as [|s|s] eqn:Hs; [lia| |lia].
  rewrite Z.shiftl_mul_pow2 by lia. rewrite <- Hs.
  assert (2 ^ 52 ≤ Zpos mx * 2 ^ (53 - d1 + d2) / Zpos my < 2 ^ 54) as Hq.
  { assert (2 ^ (d1 - 1) * 2 ^ (53 - d1 + d2) = 2 ^ 52 * 2 ^ d2) as Hlow.
    { rewrite <- !Z.pow_add_r by lia. f_equal. lia. }
    assert (2 ^ d1 * 2 ^ (53 - d1 + d2) = 2 ^ 54 * 2 ^ (d2 - 1)) as Hhigh.
    { rewrite <- !Z.pow_add_r by lia. f_equal. lia. }
    assert (0 < 2 ^ (53 - d1 + d2)) by (apply Z.pow_pos_nonneg; lia).
    split.
    - apply Z.div_le_lower_bound; [lia|]. nia.
    - apply Z.div_lt_upper_bound; [lia|]. nia. }
  set (q := Zpos mx * 2 ^ (53 - d1 + d2) / Zpos my) in *.
  assert (53 ≤ Zdigits2 q ≤ 54) as Hdq.
  { split; [apply Zdigits2_ge_53; lia|].
    destruct q as [|pq|pq]; [lia| |lia].
    pose proof (Zdigits2_bounds pq) as Hpq.
    destruct (Z_lt_le_dec 54 (Zdigits2 (Zpos pq))) as [Hgt|]; [|done].
    assert (2 ^ 54 ≤ 2 ^ (Zdigits2 (Zpos pq) - 1))
      by (apply Z.pow_le_mono_r; lia). lia. }
  destruct (binary_round_aux_normal false q (d1 + ex - (d2 + ey) - 53)
              (new_location (Zpos my)
                 ((Zpos mx * 2 ^ (53 - d1 + d2)) mod Zpos my)))
    as (m & e & Hdiv & Hm & He); [lia | lia | lia |].
  exists m, e. split; [done|]. split; [done|].
  rewrite (Zdigits2_53 (Zpos m)) by done. lia.
Qed.

(** *** [float(n)] *)

Lemma iter_xO p d : Zpos (Pos.iter xO p d) = Zpos p * 2 ^ Zpos d.
Proof.
  induction d as [|d IH] using Pos.peano_ind; [simpl; lia|].
  rewrite Pos.iter_succ, Pos2Z.inj_xO, IH, Pos2Z.inj_succ, Z.pow_succ_r; lia.
Qed.

Lemma of_int_small n :
  0 < n < 2 ^ 63 →
  ∃ m e, of_int n = Some (S754_finite false m e)
    ∧ 2 ^ 52 ≤ Zpos m < 2 ^ 53 ∧ 1 ≤ mag m e ≤ 64.
Proof.
  intros Hn. destruct n as [|p|p]; [lia| |lia].
  pose proof (Zdigits2_bounds p) as Hp. pose proof (Zdigits2_pos p) as Hpos.
  assert (Zdigits2 (Zpos p) ≤ 63) as Hd.
  { destruct (Z_lt_le_dec 63 (Zdigits2 (Zpos p))) as [Hgt|]; [|done].
    assert (2 ^ 63 ≤ 2 ^ (Zdigits2 (Zpos p) - 1))
      by (apply Z.pow_le_mono_r; lia). lia. }
  unfold of_int, binary_normalize, binary_round.
  change (Z.pos (digits2_pos p)) with (Zdigits2 (Zpos p)).
  rewrite Z.add_0_r, fexp_normal by lia.
  set (d := Zdigits2 (Zpos p)) in *.
  destruct (Z_le_gt_dec d 53) as [Hsmall|Hlarge].
  - assert (∃ m, shl_align p 0 (d - 53) = (m, d - 53)
                 ∧ Zpos m = Zpos p * 2 ^ (53 - d)) as (m & -> & Hm).
    { unfold shl_align. destruct (d - 53 - 0) as [|k|k] eqn:Hk; [|lia|].
      - exists p. split; [f_equal; lia|].
        replace (53 - d) with 0 by lia. lia.
      - exists (Pos.iter xO p k). split; [done|].
        rewrite iter_xO. f_equal. f_equal. lia. }
    assert (2 ^ 52 ≤ Zpos m < 2 ^ 53) as Hbounds.
    { rewrite Hm.
      assert (2 ^ (d - 1) * 2 ^ (53 - d) = 2 ^ 52) as Hlow
        by (rewrite <- Z.pow_add_r by lia; f_equal; lia).
      assert (2 ^ d * 2 ^ (53 - d) = 2 ^ 53) as Hhigh
        by (rewrite <- Z.pow_add_r by lia; f_equal; lia).
      assert (0 < 2 ^ (53 - d)) by (apply Z.pow_pos_nonneg; lia).
      nia. }
    rewrite binary_round_aux_canonical by solve_digits.
    exists m, (d - 53). split; [done|]. split; [done|].
    unfold mag. rewrite (Zdigits2_53 (Zpos m)) by done. lia.
  - assert (shl_align p 0 (d - 53) = (p, 0)) as ->.
    { unfold shl_align. by destruct (d - 53 - 0) as [|k|k] eqn:Hk; [lia| |lia]. }
    assert (2 ^ 52 ≤ Zpos p) as Hlow.
    { assert (2 ^ 52 ≤ 2 ^ (d - 1)) by (apply Z.pow_le_mono_r; lia). lia. }
    destruct (binary_round_aux_normal false (Zpos p) 0 loc_Exact)
      as (m & e & -> & Hm & He); [done | lia | fold d; lia |].
    fold d in He. exists m, e. split; [done|]. split; [done|].
    unfold mag. rewrite (Zdigits2_53 (Zpos m)) by done. lia.
Qed.

(** *** The two divisions of the WCPM *)

Lemma positive_cases x :
  SFltb zero x = true ↔ x = S754_infinity false ∨ ∃ m e, x = S754_finite false m e.
Proof.
  destruct x as [s|[]| |[] m e]; split; try done; try (intros [|(? & ? & ?)]; done).
  - intros _. by left.
  - intros _. right. by eexists _, _.
Qed.

Lemma positive_not_zero x : SFltb zero x = true → SFeqb x zero = false.
Proof. intros [->|(m & e & ->)]%positive_cases; done. Qed.

Lemma positive_quotient d :
  SFltb zero (SFdiv prec emax d sixty) = true → SFltb zero d = true.
Proof.
  destruct d as [s|[]| |[] m e]; try done.
  pose proof (SFdiv_finite_sign true m e false 8444249301319680 (-47)) as Hs.
  intros [Hq|(? & ? & Hq)]%positive_cases; unfold sixty in Hq;
    by rewrite Hq in Hs.
Qed.

Lemma of_int_nat (n : nat) :
  Z.of_nat n < 2 ^ 63 →
  ∃ hits, of_int (Z.of_nat n) = Some hits
    ∧ (hits = zero
       ∨ ∃ m e, hits = S754_finite false m e
           ∧ 2 ^ 52 ≤ Zpos m < 2 ^ 53 ∧ 1 ≤ mag m e ≤ 64).
Proof.
  intros Hn. destruct (Z.of_nat n) as [|p|p] eqn:Hp; [|  |lia].
  - exists zero. split; [done | by left].
  - destruct (of_int_small (Zpos p)) as (m & e & Hh & ?); [lia|].
    eexists. split; [done|]. right. by eexists _, _.
Qed.

Lemma quotient_not_negative hits dm :
  (hits = zero ∨ ∃ m e, hits = S754_finite false m e) →
  SFltb zero dm = true →
  not_negative (SFdiv prec emax hits dm).
Proof.
  intros [->|(m & e & ->)] [->|(m' & e' & ->)]%positive_cases; try done.
  pose proof (SFdiv_finite_sign false m e false m' e') as Hs.
  unfold not_negative. by destruct (SFdiv _ _ _ _).
Qed.

(** A [float] that is at least [2 ** -950] is the positive infinity or a
    normal number. *)
Lemma at_least_tiny d :
  is_float d → SFleb tiny d = true →
  d = S754_infinity false
  ∨ ∃ m e, d = S754_finite false m e
      ∧ Zdigits2 (Zpos m) = 53 ∧ -949 ≤ mag m e ≤ 1024.
Proof.
  unfold is_float, SFleb, tiny. intros Hvalid Hle.
  destruct d as [s|[]| |[] m e]; try done; [by left|]. right.
  exists m, e. split; [done|].
  assert (-1002 ≤ e) as He.
  { destruct (Z_lt_le_dec e (-1002)) as [Hlt|]; [|done].
    assert ((-1002 ?= e) = Gt) as Hgt by (apply Z.compare_gt_iff; lia).
    unfold SFcompare in Hle. by rewrite Hgt in Hle. }
  simpl in Hvalid. unfold bounded, canonical_mantissa in Hvalid.
  apply andb_prop in Hvalid as [Hcan Hmax].
  apply Z.eqb_eq in Hcan. apply Z.leb_le in Hmax.
  change (Z.pos (digits2_pos m)) with (Zdigits2 (Zpos m)) in Hcan.
  unfold fexp, emin, prec, emax in *. unfold mag. lia.
Qed.

Lemma ordinary_duration n_hits hits d :
  of_int (Z.of_nat n_hits) = Some hits →
  Z.of_nat n_hits < 2 ^ 63 →
  is_float d → SFleb tiny d = true →
  SFltb zero (SFdiv prec emax d sixty) = true
  ∧ is_finite (SFdiv prec emax hits (SFdiv prec emax d sixty)) = true.
Proof.
  intros Hhits Hn Hvalid Hle.
  destruct (of_int_nat n_hits Hn) as (hits' & Hhits' & Hcases).
  rewrite Hhits in Hhits'. injection Hhits' as <-.
  destruct (at_least_tiny d Hvalid Hle) as [->|(m & e & -> & Hd & Hmag)].
  - split; [done|]. by destruct Hcases as [->|(? & ? & -> & _)].
  - assert (mag 8444249301319680 (-47) = 6) as Hsixty by done.
    destruct (SFdiv_normal m e 8444249301319680 (-47))
      as (m' & e' & Hdm & Hm' & Hmag'); [lia | rewrite Hsixty; lia |].
    rewrite Hsixty in Hmag'.
    fold sixty in Hdm. rewrite Hdm. split; [done|].
    destruct Hcases as [->|(mh & eh & -> & Hmh & Hmagh)]; [done|].
    destruct (SFdiv_normal mh eh m' e') as (mw & ew & -> & _);
      [rewrite (Zdigits2_53 (Zpos mh)) by done; lia | lia | done].
Qed.
End binary64_facts.

(** * The claims *)

(** C1. For every pair of word sequences, the four lists returned by
    [align_sequences] satisfy both counting invariants:
    hits + substitutions + deletions is the length of the reference and
    hits + substitutions + insertions is the length of the hypothesis. *)
Theorem align_sequences_counts (reference hypothesis : list token) :
  all_words reference → all_words hypothesis →
  ∃ hits substitutions insertions deletions,
    align_sequences reference hypothesis
    = Some (hits, substitutions, insertions, deletions)
    ∧ length hits + length substitutions + length deletions = length reference
    ∧ length hits + length substitutions + length insertions
      = length hypothesis.
Proof.
  intros Href Hhyp.
  destruct (align_sequences_deltas reference hypothesis (λ _ _ _ _, True))
    as (ops & Hcover & _ & ->); [done..|].
  destruct (deltas_counts reference hypothesis Href Hhyp _ ops 0 0 Hcover)
    as [Hr Hh].
  destruct (deltas reference hypothesis ops) as [[[hits subs] ins] dels].
  exists hits, subs, ins, dels. unfold ref_count, hyp_count in *. unfold_al.
  split_and!; [done | lia | lia].
Qed.

Lemma align_sequences_counts_witness :
  all_words ["the"; "cat"; "sat"] ∧ all_words ["the"; "dog"; "sat"; "down"]
  ∧ ∃ hits substitutions insertions deletions,
      align_sequences ["the"; "cat"; "sat"] ["the"; "dog"; "sat"; "down"]
      = Some (hits, substitutions, insertions, deletions)
      ∧ length hits + length substitutions + length deletions = 3
      ∧ length hits + length substitutions + length insertions = 4.
Proof.
  assert (all_words ["the"; "cat"; "sat"]) as H1 by (repeat constructor; done).
  assert (all_words ["the"; "dog"; "sat"; "down"]) as H2
    by (repeat constructor; done).
  split_and!; [done | done |].
  apply (align_sequences_counts ["the"; "cat"; "sat"]
           ["the"; "dog"; "sat"; "down"] H1 H2).
Defined.

(** C9. Every pair in the list of hits returned by [align_sequences] has
    its reference token equal to its hypothesis token. *)
Theorem align_sequences_hits_equal (reference hypothesis : list token) :
  ∃ hits substitutions insertions deletions,
    align_sequences reference hypothesis
    = Some (hits, substitutions, insertions, deletions)
    ∧ Forall (λ p, p.1 = p.2) hits.
Proof.
  destruct (align_sequences_deltas reference hypothesis (λ _ _ _ _, True))
    as (ops & Hcover & _ & ->); [done..|].
  destruct (deltas_pairs reference hypothesis _ ops 0 0 _ _ Hcover) as [Hh _].
  destruct (deltas reference hypothesis ops) as [[[hits subs] ins] dels].
  by exists hits, subs, ins, dels.
Qed.

(** C2, as stated, fails where the matcher drops popular tokens:
    the reference [x a] and the hypothesis [y a a ... a] share the run [a],
    yet no block is selected and the whole pair becomes one replace. *)
Lemma partition_counterexample :
  Difflib.get_opcodes ["x"; "a"] popular_hypothesis
  = Some [(OpReplace, 0, 2, 0, 201)]
  ∧ ¬ spec_partition ["x"; "a"] popular_hypothesis 0 2 0 201
        [(OpReplace, 0, 2, 0, 201)].
Proof.
  split; [by vm_compute|].
  intros Hspec. inversion Hspec as [? ? ? ? Hnone|]; subst.
  - apply (Hnone 1 1 1); [lia|]. unfold common_run. split_and!; try lia.
    by vm_compute.
  - match goal with H : ?before ++ _ :: _ = _ |- _ =>
      destruct before as [|? [|??]]; simplify_eq/= end.
Qed.

(** C2 (amended). When no token of the hypothesis is popular (it has fewer
    than 200 tokens, or none of its tokens occurs in it more than
    [len // 100 + 1] times), the opcodes of the aligner are those of the
    recursive longest-matching-block partition of the specification, with
    its tie-break (smallest reference index, then smallest hypothesis
    index); that partition is unique. *)
Theorem opcodes_are_spec_partition (reference hypothesis : list token) :
  no_popular hypothesis →
  ∃ ops, Difflib.get_opcodes reference hypothesis = Some ops
    ∧ spec_partition reference hypothesis
        0 (length reference) 0 (length hypothesis) ops
    ∧ ∀ ops', spec_partition reference hypothesis
                0 (length reference) 0 (length hypothesis) ops' → ops' = ops.
Proof.
  intros Hlen.
  destruct (get_opcodes_partition reference hypothesis Hlen) as (ops & Hops & Hspec).
  exists ops. split_and!; [done..|].
  intros ops' Hspec'. by eapply spec_partition_unique.
Qed.

Lemma opcodes_are_spec_partition_witness :
  ∃ ops, Difflib.get_opcodes ["a"; "b"; "x"; "c"] distinct_hypothesis
         = Some ops
    ∧ spec_partition ["a"; "b"; "x"; "c"] distinct_hypothesis
        0 4 0 (length distinct_hypothesis) ops
    ∧ ∀ ops', spec_partition ["a"; "b"; "x"; "c"] distinct_hypothesis
                0 4 0 (length distinct_hypothesis) ops' → ops' = ops.
Proof.
  apply (opcodes_are_spec_partition ["a"; "b"; "x"; "c"] distinct_hypothesis).
  right. apply (bool_decide_unpack _). by vm_compute.
Defined.

(** C10, as stated, fails on the same input: the replace block pairs the
    popular token ["a"] with itself. *)
Lemma substitution_counterexample :
  align_sequences ["x"; "a"] popular_hypothesis
  = Some ([], [("x", "y"); ("a", "a")], replicate 199 "a", [])
  ∧ ¬ Forall (λ p : token * token, p.1 ≠ p.2) [("x", "y"); ("a", "a")].
Proof.
  split; [by vm_compute|].
  intros Hall. apply Forall_cons in Hall as [_ Hall].
  by apply Forall_cons in Hall as [Hne _].
Qed.

(** C10 (amended). When no token of the hypothesis is popular (it has
    fewer than 200 tokens, or none of its tokens occurs in it more than
    [len // 100 + 1] times), every substitution pair returned by
    [align_sequences] has two different tokens: the two sides of a replace
    block share no token. *)
Theorem align_sequences_substitutions_differ (reference hypothesis : list token) :
  no_popular hypothesis →
  ∃ hits substitutions insertions deletions,
    align_sequences reference hypothesis
    = Some (hits, substitutions, insertions, deletions)
    ∧ Forall (λ p, p.1 ≠ p.2) substitutions.
Proof.
  intros Hlen.
  destruct (align_sequences_deltas reference hypothesis
              (disjoint reference hypothesis))
    as (ops & Hcover & _ & ->).
  - intros alo blo bhi p q ? ?. lia.
  - intros alo ahi blo p q ? ?. lia.
  - intros alo ahi blo bhi i j ? ? ?. by eapply flm_zero_disjoint.
  - destruct (deltas_pairs reference hypothesis _ ops 0 0 _ _ Hcover) as [_ Hs].
    specialize (Hs (λ _ _ _ _ H, H)).
    destruct (deltas reference hypothesis ops) as [[[hits subs] ins] dels].
    by exists hits, subs, ins, dels.
Qed.

Lemma align_sequences_substitutions_differ_witness :
  ∃ hits substitutions insertions deletions,
    align_sequences ["a"; "?"; "c"] distinct_hypothesis
    = Some (hits, substitutions, insertions, deletions)
    ∧ Forall (λ p, p.1 ≠ p.2) substitutions.
Proof.
  apply (align_sequences_substitutions_differ ["a"; "?"; "c"]
           distinct_hypothesis).
  right. apply (bool_decide_unpack _). by vm_compute.
Defined.

(** C3. At a replace opcode over the reference range [(i1, i2)] and the
    hypothesis range [(j1, j2)] of two word sequences, the classifier does
    the walk of the specification: offset [k] from 0 to
    [max(i2−i1, j2−j1)−1], a substitution pair where both tokens exist, a
    deletion where only the reference token exists, an insertion where only
    the hypothesis token exists. *)
Theorem replace_is_positional (reference hypothesis : list token)
    (st : alignment) (i1 i2 j1 j2 : nat) :
  all_words reference → all_words hypothesis →
  i1 ≤ i2 → i2 ≤ length reference → j1 ≤ j2 → j2 ≤ length hypothesis →
  classify_op reference hypothesis st (OpReplace, i1, i2, j1, j2)
  = Some (spec_replace reference hypothesis i1 i2 j1 j2 st).
Proof.
  intros. destruct st as [[[hits subs] ins] dels]. unfold classify_op.
  by rewrite classify_replace_spec.
Qed.

Lemma replace_is_positional_witness :
  classify_op ["a"; "b"; "c"; "d"] ["a"; "x"; "d"] ([("a", "a")], [], [], [])
    (OpReplace, 1, 3, 1, 2)
  = Some ([("a", "a")], [("b", "x")], [], ["c"]).
Proof.
  apply (replace_is_positional ["a"; "b"; "c"; "d"] ["a"; "x"; "d"]
           ([("a", "a")], [], [], []) 1 3 1 2);
    try (repeat constructor; done); simpl; lia.
Defined.

(** C4. With substitution count S, deletion count D, insertion count I and
    reference length N, the WER of an assessment is (S + D + I) / N when
    N > 0 and 0 when N = 0; it is never negative. *)
Theorem wer_formula (generate_transcript : string → option string)
    (audio target : string) (duration : option Q) (t : string) :
  generate_transcript audio = Some t →
  ∃ r, assess_reading generate_transcript audio target duration = Some r
    ∧ (0 < length (Text.split (clean_text target)) →
       wer r = (Q_of_nat (substitutions r + deletions r + insertions r)
                / Q_of_nat (length (Text.split (clean_text target))))%Q)
    ∧ (length (Text.split (clean_text target)) = 0 → wer r = 0%Q)
    ∧ (0 <= wer r)%Q.
Proof.
  intros Ht.
  destruct (assess_reading_returns _ audio target duration t Ht)
    as (hs & ss & ns & ds & w & c & _ & Hw & _ & ->).
  eexists. split; [done|]. simpl.
  destruct (compute_wer_spec (length ss) (length ds) (length ns)
              (length (Text.split (clean_text target))))
    as (w' & Hw' & ? & ? & ?).
  by simplify_eq.
Qed.

Lemma wer_formula_witness :
  ∃ r, assess_reading (λ _, Some "the cat sat on a mat extra") "a.wav"
         "The cat sat on the mat." None = Some r
    ∧ wer r = (Q_of_nat 2 / Q_of_nat 6)%Q.
Proof.
  destruct (wer_formula (λ _, Some "the cat sat on a mat extra") "a.wav"
              "The cat sat on the mat." None "the cat sat on a mat extra"
              eq_refl) as (r & Hr & Hwer & _).
  exists r. split; [done|].
  rewrite Hwer by (vm_compute; lia).
  vm_compute in Hr. by injection Hr as <-.
Defined.

(** C5. The accuracy of an assessment is 1 − WER, with no clamping: it is
    negative when insertions dominate a short reference. *)
Theorem accuracy_is_one_minus_wer :
  (∀ (generate_transcript : string → option string) (audio target : string)
     (duration : option Q) (t : string),
     generate_transcript audio = Some t →
     ∃ r, assess_reading generate_transcript audio target duration = Some r
       ∧ accuracy r = (1 - wer r)%Q)
  ∧ ∃ r, assess_reading (λ _, Some "oh no the dog ran far away") "a.wav"
           "the cat" None = Some r
      ∧ (accuracy r < 0)%Q.
Proof.
  split.
  - intros generate_transcript audio target duration t Ht.
    destruct (assess_reading_returns _ audio target duration t Ht)
      as (hs & ss & ns & ds & w & c & _ & _ & _ & ->).
    by eexists.
  - eexists. split; [by vm_compute|]. by vm_compute.
Qed.

Lemma accuracy_is_one_minus_wer_witness :
  ∃ r, assess_reading (λ _, Some "the cat sat") "a.wav" "the cat sat down"
         (Some 60%Q) = Some r
    ∧ accuracy r = (1 - wer r)%Q.
Proof.
  apply (proj1 accuracy_is_one_minus_wer (λ _, Some "the cat sat") "a.wav"
           "the cat sat down" (Some 60%Q) "the cat sat" eq_refl).
Defined.

Section wcpm_binary64.
Import Binary64.

(** C6, as stated, fails in the arithmetic of the code. For 30 hits and
    the positive duration [2024 * 2 ** -1074], which is [1e-320], the WCPM is
    infinite; for the smallest positive duration, [2 ** -1074], the division
    by 60 gives zero and the WCPM is 0 and not H / (duration / 60). *)
Lemma wcpm_counterexample :
  is_float (S754_finite false 2024 (-1074))
  ∧ Binary64.compute_wcpm 30 (Some (S754_finite false 2024 (-1074)))
    = Some (S754_infinity false)
  ∧ is_float (S754_finite false 1 (-1074))
  ∧ gt_zero (S754_finite false 1 (-1074)) = true
  ∧ Binary64.compute_wcpm 30 (Some (S754_finite false 1 (-1074)))
    = Some zero.
Proof. by vm_compute. Qed.

(** C6 (amended). For every hit count below [2 ** 63], the bound of the
    length of a list, and every duration, the WCPM is computed without
    [ZeroDivisionError] or [OverflowError] and is neither NaN nor negative.
    It is 0.0 when the duration is absent, and when it is zero, negative or
    NaN; otherwise it is 0.0 when [duration / 60] is not positive, and the
    binary64 quotient [H / (duration / 60)] when it is. For a duration of at
    least [2 ** -950] seconds, [duration / 60] is positive and the WCPM is
    that quotient and is finite. *)
Theorem wcpm_formula (n_hits : nat) (duration_seconds : option float) :
  (Z.of_nat n_hits < 2 ^ 63)%Z →
  ∃ w hits,
    of_int (Z.of_nat n_hits) = Some hits
    ∧ Binary64.compute_wcpm n_hits duration_seconds = Some w
    ∧ not_negative w
    ∧ match duration_seconds with
      | None => w = zero
      | Some d =>
          let duration_minutes := quotient d sixty in
          (gt_zero d = false → w = zero)
          ∧ (gt_zero duration_minutes = false → w = zero)
          ∧ (gt_zero duration_minutes = true →
             w = quotient hits duration_minutes)
          ∧ (is_float d → SFleb tiny d = true →
             gt_zero duration_minutes = true ∧ is_finite w = true)
      end.
Proof.
  intros Hn. destruct (of_int_nat n_hits Hn) as (hits & Hhits & Hcases).
  destruct duration_seconds as [d|]; [|by exists zero, hits].
  assert (hits = zero ∨ ∃ m e, hits = S754_finite false m e) as Hcases'.
  { destruct Hcases as [?|(m & e & ? & _)]; [by left|]. right. by eexists _, _. }
  pose proof (ordinary_duration n_hits hits d Hhits Hn) as Hordinary.
  unfold Binary64.compute_wcpm. change (of_int 60) with (Some sixty).
  cbv [mbind option_bind].
  change (div d sixty) with (Some (quotient d sixty)).
  cbv iota beta zeta. unfold gt_zero, quotient in *.
  destruct (SFeqb d zero) eqn:Hzero.
  { assert (SFltb zero (SFdiv prec emax d sixty) = false) as Hdm
      by by destruct d as [s|[]| |[] m e].
    exists zero, hits. split_and!; try done.
    - by rewrite Hdm.
    - intros Hvalid Hle. destruct (Hordinary Hvalid Hle) as [Hpos _].
      by rewrite Hdm in Hpos. }
  destruct (SFltb zero (SFdiv prec emax d sixty)) eqn:Hdm.
  - rewrite Hhits. unfold div, quotient. rewrite (positive_not_zero _ Hdm).
    eexists _, hits. split_and!; try done.
    + by apply quotient_not_negative.
    + intros Hd. apply positive_quotient in Hdm. by rewrite Hdm in Hd.
  - exists zero, hits. split_and!; try done.
    intros Hvalid Hle. by destruct (Hordinary Hvalid Hle).
Qed.

Lemma wcpm_formula_witness :
  ∃ w hits,
    of_int 30 = Some hits
    ∧ Binary64.compute_wcpm 30 (Some sixty) = Some w
    ∧ w = quotient hits (quotient sixty sixty)
    ∧ is_finite w = true.
Proof.
  destruct (wcpm_formula 30 (Some sixty)) as (w & hits & Hhits & Hw & _ & Hd);
    [by vm_compute|].
  destruct Hd as (_ & _ & Hquot & Hfinite).
  exists w, hits. split_and!; [done | done | by apply Hquot |].
  by apply Hfinite.
Defined.
End wcpm_binary64.

(** C7. The normaliser is the one of the specification. The tokens are
    those of the specification's four steps, written on their own: strip
    the characters that are neither word characters nor whitespace,
    collapse each run of whitespace to a single separator, lowercase, split
    on whitespace. The cleaned text is these tokens with one space between
    two of them, so that no run of whitespace is left. No token is empty or
    holds whitespace; empty or whitespace-only input gives no token; and
    ["Hello, world!! Foo-bar."] gives [hello], [world], [foobar]. The text is
    one of code points 0 to 255. *)
Theorem normalizer_contract :
  (∀ text, Text.split (clean_text text) = spec_normalize text)
  ∧ (∀ text, clean_text text = String.concat " " (spec_normalize text))
  ∧ (∀ text,
       Forall (λ w : token,
                 w ≠ "" ∧ ∀ c, c ∈ list_ascii_of_string w →
                            spec_is_space c = false)
              (Text.split (clean_text text)))
  ∧ (∀ text,
       Forall (λ c, spec_is_space c = true) (list_ascii_of_string text) →
       Text.split (clean_text text) = [])
  ∧ Text.split (clean_text "Hello, world!! Foo-bar.")
    = ["hello"; "world"; "foobar"].
Proof.
  assert (∀ text, Text.split (clean_text text) = spec_normalize text) as Hspec.
  { intros text. unfold spec_normalize, clean_text, Text.split.
    rewrite list_ascii_of_string_of_list_ascii, split_lower_strip.
    by rewrite spec_strip_chars_code, spec_collapse_code, spec_lowercase_code,
      spec_split_code. }
  split_and!; [done| | | |by vm_compute].
  - intros text. rewrite <- Hspec.
    unfold Text.split, clean_text.
    rewrite list_ascii_of_string_of_list_ascii.
    fold (clean_chars (list_ascii_of_string text)).
    by rewrite concat_unwords, split_clean_chars, clean_chars_unwords.
  - intros text. unfold Text.split. apply Forall_fmap.
    eapply Forall_impl; [apply split_from_words|].
    intros w [Hw Hchars]. simpl.
    split; [by apply string_of_list_ascii_nonempty|].
    intros c. rewrite list_ascii_of_string_of_list_ascii, spec_is_space_code.
    by intros [_ [?%elem_of_nil|Hsp]]%Hchars.
  - intros text Hws. unfold Text.split, clean_text.
    rewrite list_ascii_of_string_of_list_ascii, split_lower_strip.
    rewrite split_from_spaces; [done|].
    unfold Text.lower. apply Forall_fmap.
    eapply Forall_impl; [apply sub_spaces_all_spaces|].
    + unfold Text.sub_non_word. apply Forall_forall.
      intros c [_ Hc]%list_elem_of_filter.
      rewrite Forall_forall in Hws. rewrite <- spec_is_space_code.
      by apply Hws.
    + intros c ?. simpl. by rewrite is_space_lower.
Qed.

Lemma normalizer_contract_witness :
  Text.split (clean_text "  	  ") = [].
Proof.
  apply (proj1 (proj2 (proj2 (proj2 normalizer_contract))) "  	  ").
  repeat constructor.
Defined.

(** C8, as stated, fails: validation counts the whitespace-separated words
    of the raw target text, not its tokens. A text of ten raw words of
    which one is a lone punctuation mark has nine tokens and passes. *)
Lemma validation_counterexample :
  length (Text.split (clean_text "a b c d e f g h i !")) = 9
  ∧ validate_inputs (λ _, inr [1%Q]) "" "a.wav" "a b c d e f g h i !" = []
  ∧ ∃ r, process_assessment (λ _, Some "a b c") (λ _, inr [1%Q]) ""
           "a.wav" "a b c d e f g h i !" None = Assessed r.
Proof. split_and!; [by vm_compute | by vm_compute |]. eexists. by vm_compute. Qed.

(** C8 (amended). Whenever the raw target text splits on whitespace into
    fewer than 10 words, validation reports
    ["Text too short (minimum 10 words)"] after all the problems found with
    the audio, and the request fails with that complete list, without
    metrics. *)
Theorem short_text_fails_validation
    (generate_transcript : string → option string)
    (load : string → string + list Q) (max_empty : string)
    (audio_path target : string) (duration : option Q) :
  length (Text.split target) < 10 →
  validate_inputs load max_empty audio_path target
  = audio_errors load max_empty audio_path
    ++ ["Text too short (minimum 10 words)"]
  ∧ process_assessment generate_transcript load max_empty audio_path target
      duration
    = ValidationFailed
        (audio_errors load max_empty audio_path
         ++ ["Text too short (minimum 10 words)"]).
Proof.
  intros Hshort.
  assert (validate_inputs load max_empty audio_path target
          = audio_errors load max_empty audio_path
            ++ ["Text too short (minimum 10 words)"]) as Hval.
  { unfold validate_inputs. by rewrite bool_decide_eq_true_2. }
  split; [done|]. unfold process_assessment. rewrite Hval.
  by destruct (audio_errors load max_empty audio_path).
Qed.

Lemma short_text_fails_validation_witness :
  process_assessment (λ _, Some "one two three") (λ _, inr [])
    "max() arg is an empty sequence" "a.wav" "one two three four five" None
  = ValidationFailed
      ["Audio file too short";
       "Cannot read audio file: max() arg is an empty sequence";
       "Text too short (minimum 10 words)"].
Proof.
  apply (short_text_fails_validation (λ _, Some "one two three") (λ _, inr [])
           "max() arg is an empty sequence" "a.wav" "one two three four five"
           None).
  vm_compute. lia.
Defined.

(** * Further properties of the alignment *)

Lemma slice_drop (l : list token) i i2 :
  i ≤ i2 → slice l i i2 ++ drop i2 l = drop i l.
Proof.
  intros ?. unfold slice. replace i2 with (i + (i2 - i)) at 2 by lia.
  by rewrite <- drop_drop, take_drop.
Qed.

Lemma fst_zip_take {A B} (l : list A) (k : list B) :
  (zip l k).*1 = take (length k) l.
Proof.
  revert k. induction l as [|x l IH]; intros [|y k]; simpl; try done.
  by rewrite IH.
Qed.

Lemma snd_zip_take {A B} (l : list A) (k : list B) :
  (zip l k).*2 = take (length l) k.
Proof.
  revert k. induction l as [|x l IH]; intros [|y k]; simpl; try done.
  by rewrite IH.
Qed.

Section tokens_accounted.
Context (a b : list token).
Hypothesis Ha : all_words a.
Hypothesis Hb : all_words b.

Lemma op_delta_tokens G tag i1 i2 j1 j2 :
  op_ok a b G (tag, i1, i2, j1, j2) → i2 ≤ length a → j2 ≤ length b →
  ref_tokens (op_delta a b (tag, i1, i2, j1, j2)) = slice a i1 i2
  ∧ hyp_tokens (op_delta a b (tag, i1, i2, j1, j2)) = slice b j1 j2.
Proof.
  intros (Hi & Hj & Htag) Hla Hlb. unfold op_delta.
  pose proof (length_slice a i1 i2 Hi Hla) as Hra.
  pose proof (length_slice b j1 j2 Hj Hlb) as Hrb.
  destruct tag; [|rewrite (classify_replace_closed a b Ha Hb)|..];
    unfold ref_tokens, hyp_tokens; unfold_al;
    rewrite ?fst_zip_take, ?snd_zip_take, ?app_nil_r, ?take_drop.
  - destruct Htag as (_ & Hlen & _).
    rewrite !take_ge by lia. done.
  - done.
  - destruct Htag as [_ ->]. split; [done|]. unfold slice.
    by rewrite Nat.sub_diag.
  - destruct Htag as [-> _]. split; [|done]. unfold slice.
    by rewrite Nat.sub_diag.
Qed.

Lemma al_app_tokens x y :
  ref_tokens (al_app x y) ≡ₚ ref_tokens x ++ ref_tokens y
  ∧ hyp_tokens (al_app x y) ≡ₚ hyp_tokens x ++ hyp_tokens y.
Proof.
  destruct x as [[[h1 s1] n1] d1], y as [[[h2 s2] n2] d2].
  unfold ref_tokens, hyp_tokens. unfold_al. rewrite !fmap_app.
  split; solve_Permutation.
Qed.

Lemma deltas_tokens G ops i j :
  ops_cover a b G i j ops (length a) (length b) →
  ref_tokens (deltas a b ops) ≡ₚ drop i a
  ∧ hyp_tokens (deltas a b ops) ≡ₚ drop j b.
Proof.
  revert i j. induction ops as [|[[[[tag i1] i2] j1] j2] ops IH]; intros i j;
    unfold deltas; cbn [ops_cover foldr].
  - intros [-> ->]. rewrite !drop_all. by unfold ref_tokens, hyp_tokens.
  - fold (deltas a b ops). intros (-> & -> & Hop & Hops).
    pose proof (ops_cover_le _ _ _ _ _ _ _ _ Hops) as [??].
    destruct (IH _ _ Hops) as [IH1 IH2].
    destruct (op_delta_tokens G _ _ _ _ _ Hop) as [H1 H2]; [done..|].
    destruct (al_app_tokens (op_delta a b (tag, i, i2, j, j2)) (deltas a b ops))
      as [-> ->].
    destruct Hop as (? & ? & _).
    rewrite H1, H2, IH1, IH2, !slice_drop by done. done.
Qed.
End tokens_accounted.

(** X1. Every reference word is classified exactly once, as a hit, the
    reference side of a substitution or a deletion, and every hypothesis
    word exactly once, as a hit, the hypothesis side of a substitution or an
    insertion: the lists hold the words of the two sequences, not only as
    many. *)
Theorem align_sequences_accounts_for_words (reference hypothesis : list token) :
  all_words reference → all_words hypothesis →
  ∃ hits substitutions insertions deletions,
    align_sequences reference hypothesis
    = Some (hits, substitutions, insertions, deletions)
    ∧ hits.*1 ++ substitutions.*1 ++ deletions ≡ₚ reference
    ∧ hits.*2 ++ substitutions.*2 ++ insertions ≡ₚ hypothesis.
Proof.
  intros Href Hhyp.
  destruct (align_sequences_deltas reference hypothesis (λ _ _ _ _, True))
    as (ops & Hcover & _ & ->); [done..|].
  destruct (deltas_tokens reference hypothesis Href Hhyp _ ops 0 0 Hcover)
    as [Hr Hh].
  destruct (deltas reference hypothesis ops) as [[[hits subs] ins] dels].
  by exists hits, subs, ins, dels.
Qed.

Lemma align_sequences_accounts_for_words_witness :
  ∃ hits substitutions insertions deletions,
    align_sequences ["the"; "cat"; "sat"] ["the"; "dog"; "sat"; "down"]
    = Some (hits, substitutions, insertions, deletions)
    ∧ hits.*1 ++ substitutions.*1 ++ deletions ≡ₚ ["the"; "cat"; "sat"]
    ∧ hits.*2 ++ substitutions.*2 ++ insertions
      ≡ₚ ["the"; "dog"; "sat"; "down"].
Proof.
  apply (align_sequences_accounts_for_words ["the"; "cat"; "sat"]
           ["the"; "dog"; "sat"; "down"]); repeat constructor; done.
Defined.

Section hits_subsequence.
Context (a b : list token).

Lemma al_hits_app x y : al_hits (al_app x y) = al_hits x ++ al_hits y.
Proof. by destruct x as [[[??]?]?], y as [[[??]?]?]. Qed.

Lemma classify_replace_no_hits i1 i2 j1 j2 :
  al_hits (classify_replace a b al_empty i1 i2 j1 j2) = [].
Proof.
  unfold classify_replace.
  by destruct (replace_fold_pairs (λ _, True) (slice a i1 i2) (slice b j1 j2)
                 (seq 0 (length (slice a i1 i2) `max` length (slice b j1 j2)))
                 al_empty) as [-> _].
Qed.

Lemma drop_sublist_le (l : list token) i i2 :
  i ≤ i2 → drop i2 l `sublist_of` drop i l.
Proof.
  intros ?. replace i2 with (i + (i2 - i)) by lia. rewrite <- drop_drop.
  apply sublist_drop.
Qed.

Lemma deltas_hits_sublist G ops i j :
  ops_cover a b G i j ops (length a) (length b) →
  (al_hits (deltas a b ops)).*1 `sublist_of` drop i a
  ∧ (al_hits (deltas a b ops)).*2 `sublist_of` drop j b.
Proof.
  revert i j. induction ops as [|[[[[tag i1] i2] j1] j2] ops IH]; intros i j;
    unfold deltas; cbn [ops_cover foldr].
  - intros _. split; apply sublist_nil_l.
  - fold (deltas a b ops). intros (-> & -> & Hop & Hops).
    pose proof (ops_cover_le _ _ _ _ _ _ _ _ Hops) as [??].
    destruct (IH _ _ Hops) as [IH1 IH2]. destruct Hop as (Hi & Hj & Htag).
    rewrite al_hits_app, !fmap_app.
    assert ((al_hits (op_delta a b (tag, i, i2, j, j2))).*1 `sublist_of` slice a i i2
            ∧ (al_hits (op_delta a b (tag, i, i2, j, j2))).*2
              `sublist_of` slice b j j2) as [Hs1 Hs2].
    { unfold op_delta. destruct tag; rewrite ?classify_replace_no_hits;
        unfold_al; try (split; apply sublist_nil_l).
      rewrite fst_zip_take, snd_zip_take. split; apply sublist_take. }
    rewrite <- (slice_drop a i i2), <- (slice_drop b j j2) by done.
    split; by apply sublist_app.
Qed.
End hits_subsequence.

(** X2. The hits are a common subsequence of the two sequences: their
    reference tokens appear in the reference in the same order, their
    hypothesis tokens in the hypothesis in the same order, and the two are
    the same list of words. *)
Theorem hits_are_common_subsequence (reference hypothesis : list token) :
  ∃ hits substitutions insertions deletions,
    align_sequences reference hypothesis
    = Some (hits, substitutions, insertions, deletions)
    ∧ hits.*1 `sublist_of` reference
    ∧ hits.*2 `sublist_of` hypothesis
    ∧ hits.*1 = hits.*2.
Proof.
  destruct (align_sequences_deltas reference hypothesis (λ _ _ _ _, True))
    as (ops & Hcover & _ & ->); [done..|].
  destruct (deltas_hits_sublist reference hypothesis _ ops 0 0 Hcover) as [H1 H2].
  destruct (deltas_pairs reference hypothesis _ ops 0 0 _ _ Hcover) as [Heq _].
  destruct (deltas reference hypothesis ops) as [[[hits subs] ins] dels].
  exists hits, subs, ins, dels. unfold_al. split_and!; try done.
  clear -Heq. induction Heq as [|[r t] hits Hrt _ IH]; [done|].
  rewrite !fmap_cons. simpl in Hrt. by f_equal.
Qed.

(** X3. The opcodes the aligner works from tile both sequences: each
    starts where the previous one stops, from [(0, 0)] to the two lengths;
    an equal opcode spans a non-empty run that is the same in both
    sequences, a replace opcode is non-empty on both sides, a delete opcode
    only on the reference side and an insert opcode only on the hypothesis
    side. *)
Theorem opcodes_tile_both_sequences (reference hypothesis : list token) :
  ∃ ops, Difflib.get_opcodes reference hypothesis = Some ops
    ∧ ops_cover reference hypothesis (λ _ _ _ _, True) 0 0 ops
        (length reference) (length hypothesis).
Proof.
  destruct (get_opcodes_cover reference hypothesis (λ _ _ _ _, True))
    as (ops & Hops & Hcover); [done..|].
  by exists ops.
Qed.

Lemma deltas_empty_hypothesis (a : list token) G ops i :
  ops_cover a [] G i 0 ops (length a) 0 →
  deltas a [] ops = ([], [], [], drop i a).
Proof.
  revert i. induction ops as [|[[[[tag i1] i2] j1] j2] ops IH]; intros i;
    unfold deltas; cbn [ops_cover foldr].
  - intros [-> _]. by rewrite drop_all.
  - fold (deltas a [] ops). intros (-> & -> & (Hi & Hj & Htag) & Hops).
    pose proof (ops_cover_le _ _ _ _ _ _ _ _ Hops) as [_ Hj2]. simpl in Hj2.
    assert (j2 = 0) as -> by lia.
    rewrite (IH _ Hops). destruct tag; try lia. unfold op_delta. unfold_al.
    by rewrite slice_drop.
Qed.

Lemma deltas_empty_reference (b : list token) G ops j :
  ops_cover [] b G 0 j ops 0 (length b) →
  deltas [] b ops = ([], [], drop j b, []).
Proof.
  revert j. induction ops as [|[[[[tag i1] i2] j1] j2] ops IH]; intros j;
    unfold deltas; cbn [ops_cover foldr].
  - intros [_ ->]. by rewrite drop_all.
  - fold (deltas [] b ops). intros (-> & -> & (Hi & Hj & Htag) & Hops).
    pose proof (ops_cover_le _ _ _ _ _ _ _ _ Hops) as [Hi2 _]. simpl in Hi2.
    assert (i2 = 0) as -> by lia.
    rewrite (IH _ Hops). destruct tag; try lia. unfold op_delta. unfold_al.
    by rewrite slice_drop.
Qed.

(** X4. Aligned against an empty hypothesis every reference token is a
    deletion, in order, and nothing else is reported; aligned against an
    empty reference every hypothesis token is an insertion. *)
Theorem align_with_an_empty_side (words : list token) :
  align_sequences words [] = Some ([], [], [], words)
  ∧ align_sequences [] words = Some ([], [], words, []).
Proof.
  split.
  - destruct (align_sequences_deltas words [] (λ _ _ _ _, True))
      as (ops & Hcover & _ & ->); [done..|].
    by rewrite (deltas_empty_hypothesis words _ ops 0 Hcover).
  - destruct (align_sequences_deltas [] words (λ _ _ _ _, True))
      as (ops & Hcover & _ & ->); [done..|].
    by rewrite (deltas_empty_reference words _ ops 0 Hcover).
Qed.

(** * A sequence aligned with itself *)

Section identical_facts.
Context (a : list token).

Local Abbreviation n := (length a).
Local Abbreviation present := (present a).
Local Abbreviation run := (run a).

Lemma run_step i k : run i k → present (S i) → run (S i) (S k).
Proof.
  intros Hrun Hp [|d] Hd; [by rewrite Nat.sub_0_r; split; [lia|]|].
  destruct (Hrun d) as [??]; [lia|]. split; [lia|]. done.
Qed.

Lemma run_one i : present i → run i 1.
Proof. intros Hp d Hd. replace d with 0 by lia. by rewrite Nat.sub_0_r; split; [lia|]. Qed.

Lemma run_pred i k : run (S i) (S (S k)) → present i ∧ run i (S k).
Proof.
  intros Hrun. split.
  - destruct (Hrun 1) as [_ Hp]; [lia|]. by replace (S i - 1) with i in Hp by lia.
  - intros d Hd. destruct (Hrun (S d)) as [??]; [lia|]. split; [lia|]. done.
Qed.

Lemma run_zero_bound k : run 0 k → k ≤ 1.
Proof.
  intros Hrun. destruct (decide (k ≤ 1)); [done|].
  destruct (Hrun 1) as [? _]; lia.
Qed.

(** The length computed on the diagonal. *)
Lemma run_diag_bound i (j2len : gmap nat nat) k' :
  (∀ i', i = S i' → present i' →
     ∃ k, j2len !! i' = Some k ∧ ∀ k', run i' k' → k' ≤ k) →
  run i k' → k' ≤ j2lenget_pred j2len i + 1.
Proof.
  intros Hprev Hrun. destruct k' as [|[|k']]; [lia | lia |].
  destruct i as [|i]; [apply run_zero_bound in Hrun; lia|].
  apply run_pred in Hrun as [Hp Hrun].
  destruct (Hprev i eq_refl Hp) as (k & Hk & Hmax). simpl. rewrite Hk. simpl.
  specialize (Hmax _ Hrun). lia.
Qed.

Lemma run_cell i j (j2len : gmap nat nat) :
  (∀ j' k, j2len !! j' = Some k → ∃ i', i = S i' ∧ run i' k ∧ run j' k) →
  present i → present j →
  run i (j2lenget_pred j2len j + 1) ∧ run j (j2lenget_pred j2len j + 1).
Proof.
  intros Hprev Hi Hj. unfold j2lenget_pred.
  destruct j as [|j']; [by split; apply run_one|].
  destruct (j2len !! j') as [k0|] eqn:Hk0; simpl; [|by split; apply run_one].
  destruct (Hprev _ _ Hk0) as (i' & -> & ? & ?).
  replace (k0 + 1) with (S k0) by lia. by split; apply run_step.
Qed.

Lemma scan_row_diagonal i x js (j2len newj2len : gmap nat nat) bi bk :
  a !! i = Some x → is_Some (chain_b a !! x) →
  StronglySorted lt js → (∀ j, j ∈ js → a !! j = Some x) →
  (∀ j k, j2len !! j = Some k → ∃ i', i = S i' ∧ run i' k ∧ run j k) →
  (∀ i', i = S i' → present i' →
     ∃ k, j2len !! i' = Some k ∧ ∀ k', run i' k' → k' ≤ k) →
  (∀ j k, newj2len !! j = Some k → run i k ∧ run j k) →
  (i ∉ js → ∃ k, newj2len !! i = Some k ∧ ∀ k', run i k' → k' ≤ k) →
  (∀ i' k', i' < i → run i' k' → k' ≤ bk) →
  (i ∉ js → ∀ k', run i k' → k' ≤ bk) →
  ∃ newj2len' bi' bk',
    scan_row 0 n i js j2len newj2len (bi, bi, bk) = (newj2len', (bi', bi', bk'))
    ∧ (∀ j k, newj2len' !! j = Some k → run i k ∧ run j k)
    ∧ (∃ k, newj2len' !! i = Some k ∧ ∀ k', run i k' → k' ≤ k)
    ∧ (∀ i' k', i' ≤ i → run i' k' → k' ≤ bk').
Proof.
  intros Hx [js0 Hjs0] Hsort Hjs Hprev Hprevc. revert newj2len bi bk.
  assert (present i) as Hpi by (by exists x, js0).
  induction js as [|j js IH]; intros newj2len bi bk Hnew Hnewc Hrows Hdiag; simpl.
  { exists newj2len, bi, bk. split_and!; [done | done | |].
    - apply Hnewc, not_elem_of_nil.
    - intros i' k' Hi' Hrun. destruct (decide (i' = i)) as [->|].
      + eapply Hdiag; [apply not_elem_of_nil | done].
      + eapply Hrows; [|done]. lia. }
  apply StronglySorted_inv in Hsort as [Hsort Hlt].
  assert (∀ j', j' ∈ js → j < j') as Hlt' by (by apply Forall_forall).
  assert (a !! j = Some x) as Hj by (apply Hjs; by left).
  assert (present j) as Hpj by (by exists x, js0).
  assert (j < n) as Hjn by (by eapply lookup_lt_Some).
  rewrite (bool_decide_eq_false_2 (n ≤ j)) by lia.
  set (k := j2lenget_pred j2len j + 1).
  destruct (run_cell i j j2len Hprev Hpi Hpj) as [Hki Hkj]. fold k in Hki, Hkj.
  assert (∀ j' k0, <[j:=k]> newj2len !! j' = Some k0 → run i k0 ∧ run j' k0)
    as Hnew'.
  { intros j' k0. destruct (decide (j = j')) as [<-|].
    - rewrite lookup_insert_eq. by intros [= <-].
    - rewrite lookup_insert_ne by done. apply Hnew. }
  destruct (decide (j = i)) as [->|Hne].
  - (* the pair on the diagonal *)
    assert (∀ k', run i k' → k' ≤ k) as Hmax.
    { intros k' ?. by apply (run_diag_bound i j2len). }
    assert (i ∉ js) as Hnin by (intros ?%Hlt'; lia).
    case_bool_decide as Hupd; simpl in Hupd.
    + replace (i + 1 - k) with (i + 1 - k) by done.
      apply IH; try done.
      * intros j' ?. apply Hjs. by right.
      * intros _. exists k. by rewrite lookup_insert_eq.
      * intros i' k' ? ?%(Hrows i'); [lia | done].
    + apply IH; try done.
      * intros j' ?. apply Hjs. by right.
      * intros _. exists k. by rewrite lookup_insert_eq.
      * intros _ k' ?%Hmax. lia.
  - (* off the diagonal nothing beats the best so far *)
    assert (k ≤ bk) as Hle.
    { destruct (decide (j < i)); [by eapply Hrows|].
      apply Hdiag; [|done]. intros [->|?%Hlt']%elem_of_cons; lia. }
    rewrite bool_decide_eq_false_2 by (simpl; lia).
    apply IH; try done.
    + intros j' ?. apply Hjs. by right.
    + intros Hnin. destruct Hnewc as (k0 & ? & ?).
      { intros [->|?]%elem_of_cons; done. }
      exists k0. by rewrite lookup_insert_ne.
    + intros Hnin. apply Hdiag. intros [->|?]%elem_of_cons; done.
Qed.

Lemma scan_rows_diagonal m i (j2len : gmap nat nat) bi bk :
  i + m ≤ n →
  (∀ j k, j2len !! j = Some k → ∃ i', i = S i' ∧ run i' k ∧ run j k) →
  (∀ i', i = S i' → present i' →
     ∃ k, j2len !! i' = Some k ∧ ∀ k', run i' k' → k' ≤ k) →
  (∀ i' k', i' < i → run i' k' → k' ≤ bk) →
  ∃ bi' bk',
    scan_rows a (chain_b a) 0 n (seq i m) j2len (bi, bi, bk) = (bi', bi', bk').
Proof.
  revert i j2len bi bk.
  induction m as [|m IH]; intros i j2len bi bk Hm Hprev Hprevc Hrows; simpl;
    [by eauto|].
  destruct (lookup_lt_is_Some_2 a i) as [x Hx]; [lia|]. rewrite Hx.
  destruct (chain_b a !! x) as [js0|] eqn:Hjs0; simpl.
  - destruct (scan_row_diagonal i x js0 j2len ∅ bi bk)
      as (new' & bi' & bk' & -> & Hnew & Hnewc & Hrows'); try done.
    + by eapply chain_b_sorted.
    + intros j ?. by apply (chain_b_lookup_elem a x js0 j).
    + intros []. by apply (chain_b_lookup_elem a x js0 i).
    + intros []. by apply (chain_b_lookup_elem a x js0 i).
    + apply IH; [lia| | |].
      * intros j k ?%Hnew. by exists i.
      * by intros i' [= <-] _.
      * intros i' k' ?. apply Hrows'. lia.
  - apply IH; [lia| | |].
    + intros j k. by rewrite lookup_empty.
    + intros i' [= <-] (x' & js & Hx' & Hjs). congruence.
    + intros i' k' Hi' Hrun. destruct (decide (i' = i)) as [->|].
      * destruct k' as [|k']; [lia|].
        destruct (Hrun 0) as [_ (x' & js & Hx' & Hjs)]; [lia|].
        rewrite Nat.sub_0_r in Hx'. congruence.
      * eapply Hrows; [|done]. lia.
Qed.

Lemma extend_back_diagonal i k :
  i ≤ n → extend_back a a 0 0 false i i k = (0, 0, i + k).
Proof.
  revert k. induction i as [|i IH]; intros k Hi; simpl; [done|].
  destruct (lookup_lt_is_Some_2 a i) as [x Hx]; [lia|].
  unfold isbjunk_at, same_at. rewrite Hx, isbjunk_false.
  rewrite !bool_decide_eq_true_2 by (done || lia). simpl.
  rewrite IH by lia. repeat f_equal. lia.
Qed.

Lemma extend_fwd_diagonal turns k :
  k ≤ n → n ≤ k + turns → extend_fwd a a n n turns false 0 0 k = n.
Proof.
  revert k. induction turns as [|t IH]; intros k Hk Ht; simpl; [lia|].
  destruct (decide (k < n)) as [Hlt|Hge]; cycle 1.
  { rewrite (bool_decide_eq_false_2 (k < n)) by done. simpl. lia. }
  destruct (lookup_lt_is_Some_2 a k) as [x Hx]; [lia|].
  unfold isbjunk_at, same_at. rewrite Hx, isbjunk_false.
  rewrite !bool_decide_eq_true_2 by (done || lia). simpl.
  apply IH; lia.
Qed.

(** Popular elements or not, the longest match of a sequence with itself is
    the whole sequence. *)
Lemma find_longest_match_identical :
  find_longest_match a a (chain_b a) 0 n 0 n = (0, 0, n).
Proof.
  unfold find_longest_match.
  pose proof (longest_junk_free_valid a a (chain_b a) 0 n 0 n
                (chain_b_is_sound a)) as Hok.
  unfold longest_junk_free in *.
  destruct (scan_rows_diagonal (n - 0) 0 ∅ 0 0) as (bi & bk & Hscan).
  - lia.
  - intros j k. by rewrite lookup_empty.
  - done.
  - lia.
  - rewrite Hscan in *. destruct Hok as (_ & ? & _); [lia..|].
    unfold extend at 2. rewrite extend_back_diagonal by lia.
    rewrite extend_fwd_diagonal by lia.
    unfold extend. simpl. by rewrite Nat.sub_diag.
Qed.

Lemma get_opcodes_identical :
  get_opcodes a a
  = Some (if bool_decide (n ≠ 0) then [(OpEqual, 0, n, 0, n)] else []).
Proof.
  unfold get_opcodes.
  rewrite (get_matching_blocks_tree a a (λ _ _ _ _, True)) by done.
  cbv [mbind option_bind]. f_equal.
  cbn [tree_blocks]. rewrite find_longest_match_identical.
  case_bool_decide as Hn.
  - rewrite !andb_false_intro1
      by (apply bool_decide_eq_false; lia).
    simpl. rewrite (bool_decide_eq_true_2 (n ≠ 0)) by done. simpl.
    unfold gap_tag. rewrite !(bool_decide_eq_false_2 (n < n)) by lia. simpl.
    by rewrite bool_decide_eq_true_2.
  - assert (n = 0) as Hn0 by lia. simpl. rewrite Hn0. by simpl.
Qed.
End identical_facts.

(** X5. A sequence aligned with itself gives one hit per token, in order,
    and no substitution, insertion or deletion, whatever its length and
    whatever tokens are popular. *)
Theorem align_identical_sequences (words : list token) :
  align_sequences words words = Some (zip words words, [], [], []).
Proof.
  unfold align_sequences. rewrite get_opcodes_identical.
  cbv [mbind option_bind]. case_bool_decide as Hn; simpl.
  - rewrite (mapM_lookup_zip words words 0 (length words - 0) 0
               (length words - 0)) by lia.
    simpl. by rewrite Nat.sub_0_r, firstn_all.
  - by destruct words.
Qed.
(** * Further properties of an assessment and of validation *)

Lemma Q_of_nat_plus n m : (Q_of_nat (n + m) == Q_of_nat n + Q_of_nat m)%Q.
Proof. unfold Q_of_nat. by rewrite Nat2Z.inj_add, inject_Z_plus. Qed.

Lemma Q_of_nat_lt n m : n < m ↔ (Q_of_nat n < Q_of_nat m)%Q.
Proof. unfold Q_of_nat, Qlt. simpl. lia. Qed.

(** What [assess_reading] returns, with the counting invariants. *)
Lemma assess_reading_counted generate_transcript audio target duration t :
  generate_transcript audio = Some t →
  ∃ hs ss ns ds w c,
    align_sequences (Text.split (clean_text target)) (Text.split (clean_text t))
    = Some (hs, ss, ns, ds)
    ∧ compute_wer (length ss) (length ds) (length ns)
        (length (Text.split (clean_text target))) = Some w
    ∧ compute_wcpm (length hs) duration = Some c
    ∧ assess_reading generate_transcript audio target duration
      = Some (mkORFResults t target c (length hs) (length ss) (length ns)
                (length ds) w (1 - w)%Q (DetailedErrors ss ns ds))
    ∧ length hs + length ss + length ds
      = length (Text.split (clean_text target))
    ∧ length hs + length ss + length ns = length (Text.split (clean_text t)).
Proof.
  intros Ht.
  destruct (assess_reading_returns _ audio target duration t Ht)
    as (hs & ss & ns & ds & w & c & Halign & Hw & Hc & Hr).
  exists hs, ss, ns, ds, w, c. split_and!; try done.
  all: destruct (align_sequences_deltas (Text.split (clean_text target))
              (Text.split (clean_text t)) (λ _ _ _ _, True))
    as (ops & Hcover & _ & Halign'); [done..|];
    destruct (deltas_counts _ _ (split_all_words (clean_text target))
              (split_all_words (clean_text t)) _ ops 0 0 Hcover) as [Href Hhyp];
    rewrite Halign in Halign'; injection Halign' as Heq;
    rewrite <- Heq in Href, Hhyp; unfold ref_count, hyp_count in *; unfold_al; lia.
Qed.

(** X6. A reading whose transcript has the tokens of the target scores
    every token as a hit: no substitution, insertion or deletion, a WER of 0
    and an accuracy of 1. *)
Theorem perfect_reading (generate_transcript : string → option string)
    (audio target : string) (duration : option Q) (t : string) :
  generate_transcript audio = Some t →
  Text.split (clean_text t) = Text.split (clean_text target) →
  ∃ r, assess_reading generate_transcript audio target duration = Some r
    ∧ hits r = length (Text.split (clean_text target))
    ∧ substitutions r = 0 ∧ insertions r = 0 ∧ deletions r = 0
    ∧ (wer r == 0)%Q ∧ (accuracy r == 1)%Q.
Proof.
  intros Ht Hsame.
  destruct (assess_reading_returns _ audio target duration t Ht)
    as (hs & ss & ns & ds & w & c & Halign & Hw & _ & ->).
  rewrite Hsame, align_identical_sequences in Halign.
  injection Halign as <- <- <- <-. eexists. split; [done|]. simpl.
  assert (w == 0)%Q as Hw0.
  { unfold compute_wer in Hw. case_bool_decide as Hn; [|by injection Hw as <-].
    rewrite py_div_pos in Hw by by apply Q_of_nat_pos.
    injection Hw as <-. by unfold Qdiv; rewrite Qmult_0_l. }
  split_and!; try done.
  - by rewrite length_zip, Nat.min_id.
  - rewrite Hw0. done.
Qed.

Lemma perfect_reading_witness :
  ∃ r, assess_reading (λ _, Some "the cat  sat") "a.wav" "The cat sat!" None
       = Some r
    ∧ hits r = 3 ∧ (accuracy r == 1)%Q.
Proof.
  destruct (perfect_reading (λ _, Some "the cat  sat") "a.wav" "The cat sat!"
              None "the cat  sat" eq_refl eq_refl)
    as (r & Hr & Hhits & _ & _ & _ & _ & Hacc).
  exists r. split_and!; done.
Defined.

(** X7. When the target has N > 0 tokens, the accuracy of an assessment is
    (hits − insertions) / N: it is negative exactly when there are more
    insertions than hits. *)
Theorem accuracy_is_hits_minus_insertions
    (generate_transcript : string → option string)
    (audio target : string) (duration : option Q) (t : string) :
  generate_transcript audio = Some t →
  0 < length (Text.split (clean_text target)) →
  ∃ r, assess_reading generate_transcript audio target duration = Some r
    ∧ (accuracy r
       == (Q_of_nat (hits r) - Q_of_nat (insertions r))
          / Q_of_nat (length (Text.split (clean_text target))))%Q
    ∧ ((accuracy r < 0)%Q ↔ hits r < insertions r).
Proof.
  intros Ht HN.
  destruct (assess_reading_counted _ audio target duration t Ht)
    as (hs & ss & ns & ds & w & c & _ & Hw & _ & -> & Href & _).
  eexists. split; [done|]. simpl.
  unfold compute_wer in Hw. rewrite bool_decide_eq_true_2 in Hw by done.
  rewrite py_div_pos in Hw by by apply Q_of_nat_pos. injection Hw as <-.
  pose proof (Q_of_nat_pos _ HN) as Hpos.
  set (N := length (Text.split (clean_text target))) in *.
  assert (1 - Q_of_nat (length ss + length ds + length ns) / Q_of_nat N
          == (Q_of_nat (length hs) - Q_of_nat (length ns)) / Q_of_nat N)%Q as Hacc.
  { rewrite <- Href, !Q_of_nat_plus. field.
    rewrite <- !Q_of_nat_plus, Href. intros Hz. rewrite Hz in Hpos.
    by apply Qlt_irrefl in Hpos. }
  split; [done|]. rewrite Hacc. rewrite Q_of_nat_lt. split.
  - intros Hneg. destruct (Qlt_le_dec (Q_of_nat (length hs)) (Q_of_nat (length ns)))
      as [?|Hge]; [done|]. exfalso. apply (Qlt_irrefl 0).
    eapply Qle_lt_trans; [|apply Hneg]. apply Qdiv_nonneg; [|done].
    exact (proj1 (Qle_minus_iff _ _) Hge).
  - intros Hlt. apply Qlt_shift_div_r; [done|]. rewrite Qmult_0_l.
    apply Qlt_minus_iff in Hlt. apply Qlt_minus_iff.
    assert (0 + - (Q_of_nat (length hs) - Q_of_nat (length ns))
            == Q_of_nat (length ns) + - Q_of_nat (length hs))%Q as -> by ring.
    done.
Qed.

Lemma accuracy_is_hits_minus_insertions_witness :
  ∃ r, assess_reading (λ _, Some "oh no the dog ran far away") "a.wav"
         "the cat" None = Some r
    ∧ ((accuracy r < 0)%Q ↔ hits r < insertions r).
Proof.
  destruct (accuracy_is_hits_minus_insertions
              (λ _, Some "oh no the dog ran far away") "a.wav" "the cat" None
              "oh no the dog ran far away" eq_refl) as (r & Hr & _ & Hiff).
  - vm_compute. lia.
  - by exists r.
Defined.

(** X8. In every assessment the counts add up: hits, substitutions and
    deletions to the number of target tokens, hits, substitutions and
    insertions to the number of transcript tokens. The token lists come from
    [str.split], so no empty token reaches the alignment. *)
Theorem assessment_counts_add_up (generate_transcript : string → option string)
    (audio target : string) (duration : option Q) (t : string) :
  generate_transcript audio = Some t →
  ∃ r, assess_reading generate_transcript audio target duration = Some r
    ∧ transcript r = t
    ∧ hits r + substitutions r + deletions r
      = length (Text.split (clean_text target))
    ∧ hits r + substitutions r + insertions r
      = length (Text.split (clean_text t))
    ∧ length (err_substitutions (detailed r)) = substitutions r
    ∧ length (err_insertions (detailed r)) = insertions r
    ∧ length (err_deletions (detailed r)) = deletions r.
Proof.
  intros Ht.
  destruct (assess_reading_counted _ audio target duration t Ht)
    as (hs & ss & ns & ds & w & c & _ & _ & _ & -> & Href & Hhyp).
  eexists. by split.
Qed.

Lemma assessment_counts_add_up_witness :
  ∃ r, assess_reading (λ _, Some "a big, big dog") "a.wav" "A big red dog."
         (Some 30%Q) = Some r
    ∧ hits r + substitutions r + deletions r = 4.
Proof.
  destruct (assessment_counts_add_up (λ _, Some "a big, big dog") "a.wav"
              "A big red dog." (Some 30%Q) "a big, big dog" eq_refl)
    as (r & Hr & _ & Href & _).
  exists r. split; [done|]. exact Href.
Defined.

(** X9. The metrics of every assessment are in range: WCPM and WER are never
    negative, the accuracy is at most 1, and there are no more hits than
    tokens in the target or in the transcript. *)
Theorem metrics_in_range (generate_transcript : string → option string)
    (audio target : string) (duration : option Q) (t : string) :
  generate_transcript audio = Some t →
  ∃ r, assess_reading generate_transcript audio target duration = Some r
    ∧ (0 <= wcpm r)%Q ∧ (0 <= wer r)%Q ∧ (accuracy r <= 1)%Q
    ∧ hits r ≤ length (Text.split (clean_text target))
    ∧ hits r ≤ length (Text.split (clean_text t)).
Proof.
  intros Ht.
  destruct (assess_reading_counted _ audio target duration t Ht)
    as (hs & ss & ns & ds & w & c & _ & Hw & Hc & -> & Href & Hhyp).
  eexists. split; [done|]. simpl.
  destruct (compute_wer_spec (length ss) (length ds) (length ns)
              (length (Text.split (clean_text target))))
    as (w' & Hw' & _ & _ & Hwpos).
  destruct (compute_wcpm_spec (length hs) duration) as (c' & Hc' & Hcpos & _).
  rewrite Hw in Hw'. rewrite Hc in Hc'. injection Hw' as <-. injection Hc' as <-.
  split_and!; [done | done | | lia | lia].
  apply Qle_minus_iff.
  assert (1 + - (1 - w) == w)%Q as -> by ring. done.
Qed.

Lemma metrics_in_range_witness :
  ∃ r, assess_reading (λ _, Some "oh no") "a.wav" "the cat" (Some (-5)%Q)
       = Some r
    ∧ (0 <= wcpm r)%Q ∧ (accuracy r <= 1)%Q.
Proof.
  destruct (metrics_in_range (λ _, Some "oh no") "a.wav" "the cat"
              (Some (-5)%Q) "oh no" eq_refl) as (r & Hr & Hc & _ & Ha & _).
  exists r. split_and!; done.
Defined.

(** * Validation and the request *)

Section validation_facts.
Context (generate_transcript : string → option string).
Context (load : string → string + list Q).
Context (max_empty : string).

(** Closes a goal [m ∈ errors → _] when [m] is none of the messages. *)
Ltac other_message :=
  let Hin := fresh "Hin" in
  intros Hin;
  repeat match goal with
         | H : _ ∨ _ |- _ => destruct H as [H|H]
         | H : False |- _ => destruct H
         | H : @eq string _ _ |- _ => discriminate H
         end.

(** X10. "Audio file too short" is reported exactly when the loaded audio has
    no sample at all: the check compares the number of samples, not a
    duration, with 1. *)
Theorem too_short_iff_no_samples (audio_path text : string) :
  "Audio file too short" ∈ validate_inputs load max_empty audio_path text
  ↔ load audio_path = inr [].
Proof.
  unfold validate_inputs, audio_errors.
  destruct (load audio_path) as [e|[|x audio]]; simpl.
  - split; [|done]. case_bool_decide;
      rewrite ?elem_of_cons, ?elem_of_nil; other_message.
  - split; [done|]. intros _. case_bool_decide; apply elem_of_cons; by left.
  - split; [|done].
    destruct (Qlt_le_dec _ _); case_bool_decide;
      rewrite ?elem_of_app, ?elem_of_cons, ?elem_of_nil; other_message.
Qed.

(** X11. Validation passes exactly when the audio loads, its peak amplitude
    is at least 0.01 and the raw text has at least ten whitespace-separated
    words. *)
Theorem validation_passes_iff (audio_path text : string) :
  validate_inputs load max_empty audio_path text = []
  ↔ ∃ audio, load audio_path = inr audio
      ∧ (1 # 100 <= peak audio)%Q
      ∧ 10 ≤ length (Text.split text).
Proof.
  unfold validate_inputs, audio_errors.
  destruct (load audio_path) as [e|[|x audio]].
  - split.
    + case_bool_decide; simpl; discriminate.
    + by intros (? & [=] & _).
  - split.
    + simpl. case_bool_decide; discriminate.
    + intros (? & [= <-] & Hpeak & _). by vm_compute in Hpeak.
  - rewrite (bool_decide_eq_false_2 (length (x :: audio) < 1)) by (simpl; lia).
    destruct (Qlt_le_dec (peak (x :: audio)) (1 # 100)) as [Hlow|Hok].
    + split.
      * case_bool_decide; discriminate.
      * intros (? & [= <-] & Hpeak & _).
        by destruct (Qlt_not_le _ _ Hlow).
    + case_bool_decide as Hlen; simpl.
      * split; [discriminate|]. intros (? & _ & _ & ?). lia.
      * split; [|done]. intros _. exists (x :: audio). split_and!; [done..|lia].
Qed.

(** X12. Once validation has passed, the assessment step of a request fails
    only if the speech recogniser raises: cleaning, alignment and the
    metrics never raise. *)
Theorem processing_fails_only_in_recogniser (audio_path target : string)
    (duration : option Q) :
  process_assessment generate_transcript load max_empty audio_path target
    duration = ProcessingFailed
  ↔ validate_inputs load max_empty audio_path target = []
    ∧ generate_transcript audio_path = None.
Proof.
  unfold process_assessment.
  destruct (validate_inputs load max_empty audio_path target) as [|e errors].
  - destruct (generate_transcript audio_path) as [t|] eqn:Ht.
    + destruct (assess_reading_returns generate_transcript audio_path target
                  duration t Ht) as (? & ? & ? & ? & ? & ? & _ & _ & _ & ->).
      split; [done|]. by intros [_ [=]].
    + unfold assess_reading. rewrite Ht. done.
  - split; [done|]. by intros [[=] _].
Qed.
End validation_facts.

(** * The cleaned text *)

Section clean_text_theorems.
Import Text.

(** X13. The cleaned text is its tokens joined by single spaces: it has no
    leading, trailing or doubled whitespace and no character outside the
    tokens. *)
Theorem clean_text_joins_tokens (text : string) :
  clean_text text = String.concat " " (split (clean_text text)).
Proof.
  unfold split, clean_text. rewrite list_ascii_of_string_of_list_ascii.
  fold (clean_chars (list_ascii_of_string text)).
  by rewrite concat_unwords, split_clean_chars, clean_chars_unwords.
Qed.

(** X14. On a text of code points 0 to 255, cleaning is idempotent:
    cleaning a cleaned text changes nothing. (The restriction matters: above
    that range [lower()] is not always one character for one, it turns
    U+0130 into [i] followed by U+0307, which a second cleaning strips.) *)
Theorem clean_text_idempotent (text : string) :
  clean_text (clean_text text) = clean_text text.
Proof.
  unfold clean_text. rewrite list_ascii_of_string_of_list_ascii.
  fold (clean_chars (list_ascii_of_string text)).
  fold (clean_chars (clean_chars (list_ascii_of_string text))).
  by rewrite clean_chars_idempotent.
Qed.

(** X15. On a text of code points 0 to 255, cleaning absorbs
    [strip().lower()], which [generate_transcript] applies to the transcript
    before [assess_reading] cleans it: the cleaned text, and so the tokens,
    are the same with and without it. (Above that range it need not: for
    U+0130 the first [lower()] leaves U+0307 for the cleaning to strip.) *)
Theorem clean_text_absorbs_strip_lower (transcript : string) :
  clean_text
    (string_of_list_ascii (lower (strip (list_ascii_of_string transcript))))
  = clean_text transcript.
Proof.
  unfold clean_text. rewrite list_ascii_of_string_of_list_ascii.
  fold (clean_chars (list_ascii_of_string transcript)).
  fold (clean_chars (lower (strip (list_ascii_of_string transcript)))).
  by rewrite clean_chars_strip_lower.
Qed.

(** X16. Cleaning never adds words: a text has at least as many
    whitespace-separated words as tokens, so a target of ten tokens or more
    is never reported as too short. *)
Theorem ten_tokens_pass_text_check (load : string → string + list Q)
    (max_empty audio_path target : string) :
  10 ≤ length (split (clean_text target)) →
  10 ≤ length (split target)
  ∧ "Text too short (minimum 10 words)"
    ∉ validate_inputs load max_empty audio_path target.
Proof.
  intros Htokens. pose proof (tokens_le_raw_words target) as Hle.
  split; [lia|]. unfold validate_inputs, audio_errors.
  rewrite (bool_decide_eq_false_2 (length (split target) < 10)) by lia.
  destruct (load audio_path) as [e|[|x audio]]; simpl.
  - rewrite elem_of_cons, elem_of_nil. by intros [[=]|[]].
  - rewrite !elem_of_cons, elem_of_nil. by intros [[=]|[[=]|[]]].
  - destruct (Qlt_le_dec _ _); rewrite ?elem_of_cons, elem_of_nil;
      [by intros [[=]|[]] | by intros []].
Qed.

Lemma ten_tokens_pass_text_check_witness :
  "Text too short (minimum 10 words)"
  ∉ validate_inputs (λ _, inr [1%Q]) "" "a.wav"
      "One, two, three, four, five, six, seven, eight, nine, ten!".
Proof.
  apply (ten_tokens_pass_text_check (λ _, inr [1%Q]) "" "a.wav"
           "One, two, three, four, five, six, seven, eight, nine, ten!").
  vm_compute. lia.
Defined.
End clean_text_theorems.

(** * Audio normalisation *)

Section peak_facts.

Lemma peak_cons x (audio : list Q) :
  peak (x :: audio)
  = if Qlt_le_dec (peak audio) (Qabs x) then Qabs x else peak audio.
Proof. done. Qed.

Lemma peak_nonneg (audio : list Q) : (0 <= peak audio)%Q.
Proof.
  induction audio as [|x audio IH]; [done|].
  rewrite peak_cons. destruct (Qlt_le_dec _ _); [apply Qabs_nonneg | done].
Qed.

Lemma peak_upper (audio : list Q) x : x ∈ audio → (Qabs x <= peak audio)%Q.
Proof.
  induction audio as [|y audio IH]; [by intros ?%elem_of_nil|].
  rewrite peak_cons. intros [->|Hin]%elem_of_cons.
  - destruct (Qlt_le_dec _ _); [apply Qle_refl | done].
  - destruct (Qlt_le_dec _ _) as [Hlt|Hge]; [|by apply IH].
    eapply Qle_trans; [by apply IH|]. by apply Qlt_le_weak.
Qed.

Lemma peak_least (audio : list Q) b :
  (0 <= b)%Q → Forall (λ x, (Qabs x <= b)%Q) audio → (peak audio <= b)%Q.
Proof.
  intros Hb. induction 1 as [|x audio Hx _ IH]; [done|].
  rewrite peak_cons. by destruct (Qlt_le_dec _ _).
Qed.

Lemma peak_attained (audio : list Q) :
  audio ≠ [] → ∃ x, x ∈ audio ∧ (Qabs x == peak audio)%Q.
Proof.
  induction audio as [|x audio IH]; [done|]. intros _.
  rewrite peak_cons. destruct (Qlt_le_dec _ _) as [Hlt|Hge].
  - exists x. split; [by left | done].
  - destruct audio as [|y audio].
    + exists x. split; [by left|].
      apply Qle_antisym; [done | apply Qabs_nonneg].
    + destruct IH as (z & Hz & Hpeak); [done|].
      exists z. split; [by right | done].
Qed.

Lemma Qabs_div_pos x m : (0 < m)%Q → (Qabs (x / m) == Qabs x / m)%Q.
Proof.
  intros Hm. unfold Qdiv. rewrite Qabs_Qmult.
  rewrite (Qabs_pos (/ m)); [done|].
  by apply Qlt_le_weak, Qinv_lt_0_compat.
Qed.

Lemma Qabs_mult_pos c x : (0 < c)%Q → (Qabs (c * x) == c * Qabs x)%Q.
Proof.
  intros Hc. rewrite Qabs_Qmult. rewrite (Qabs_pos c); [done|].
  by apply Qlt_le_weak.
Qed.

Lemma Qabs_zero x : (Qabs x <= 0)%Q → (x == 0)%Q.
Proof.
  intros Hle. apply Qle_antisym.
  - eapply Qle_trans; [apply Qle_Qabs | done].
  - pose proof (Qle_Qabs (- x)) as Hopp. rewrite Qabs_opp in Hopp.
    assert (- x <= 0)%Q as Hneg by by eapply Qle_trans.
    apply Qopp_le_compat in Hneg. by rewrite Qopp_involutive in Hneg.
Qed.

Lemma peak_scaled c (audio : list Q) :
  (0 < c)%Q → (peak ((λ x, c * x)%Q <$> audio) == c * peak audio)%Q.
Proof.
  intros Hc. induction audio as [|x audio IH]; [by rewrite Qmult_0_r|].
  rewrite fmap_cons, !peak_cons.
  destruct (Qlt_le_dec (peak audio) (Qabs x)) as [Hlt|Hge];
    destruct (Qlt_le_dec _ _) as [Hlt'|Hge'].
  - by apply Qabs_mult_pos.
  - apply Qle_antisym.
    + rewrite IH. apply Qmult_le_l; [done|]. by apply Qlt_le_weak.
    + by rewrite <- Qabs_mult_pos.
  - apply Qle_antisym.
    + rewrite Qabs_mult_pos by done. by apply Qmult_le_l.
    + rewrite <- IH. by apply Qlt_le_weak.
  - done.
Qed.

End peak_facts.

(** X17. Audio that loads with at least one sample is always preprocessed:
    the result has the same number of samples at 16 kHz, none above 1 in
    absolute value, and its peak is 1 unless every sample is 0, in which
    case the audio is returned unchanged. *)
Theorem preprocess_audio_normalises (load16 : string → option (list Q))
    (audio_file_path : string) (audio : list Q) :
  load16 audio_file_path = Some audio →
  audio ≠ [] →
  ∃ normalised,
    preprocess_audio load16 audio_file_path = Some (normalised, 16000%Z)
    ∧ length normalised = length audio
    ∧ Forall (λ x, (Qabs x <= 1)%Q) normalised
    ∧ ((peak normalised == 1)%Q
       ∨ (normalised = audio ∧ Forall (λ x, (x == 0)%Q) audio)).
Proof.
  intros Hload Hne. unfold preprocess_audio. rewrite Hload. simpl.
  destruct audio as [|x0 audio0]; [done|].
  set (audio := x0 :: audio0) in *.
  destruct (Qlt_le_dec 0 (peak audio)) as [Hpos|Hzero].
  - eexists. split; [done|].
    assert (Forall (λ x, (Qabs x <= 1)%Q) ((λ x, x / peak audio)%Q <$> audio))
      as Hbound.
    { apply Forall_fmap, Forall_forall. intros x Hx. cbv beta delta [compose].
      rewrite Qabs_div_pos by done. apply Qle_shift_div_r; [done|].
      rewrite Qmult_1_l. by apply peak_upper. }
    split_and!; [by rewrite length_fmap | done |]. left.
    apply Qle_antisym; [by apply peak_least|].
    destruct (peak_attained audio Hne) as (x & Hx & Hpeak).
    assert (1 == Qabs (x / peak audio))%Q as ->.
    { rewrite Qabs_div_pos, Hpeak by done. field.
      intros Hz. rewrite Hz in Hpos. by apply Qlt_irrefl in Hpos. }
    apply peak_upper. apply list_elem_of_fmap. by exists x.
  - exists audio. split_and!; [done..| |].
    + apply Forall_forall. intros x Hx.
      eapply Qle_trans; [by apply peak_upper|].
      by eapply Qle_trans.
    + right. split; [done|]. apply Forall_forall. intros x Hx.
      apply Qabs_zero. eapply Qle_trans; [by apply peak_upper | done].
Qed.

Lemma preprocess_audio_normalises_witness :
  ∃ normalised,
    preprocess_audio (λ _, Some [1 # 4; -(1 # 2); 0]%Q) "a.wav"
    = Some (normalised, 16000%Z)
    ∧ (peak normalised == 1)%Q.
Proof.
  destruct (preprocess_audio_normalises (λ _, Some [1 # 4; -(1 # 2); 0]%Q)
              "a.wav" [1 # 4; -(1 # 2); 0]%Q eq_refl)
    as (normalised & Hrun & _ & _ & Hpeak); [done|].
  exists normalised. split; [done|].
  destruct Hpeak as [Hpeak|[_ Hzero]]; [done|].
  apply Forall_cons in Hzero as [Hzero _]. by vm_compute in Hzero.
Defined.

(** X18. Normalisation removes the gain: audio scaled by a positive factor
    is preprocessed to the same samples. *)
Theorem preprocess_audio_ignores_gain (load16 load16' : string → option (list Q))
    (audio_file_path : string) (audio : list Q) (gain : Q) :
  (0 < gain)%Q →
  load16 audio_file_path = Some audio →
  load16' audio_file_path = Some ((λ x, gain * x)%Q <$> audio) →
  audio ≠ [] →
  ∃ normalised normalised',
    preprocess_audio load16 audio_file_path = Some (normalised, 16000%Z)
    ∧ preprocess_audio load16' audio_file_path = Some (normalised', 16000%Z)
    ∧ Forall2 Qeq normalised normalised'.
Proof.
  intros Hgain Hload Hload' Hne. unfold preprocess_audio.
  rewrite Hload, Hload'. simpl.
  pose proof (peak_scaled gain audio Hgain) as Hscaled.
  destruct audio as [|x0 audio0]; [done|].
  set (audio := x0 :: audio0) in *.
  change ((λ x, gain * x)%Q <$> x0 :: audio0)
    with ((gain * x0)%Q :: ((λ x, gain * x)%Q <$> audio0)).
  change ((gain * x0)%Q :: ((λ x, gain * x)%Q <$> audio0))
    with ((λ x, gain * x)%Q <$> audio) in *.
  destruct ((λ x, gain * x)%Q <$> audio) as [|y0 scaled0] eqn:Hsc; [done|].
  rewrite <- Hsc in *. clear y0 scaled0 Hsc.
  destruct (Qlt_le_dec 0 (peak audio)) as [Hpos|Hzero];
    destruct (Qlt_le_dec 0 (peak ((λ x, gain * x)%Q <$> audio)))
      as [Hpos'|Hzero'].
  - eexists _, _. split_and!; [done..|].
    rewrite <- list_fmap_compose. apply Forall2_fmap, Forall_Forall2_diag.
    apply Forall_forall. intros x _. cbv beta delta [compose]. rewrite Hscaled. field.
    split; intros Hz.
    + rewrite Hz in Hpos. by apply Qlt_irrefl in Hpos.
    + rewrite Hz in Hgain. by apply Qlt_irrefl in Hgain.
  - exfalso. rewrite Hscaled in Hzero'. apply (Qlt_irrefl 0).
    eapply Qlt_le_trans; [|exact Hzero'].
    rewrite <- (Qmult_0_r gain). by apply Qmult_lt_l.
  - exfalso. rewrite Hscaled in Hpos'.
    assert (peak audio == 0)%Q as Hz
      by (apply Qle_antisym; [done | apply peak_nonneg]).
    rewrite Hz, Qmult_0_r in Hpos'. by apply Qlt_irrefl in Hpos'.
  - eexists _, _. split_and!; [done..|].
    apply Forall2_fmap_r, Forall_Forall2_diag, Forall_forall. intros x Hx.
    cbv beta delta [compose].
    assert (x == 0)%Q as Hx0.
    { apply Qabs_zero. eapply Qle_trans; [by apply peak_upper | done]. }
    by rewrite Hx0, Qmult_0_r.
Qed.

Lemma preprocess_audio_ignores_gain_witness :
  ∃ normalised normalised',
    preprocess_audio (λ _, Some [1 # 4; -(1 # 2)]%Q) "a.wav"
    = Some (normalised, 16000%Z)
    ∧ preprocess_audio (λ _, Some [3 # 4; -(3 # 2)]%Q) "a.wav"
      = Some (normalised', 16000%Z)
    ∧ Forall2 Qeq normalised normalised'.
Proof.
  apply (preprocess_audio_ignores_gain (λ _, Some [1 # 4; -(1 # 2)]%Q)
           (λ _, Some [3 # 4; -(3 # 2)]%Q) "a.wav" [1 # 4; -(1 # 2)]%Q 3%Q);
    done.
Defined.

(** * The routes *)

Section leaderboard_facts.

Lemma leaderboard_loop_entries table students acc :
  leaderboard_loop table students acc
  = Some (acc ++ omap (entry_of table) students).
Proof.
  revert acc. induction students as [|s students IH]; intros acc.
  - simpl. by rewrite app_nil_r.
  - cbn [leaderboard_loop].
    change (omap (entry_of table) (s :: students))
      with (match entry_of table s with
            | Some e => e :: omap (entry_of table) students
            | None => omap (entry_of table) students
            end).
    unfold entry_of at 1.
    destruct (assessments_of table s) as [|a mine] eqn:Hmine; [apply IH|].
    rewrite py_div_pos by (apply Q_of_nat_pos; simpl; lia).
    cbv [mbind option_bind]. rewrite IH, <- app_assoc. done.
Qed.

Lemma insert_entry_perm e sorted : insert_entry e sorted ≡ₚ e :: sorted.
Proof.
  induction sorted as [|e' sorted IH]; simpl; [done|].
  destruct (Qlt_le_dec _ _); [|done]. by rewrite IH, Permutation_swap.
Qed.

Lemma sort_entries_perm entries : sort_entries entries ≡ₚ entries.
Proof.
  induction entries as [|e entries IH]; simpl; [done|].
  by rewrite insert_entry_perm, IH.
Qed.

Lemma insert_entry_descending e sorted :
  descending sorted → descending (insert_entry e sorted).
Proof.
  unfold descending. induction 1 as [|e' sorted Hsorted IH Hall]; simpl.
  - by repeat constructor.
  - destruct (Qlt_le_dec _ _) as [Hlt|Hge].
    + constructor; [done|]. rewrite insert_entry_perm.
      constructor; [by apply Qlt_le_weak | done].
    + constructor; [by constructor|]. constructor; [done|].
      eapply Forall_impl; [done|]. intros e'' ?. simpl in *.
      by eapply Qle_trans.
Qed.

Lemma sort_entries_descending entries : descending (sort_entries entries).
Proof.
  induction entries as [|e entries IH]; simpl; [constructor|].
  by apply insert_entry_descending.
Qed.

Lemma imap_set_rank_fmap {A} (f : LeaderboardEntry → A) entries k :
  (∀ i e, f (set_rank i e) = f e) →
  f <$> imap (set_rank ∘ k) entries = f <$> entries.
Proof.
  intros Hf. revert k. induction entries as [|e entries IH]; intros k; [done|].
  simpl. rewrite Hf. f_equal. apply (IH (k ∘ S)).
Qed.

Lemma descending_set_rank entries :
  descending entries → descending (imap set_rank entries).
Proof.
  unfold descending. intros Hsorted.
  assert (∀ k, StronglySorted
                 (λ e1 e2, (average_wcpm e2 <= average_wcpm e1)%Q)
                 (imap (set_rank ∘ k) entries)) as Hk; [|apply (Hk id)].
  induction Hsorted as [|e entries _ IH Hall]; intros k; simpl; [constructor|].
  constructor; [apply (IH (k ∘ S))|].
  apply Forall_forall. intros e' Hin.
  assert (average_wcpm e' ∈ average_wcpm <$> imap (set_rank ∘ (k ∘ S)) entries)
    as Havg by (apply list_elem_of_fmap; by exists e').
  rewrite (imap_set_rank_fmap average_wcpm) in Havg by done.
  apply list_elem_of_fmap in Havg as (e'' & -> & Hin'').
  rewrite Forall_forall in Hall. by apply Hall.
Qed.

Lemma entry_of_Some table s e :
  entry_of table s = Some e →
  entry_student_name e = student_name s
  ∧ total_assessments e = length (assessments_of table s)
  ∧ 0 < total_assessments e
  ∧ average_wcpm e
    = (total_wcpm (assessments_of table s)
       / Q_of_nat (length (assessments_of table s)))%Q
  ∧ trend e = "stable".
Proof.
  unfold entry_of. destruct (assessments_of table s) as [|a mine]; [done|].
  intros [= <-]. simpl. split_and!; try done. lia.
Qed.

End leaderboard_facts.

(** X19. The leaderboard always answers. Its entries are ranked 1, 2, ...
    in order, no entry has a higher average WCPM than an entry above it,
    and [total_students] is the number of entries. *)
Theorem leaderboard_is_ranked (students : list Student)
    (table : list Assessment) :
  ∃ entries,
    get_leaderboard students table = Some (entries, length entries)
    ∧ (∀ i e, entries !! i = Some e → rank e = i + 1)
    ∧ descending entries.
Proof.
  unfold get_leaderboard. rewrite leaderboard_loop_entries. simpl.
  eexists. split; [done|]. split.
  - intros i e. rewrite list_lookup_imap.
    destruct (sort_entries _ !! i); by intros [= <-].
  - apply descending_set_rank, sort_entries_descending.
Qed.

(** X20. The leaderboard has one entry for each student with at least one
    assessment, and none for the others: apart from the rank, the entries
    are a permutation of those students' entries, each with the student's
    name, the number of the student's assessments and the sum of their
    WCPM divided by that number. *)
Theorem leaderboard_lists_assessed_students (students : list Student)
    (table : list Assessment) :
  ∃ entries,
    get_leaderboard students table = Some (entries, length entries)
    ∧ length entries
      = length (filter (λ s, assessments_of table s ≠ []) students)
    ∧ entry_student_name <$> entries
      ≡ₚ student_name
         <$> filter (λ s, assessments_of table s ≠ []) students
    ∧ Forall (λ e, ∃ s, s ∈ students
                ∧ entry_student_name e = student_name s
                ∧ total_assessments e = length (assessments_of table s)
                ∧ 0 < total_assessments e
                ∧ average_wcpm e
                  = (total_wcpm (assessments_of table s)
                     / Q_of_nat (length (assessments_of table s)))%Q)
             entries.
Proof.
  unfold get_leaderboard. rewrite leaderboard_loop_entries. simpl.
  eexists. split; [done|].
  assert (entry_student_name <$> omap (entry_of table) students
          = student_name
            <$> filter (λ s, assessments_of table s ≠ []) students) as Hnames.
  { induction students as [|s students IH]; [done|].
    change (omap (entry_of table) (s :: students))
      with (match entry_of table s with
            | Some e => e :: omap (entry_of table) students
            | None => omap (entry_of table) students
            end).
    destruct (entry_of table s) as [e|] eqn:He.
    - destruct (entry_of_Some _ _ _ He) as (Hname & Hlen & Hpos & _).
      rewrite filter_cons_True
        by (intros Hnil; rewrite Hnil in Hlen; simpl in Hlen; lia).
      by rewrite !fmap_cons, IH, Hname.
    - rewrite filter_cons_False; [done|]. intros Hne. apply Hne.
      unfold entry_of in He. by destruct (assessments_of table s). }
  assert (entry_student_name
          <$> imap set_rank (sort_entries (omap (entry_of table) students))
          ≡ₚ student_name
             <$> filter (λ s, assessments_of table s ≠ []) students) as Hperm.
  { rewrite (imap_set_rank_fmap entry_student_name _ id) by done.
    by rewrite sort_entries_perm, Hnames. }
  split_and!.
  - apply Permutation_length in Hperm. by rewrite !length_fmap in Hperm.
  - done.
  - apply Forall_forall. intros e Hin.
    apply list_elem_of_lookup in Hin as [i Hi].
    rewrite list_lookup_imap in Hi.
    destruct (sort_entries _ !! i) as [e0|] eqn:He0; [|done].
    injection Hi as <-. apply list_elem_of_lookup_2 in He0.
    rewrite sort_entries_perm in He0.
    apply list_elem_of_omap in He0 as (s & Hs & He).
    destruct (entry_of_Some _ _ _ He) as (? & ? & ? & ? & _).
    exists s. by split_and!.
Qed.

(** * Students *)

(** X21. Creating a student gets or creates: the student returned has the
    requested name and is in the table, the rows that were there are kept,
    and asking again for the same name returns the same student and leaves
    the table as it is. *)
Theorem create_student_gets_or_creates (next_id : list Student → nat)
    (name : string) (students : list Student) :
  ∃ students' s,
    create_student next_id name students = (students', s)
    ∧ student_name s = name
    ∧ s ∈ students'
    ∧ students `prefix_of` students'
    ∧ create_student next_id name students' = (students', s).
Proof.
  unfold create_student.
  destruct (list_find _ students) as [[i s]|] eqn:Hfind.
  - exists students, s. rewrite Hfind.
    apply list_find_Some in Hfind as (Hi & Hname & _).
    split_and!; try done. by eapply list_elem_of_lookup_2.
  - eexists _, _. split; [done|]. simpl.
    split_and!; [done | set_solver | by eexists |].
    apply list_find_None in Hfind.
    rewrite (proj2 (list_find_Some _ _ (length students)
                      (mkStudent (next_id students) name))); [done|].
    split_and!.
    + by rewrite lookup_app_r, Nat.sub_diag.
    + done.
    + intros j s' Hj Hlt. rewrite lookup_app_l in Hj by done.
      rewrite Forall_forall in Hfind. apply Hfind.
      by eapply list_elem_of_lookup_2.
Qed.

(** X22. Creating students keeps the names unique, as the schema
    requires. A name that is not in the table gets one new row. *)
Theorem create_student_keeps_names_unique (next_id : list Student → nat)
    (name : string) (students : list Student) :
  NoDup (student_name <$> students) →
  NoDup (student_name <$> (create_student next_id name students).1)
  ∧ (name ∈ student_name <$> students →
     (create_student next_id name students).1 = students)
  ∧ (name ∉ student_name <$> students →
     length (create_student next_id name students).1
     = S (length students)).
Proof.
  intros Hunique. unfold create_student.
  destruct (list_find _ students) as [[i s]|] eqn:Hfind; simpl.
  - split_and!; [done | done |]. intros Hnot. exfalso. apply Hnot.
    apply list_find_Some in Hfind as (Hi & Hname & _).
    apply list_elem_of_fmap. exists s. split; [done|].
    by eapply list_elem_of_lookup_2.
  - apply list_find_None in Hfind. rewrite Forall_forall in Hfind.
    assert (name ∉ student_name <$> students) as Hnot.
    { intros (s & Hs & Hin)%list_elem_of_fmap. by apply (Hfind s). }
    split_and!.
    + rewrite fmap_app. apply NoDup_app. split_and!; [done| |].
      * intros n Hn [->|[]%elem_of_nil]%elem_of_cons. done.
      * apply NoDup_singleton.
    + done.
    + intros _. rewrite length_app. simpl. lia.
Qed.

Lemma create_student_keeps_names_unique_witness :
  NoDup (student_name
         <$> (create_student length "Bo"
                [mkStudent 0 "Al"; mkStudent 1 "Cy"]).1).
Proof.
  apply (create_student_keeps_names_unique length "Bo"
           [mkStudent 0 "Al"; mkStudent 1 "Cy"]).
  apply (bool_decide_unpack _). by vm_compute.
Defined.

(** * Examples: the matcher's documentation and the scenarios of the specification *)

Example opcodes_qabxcd :
  Difflib.get_opcodes ["q";"a";"b";"x";"c";"d"] ["a";"b";"y";"c";"d";"f"]
  = Some [(Difflib.OpDelete, 0, 1, 0, 0); (Difflib.OpEqual, 1, 3, 0, 2);
          (Difflib.OpReplace, 3, 4, 2, 3); (Difflib.OpEqual, 4, 6, 3, 5);
          (Difflib.OpInsert, 6, 6, 5, 6)].
Proof. vm_compute. reflexivity. Qed.

Example longest_match_abcd :
  Difflib.find_longest_match [" ";"a";"b";"c";"d"] ["a";"b";"c";"d";" ";"a";"b";"c";"d"]
    (Difflib.chain_b ["a";"b";"c";"d";" ";"a";"b";"c";"d"]) 0 5 0 9 = (0, 4, 5).
Proof. vm_compute. reflexivity. Qed.

Example align_extra_word :
  align_sequences ["the";"cat";"sat";"on";"the";"mat"] ["the";"cat";"sat";"on";"the";"mat";"extra"]
  = Some ([("the","the");("cat","cat");("sat","sat");("on","on");("the","the");("mat","mat")], [], ["extra"], []).
Proof. vm_compute. reflexivity. Qed.

Example align_replace_blocks :
  align_sequences ["a";"b";"c";"d";"e"] ["x";"b";"y";"z";"w";"e";"q"]
  = Some ([("b", "b"); ("e", "e")], [("a", "x"); ("c", "y"); ("d", "z")], ["w"; "q"], []).
Proof. vm_compute. reflexivity. Qed.

Example tokens_hello : Text.split (clean_text "Hello, world!! Foo-bar.") = ["hello";"world";"foobar"].
Proof. vm_compute. reflexivity. Qed.

Example clean_text_hello : clean_text "  Hello,   world!!
 Foo-bar.  " = "hello world foobar".
Proof. vm_compute. reflexivity. Qed.

(** An empty-string token is not a word: the truth tests of the replace
    branch take it for a missing token. [str.split] never returns one. *)
Example empty_token_is_dropped :
  align_sequences [""] ["a"] = Some ([], [], ["a"], []).
Proof. by vm_compute. Qed.

Example scenario_identical :
  ∃ r, assess_reading (λ _, Some "the cat sat on the mat") "a.wav"
         "the cat sat on the mat" None = Some r
    ∧ hits r = 6 ∧ substitutions r = 0 ∧ insertions r = 0 ∧ deletions r = 0
    ∧ (wer r == 0)%Q ∧ (accuracy r == 1)%Q.
Proof. eexists. split; [by vm_compute|]. by split_and!. Qed.

Example scenario_empty_hypothesis :
  ∃ r, assess_reading (λ _, Some "") "a.wav" "the cat sat on the mat" None
       = Some r
    ∧ hits r = 0 ∧ deletions r = 6
    ∧ err_deletions (detailed r) = ["the"; "cat"; "sat"; "on"; "the"; "mat"]
    ∧ (wer r == 1)%Q ∧ (accuracy r == 0)%Q.
Proof. eexists. split; [by vm_compute|]. by split_and!. Qed.

Example scenario_extra_word :
  ∃ r, assess_reading (λ _, Some "the cat sat on the mat extra") "a.wav"
         "the cat sat on the mat" None = Some r
    ∧ hits r = 6 ∧ insertions r = 1
    ∧ err_insertions (detailed r) = ["extra"]
    ∧ (wer r == 1 # 6)%Q.
Proof. eexists. split; [by vm_compute|]. by split_and!. Qed.

Example scenario_wcpm :
  (∃ w, compute_wcpm 30 (Some 60%Q) = Some w ∧ (w == 30)%Q)
  ∧ compute_wcpm 30 None = Some 0%Q
  ∧ compute_wcpm 30 (Some 0%Q) = Some 0%Q.
Proof. split_and!; [eexists; split; [by vm_compute | done] | done | done]. Qed.

(** The same scenario in binary64: 30.0 is [30 * 2 ** 48 * 2 ** -48]. *)
Example scenario_wcpm_binary64 :
  Binary64.compute_wcpm 30 (Some Binary64.sixty)
  = Some (S754_finite false 8444249301319680 (-48))
  ∧ Binary64.compute_wcpm 30 None = Some Binary64.zero
  ∧ Binary64.compute_wcpm 30 (Some Binary64.zero) = Some Binary64.zero.
Proof. by vm_compute. Qed.
